(** * assembly_sim: the assembly-soup plugin

    A shallow embedding of [assembly_soup_plugin.cpp] / [assembly_soup_plugin.h]:
    scene loading ([AssemblySoup::Load]), the mate discovery cycle
    ([AssemblySoup::getStateUpdates]) and the loop of the background thread
    that runs it ([AssemblySoup::stateUpdateLoop]), and the simulation tick
    handler ([AssemblySoup::OnUpdate]).

    Conventions.
    - C++ structs are records, one module per struct so that the fields keep
      their names ([Mate.pending_state], [MatePoint.model], ...).
    - A [boost::shared_ptr] to an immutable object is the object together with
      the address it was allocated at; pointer comparison compares addresses.
      A null pointer is [None].
    - [Mate] objects are mutated in place and shared between the mate table and
      the set of staged mates, so they live in a store ([heap_], a list indexed
      by address) and the containers hold addresses.
    - [std::map] is a key-ordered association list, [boost::unordered_map] and
      [boost::unordered_set] are [gmap] and [gset].
    - Calls into the physics engine, ROS and the mate models are recorded as
      events, in program order.
    - [double] loop counters and angles of the symmetry expansion are kept
      exact: counters are integers and an angle is the pair (index, divisions).
*)

From stdpp Require Import gmap strings list fin_maps pretty.
From Stdlib Require Import ZArith Ascii.

Local Open Scope string_scope.
Local Open Scope list_scope.

(* ------------------------------------------------------------------------- *)
(** ** KDL frames, symbolically *)

Module KDL.

(** The angle [steps * (2 * M_PI / divisions)]. *)
Record Angle := mkAngle { steps : Z; divisions : Z }.

Inductive Rotation :=
| Identity
| RotX (a : Angle)
| RotY (a : Angle)
| RotZ (a : Angle)
| RotMul (r1 r2 : Rotation).            (* r1 * r2 *)

Inductive Vector := Vec (x y z : Z).

Inductive Frame :=
| FrameIdentity                          (* KDL::Frame() *)
| FrameOf (M : Rotation) (p : Vector)    (* KDL::Frame(M, p) *)
| FrameGiven (tag : nat)                 (* a pose read from outside *)
| FrameMul (a b : Frame).                (* a * b *)

#[global] Instance Angle_eq_dec : EqDecision Angle.
Proof. solve_decision. Defined.
#[global] Instance Rotation_eq_dec : EqDecision Rotation.
Proof. solve_decision. Defined.
#[global] Instance Vector_eq_dec : EqDecision Vector.
Proof. solve_decision. Defined.
#[global] Instance Frame_eq_dec : EqDecision Frame.
Proof. solve_decision. Defined.

End KDL.

(* ------------------------------------------------------------------------- *)
(** ** The scene description handed to [Load] *)

Module Sdf.

Record Vector3 := mkVector3 { x : Z; y : Z; z : Z }.

(** [<symmetry>], with its optional [<rot>] child. *)
Record Symmetry := mkSymmetry { rot : option Vector3 }.

(** [<joint type=...>] of a mate model; the rest of the template is opaque. *)
Record Joint := mkJoint { joint_type : string; joint_body : string }.

(** [<mate_model model=... type=...>]; both attributes may be missing. *)
Record MateModelElem := mkMateModelElem {
  attr_model : option string;
  attr_type : option string;
  joint : Joint;
  symmetry : option Symmetry;
  parameters : string;
}.

(** [<mate_point type=... gender=...><pose/>]. *)
Record MatePointElem := mkMatePointElem {
  mp_type : string;
  mp_gender : string;
  mp_pose : KDL.Frame;
}.

(** [<atom_model type=...>] with its [<mate_point>] children. *)
Record AtomModelElem := mkAtomModelElem {
  am_type : string;
  mate_point : list MatePointElem;
}.

(** The plugin element [_sdf]. *)
Record Plugin := mkPlugin {
  tf_world_frame : option string;
  publish_active_mates : option bool;
  updates_per_second : option Z;
  mate_model : list MateModelElem;
  atom_model : list AtomModelElem;
}.

End Sdf.

(* ------------------------------------------------------------------------- *)
(** ** [std::map<std::string, V>] *)

Module StdMap.

Definition t (V : Type) := list (string * V).

Fixpoint find {V} (k : string) (m : t V) : option V :=
  match m with
  | [] => None
  | (k', v) :: m' => if String.eqb k k' then Some v else find k m'
  end.

(** [m[k] = v]: insert in key order, or overwrite. *)
Fixpoint assign {V} (k : string) (v : V) (m : t V) : t V :=
  match m with
  | [] => [(k, v)]
  | (k', v') :: m' =>
      match String.compare k k' with
      | Lt => (k, v) :: m
      | Eq => (k, v) :: m'
      | Gt => (k', v') :: assign k v m'
      end
  end.

(** [m[k]] as an rvalue: a missing key is inserted with the default value. *)
Definition index {V} (dflt : V) (k : string) (m : t V) : V * t V :=
  match find k m with
  | Some v => (v, m)
  | None => (dflt, assign k dflt m)
  end.

Definition keys {V} (m : t V) : list string := m.*1.

End StdMap.

(* ------------------------------------------------------------------------- *)
(** ** The data model (models.h) *)

(** Modelled from the spec: the declaration of the state enumeration
    (models.h) is not among the sources, which name only [MateModel::NONE] and
    [MateModel::MATED].  [NONE] is "no change requested", [UNMATED] is the
    spec's Detached and [MATED] its Mated. *)
Inductive State := NONE | UNMATED | MATED.

#[global] Instance State_eq_dec : EqDecision State.
Proof. solve_decision. Defined.

Inductive ModelKind := ProximityMateModel | DipoleMateModel.

Module MateModel.
Record t := mk {
  addr : nat;
  kind : ModelKind;
  type : string;
  joint_template : Sdf.Joint;
  symmetries : list KDL.Frame;
  parameters : string;
}.
End MateModel.

(** [MateModelPtr]; [None] is the null pointer. *)
Abbreviation MateModelPtr := (option MateModel.t).

(** [p == q] on [MateModelPtr]. *)
Definition ptr_eq (p q : MateModelPtr) : bool :=
  bool_decide (MateModel.addr <$> p = MateModel.addr <$> q).

Module MatePoint.
Record t := mk {
  addr : nat;
  model : MateModelPtr;
  pose : KDL.Frame;
  id : nat;
}.
End MatePoint.

Module AtomModel.
Record t := mk {
  type : string;
  female_mate_points : list MatePoint.t;
  male_mate_points : list MatePoint.t;
}.
End AtomModel.

(** A gazebo link, as far as the plugin looks at it. *)
Module Link.
Record t := mk { GetName : string }.
End Link.

Module Atom.
Record t := mk {
  addr : nat;
  link : Link.t;
  model : AtomModel.t;
}.
End Atom.

(** A gazebo joint handle.  [parent] and [child] are the link handles
    ([GetParent()], [GetChild()]), null when unset. *)
Module Joint.
Record t := mk {
  name : string;
  type : string;
  parent : option string;
  child : option string;
  pose : KDL.Frame;
  attached : bool;
}.
End Joint.

Module Mate.
Record t := mk {
  model : MateModelPtr;
  female : Atom.t;
  male : Atom.t;
  female_mate_point : MatePoint.t;
  male_mate_point : MatePoint.t;
  joint : Joint.t;
  state : State;
  pending_state : State;
}.

Definition set_pending_state (st : State) (m : t) : t :=
  mk (model m) (female m) (male m) (female_mate_point m)
     (male_mate_point m) (joint m) (state m) st.
End Mate.

(** [assembly_msgs::MateList]: the parallel arrays [female] and [male]. *)
Abbreviation MateList := (list (string * string)).

(** What the plugin does to the outside, in program order.  A mate is named by
    its address in the store. *)
Inductive Event :=
| EvError (msg : string)                    (* gzerr *)
| EvNewMate (a fmp mmp : nat)               (* make_shared<Mate>(...) *)
| EvCreateJoint (a : nat) (name : string)   (* physics->CreateJoint, Load, Init *)
| EvJointDetach (a : nat)                   (* joint->Detach() *)
| EvLock                                    (* scoped_lock(update_mutex_) *)
| EvUnlock                                  (* its destructor *)
| EvGetStateUpdate (a : nat) (r : State)    (* model->getStateUpdate(mate) = r *)
| EvStage (a : nat)                         (* mates_to_update_.insert(mate) *)
| EvSendTransform (frame child : string)    (* br.sendTransform *)
| EvPublishMarkers (male : bool) (ids : list nat)
| EvPublishActiveMates (msg : MateList)     (* active_mates_pub_.publish *)
| EvStartThread                             (* boost::thread(stateUpdateLoop) *)
| EvTryLock (acquired : bool)               (* scoped_lock(.., try_to_lock) *)
| EvUpdateState (a : nat)                   (* model->updateState(mate) *)
| EvUpdate (a : nat).                       (* model->update(mate) *)

#[global] Instance Event_eq_dec : EqDecision Event.
Proof. solve_decision. Defined.

(** The plugin object.  [mate_table_] and [mates_to_update_] are used by the
    implementation file; the remaining members are those of the header that
    the code reads or writes. *)
Record AssemblySoup := mkSoup {
  updateConnection_ : bool;               (* connected to WorldUpdateBegin *)
  publish_active_mates_ : bool;
  update_mutex_ : bool;                   (* true: held *)
  running_ : bool;
  mate_models_ : StdMap.t MateModelPtr;
  atom_models_ : StdMap.t AtomModel.t;
  atoms_ : list Atom.t;
  mates_ : gset nat;
  mates_to_update_ : gset nat;
  mate_table_ : gmap nat (gmap nat nat);  (* female point -> male point -> mate *)
  broadcast_tf_ : bool;
  tf_world_frame_ : string;
  updates_per_second_ : Z;
  heap_ : list Mate.t;                    (* the Mate objects, by address *)
  next_addr_ : nat;                       (* allocator of the load-time objects *)
}.

(** [AssemblySoup::AssemblySoup()]. *)
Definition AssemblySoup_ctor : AssemblySoup :=
  {| updateConnection_ := false;
     publish_active_mates_ := false;
     update_mutex_ := false;
     running_ := false;
     mate_models_ := [];
     atom_models_ := [];
     atoms_ := [];
     mates_ := ∅;
     mates_to_update_ := ∅;
     mate_table_ := ∅;
     broadcast_tf_ := false;
     tf_world_frame_ := "world";
     updates_per_second_ := 10;
     heap_ := [];
     next_addr_ := 0 |}.

Definition with_mate_models_ (v : StdMap.t MateModelPtr) (s : AssemblySoup) :=
  mkSoup (updateConnection_ s) (publish_active_mates_ s) (update_mutex_ s)
    (running_ s) v (atom_models_ s) (atoms_ s) (mates_ s)
    (mates_to_update_ s) (mate_table_ s) (broadcast_tf_ s) (tf_world_frame_ s)
    (updates_per_second_ s) (heap_ s) (next_addr_ s).

Definition with_atom_models_ (v : StdMap.t AtomModel.t) (s : AssemblySoup) :=
  mkSoup (updateConnection_ s) (publish_active_mates_ s) (update_mutex_ s)
    (running_ s) (mate_models_ s) v (atoms_ s) (mates_ s)
    (mates_to_update_ s) (mate_table_ s) (broadcast_tf_ s) (tf_world_frame_ s)
    (updates_per_second_ s) (heap_ s) (next_addr_ s).

Definition with_atoms_ (v : list Atom.t) (s : AssemblySoup) :=
  mkSoup (updateConnection_ s) (publish_active_mates_ s) (update_mutex_ s)
    (running_ s) (mate_models_ s) (atom_models_ s) v (mates_ s)
    (mates_to_update_ s) (mate_table_ s) (broadcast_tf_ s) (tf_world_frame_ s)
    (updates_per_second_ s) (heap_ s) (next_addr_ s).

Definition with_next_addr_ (v : nat) (s : AssemblySoup) :=
  mkSoup (updateConnection_ s) (publish_active_mates_ s) (update_mutex_ s)
    (running_ s) (mate_models_ s) (atom_models_ s) (atoms_ s) (mates_ s)
    (mates_to_update_ s) (mate_table_ s) (broadcast_tf_ s) (tf_world_frame_ s)
    (updates_per_second_ s) (heap_ s) v.

Definition with_updateConnection_ (v : bool) (s : AssemblySoup) :=
  mkSoup v (publish_active_mates_ s) (update_mutex_ s)
    (running_ s) (mate_models_ s) (atom_models_ s) (atoms_ s) (mates_ s)
    (mates_to_update_ s) (mate_table_ s) (broadcast_tf_ s) (tf_world_frame_ s)
    (updates_per_second_ s) (heap_ s) (next_addr_ s).

Definition with_tf_ (frame : string) (s : AssemblySoup) :=
  mkSoup (updateConnection_ s) (publish_active_mates_ s) (update_mutex_ s)
    (running_ s) (mate_models_ s) (atom_models_ s) (atoms_ s) (mates_ s)
    (mates_to_update_ s) (mate_table_ s) true frame
    (updates_per_second_ s) (heap_ s) (next_addr_ s).

Definition with_publish_active_mates_ (v : bool) (s : AssemblySoup) :=
  mkSoup (updateConnection_ s) v (update_mutex_ s)
    (running_ s) (mate_models_ s) (atom_models_ s) (atoms_ s) (mates_ s)
    (mates_to_update_ s) (mate_table_ s) (broadcast_tf_ s) (tf_world_frame_ s)
    (updates_per_second_ s) (heap_ s) (next_addr_ s).

Definition with_updates_per_second_ (v : Z) (s : AssemblySoup) :=
  mkSoup (updateConnection_ s) (publish_active_mates_ s) (update_mutex_ s)
    (running_ s) (mate_models_ s) (atom_models_ s) (atoms_ s) (mates_ s)
    (mates_to_update_ s) (mate_table_ s) (broadcast_tf_ s) (tf_world_frame_ s)
    v (heap_ s) (next_addr_ s).

Definition with_update_mutex_ (v : bool) (s : AssemblySoup) :=
  mkSoup (updateConnection_ s) (publish_active_mates_ s) v
    (running_ s) (mate_models_ s) (atom_models_ s) (atoms_ s) (mates_ s)
    (mates_to_update_ s) (mate_table_ s) (broadcast_tf_ s) (tf_world_frame_ s)
    (updates_per_second_ s) (heap_ s) (next_addr_ s).

Definition with_running_ (v : bool) (s : AssemblySoup) :=
  mkSoup (updateConnection_ s) (publish_active_mates_ s) (update_mutex_ s)
    v (mate_models_ s) (atom_models_ s) (atoms_ s) (mates_ s)
    (mates_to_update_ s) (mate_table_ s) (broadcast_tf_ s) (tf_world_frame_ s)
    (updates_per_second_ s) (heap_ s) (next_addr_ s).

Definition with_mates_to_update_ (v : gset nat) (s : AssemblySoup) :=
  mkSoup (updateConnection_ s) (publish_active_mates_ s) (update_mutex_ s)
    (running_ s) (mate_models_ s) (atom_models_ s) (atoms_ s) (mates_ s)
    v (mate_table_ s) (broadcast_tf_ s) (tf_world_frame_ s)
    (updates_per_second_ s) (heap_ s) (next_addr_ s).

Definition with_mate_table_ (v : gmap nat (gmap nat nat)) (s : AssemblySoup) :=
  mkSoup (updateConnection_ s) (publish_active_mates_ s) (update_mutex_ s)
    (running_ s) (mate_models_ s) (atom_models_ s) (atoms_ s) (mates_ s)
    (mates_to_update_ s) v (broadcast_tf_ s) (tf_world_frame_ s)
    (updates_per_second_ s) (heap_ s) (next_addr_ s).

Definition with_heap_ (v : list Mate.t) (s : AssemblySoup) :=
  mkSoup (updateConnection_ s) (publish_active_mates_ s) (update_mutex_ s)
    (running_ s) (mate_models_ s) (atom_models_ s) (atoms_ s) (mates_ s)
    (mates_to_update_ s) (mate_table_ s) (broadcast_tf_ s) (tf_world_frame_ s)
    (updates_per_second_ s) v (next_addr_ s).

(* ------------------------------------------------------------------------- *)
(** ** [AssemblySoup::Load] *)

(** How a block of [Load] ends: it falls through to the next statement, it
    executes [return], or it dereferences a null pointer. *)
Inductive Flow := Go | Return | Crash.

#[global] Instance Flow_eq_dec : EqDecision Flow.
Proof. solve_decision. Defined.

(** [boost::iequals], in the "C" locale. *)
Definition to_upper (c : ascii) : ascii :=
  let n := nat_of_ascii c in
  if (97 <=? n)%nat && (n <=? 122)%nat then ascii_of_nat (n - 32) else c.

Fixpoint iequals (a b : string) : bool :=
  match a, b with
  | EmptyString, EmptyString => true
  | String c a', String d b' =>
      Ascii.eqb (to_upper c) (to_upper d) && iequals a' b'
  | _, _ => false
  end.

(** The values of [i] in [for(double i=0; i < n; i++)]. *)
Definition axis_steps (n : Z) : list Z := Z.of_nat <$> seq 0 (Z.to_nat n).

(** [KDL::Frame(Rx*Ry*Rz, KDL::Vector(0,0,0))] for the loop counters
    [ix], [iy], [iz]: rotations by [ix * x_step], [iy * y_step], [iz * z_step]
    with [x_step = M_PI*2.0/rot_symmetry.x] and so on. *)
Definition symmetry_frame (v : Sdf.Vector3) (ix iy iz : Z) : KDL.Frame :=
  KDL.FrameOf
    (KDL.RotMul
       (KDL.RotMul (KDL.RotX (KDL.mkAngle ix (Sdf.x v)))
                   (KDL.RotY (KDL.mkAngle iy (Sdf.y v))))
       (KDL.RotZ (KDL.mkAngle iz (Sdf.z v))))
    (KDL.Vec 0 0 0).

(** The three nested loops over [rot_symmetry]: one frame per iteration, in
    loop order. *)
Definition rot_symmetries (v : Sdf.Vector3) : list KDL.Frame :=
  ix ← axis_steps (Sdf.x v);
  iy ← axis_steps (Sdf.y v);
  iz ← axis_steps (Sdf.z v);
  [symmetry_frame v ix iy iz].

(** "Get the mate symmetries". *)
Definition load_symmetries (e : Sdf.MateModelElem) : list KDL.Frame :=
  match Sdf.symmetry e with
  | Some symmetry_elem =>
      match Sdf.rot symmetry_elem with
      | Some rot_symmetry => rot_symmetries rot_symmetry
      | None => []
      end
  | None => []
  end.

(** Modelled from the spec: [MateModel::load] (models.cpp) is not among the
    sources.  It parses the model-specific parameters of the element and names
    the model after the element's type; the joint template and the symmetries
    stay as [Load] set them. *)
Definition MateModel_load (mate_model_type : string) (e : Sdf.MateModelElem)
    (m : MateModel.t) : MateModel.t :=
  MateModel.mk (MateModel.addr m) (MateModel.kind m) mate_model_type
    (MateModel.joint_template m) (MateModel.symmetries m) (Sdf.parameters e).

Definition with_symmetries (v : list KDL.Frame) (m : MateModel.t) : MateModel.t :=
  MateModel.mk (MateModel.addr m) (MateModel.kind m) (MateModel.type m)
    (MateModel.joint_template m) v (MateModel.parameters m).

(** [make_shared<ProximityMateModel>()] or [make_shared<DipoleMateModel>()]. *)
Definition model_kind (model : string) : option ModelKind :=
  if String.eqb model "proximity" then Some ProximityMateModel
  else if String.eqb model "dipole" then Some DipoleMateModel
  else None.

Definition dquote : string := String (ascii_of_nat 34) EmptyString.

(** The body of the [while] loop over the [mate_model] elements. *)
Definition load_mate_model (e : Sdf.MateModelElem) (s : AssemblySoup)
    : Flow * AssemblySoup * list Event :=
  match Sdf.attr_model e with
  | None => (Return, s, [EvError "ERROR: no mate model type for mate model"])
  | Some model =>
      match Sdf.attr_type e with
      | None => (Return, s, [EvError "ERROR: no mate type for mate model"])
      | Some mate_model_type =>
          match StdMap.find mate_model_type (mate_models_ s) with
          | Some _ => (Go, s, [])
          | None =>
              match model_kind model with
              | None =>
                  (Return, s,
                   [EvError ("ERROR: " +:+ dquote +:+ model +:+ dquote
                             +:+ " is not a valid model type")])
              | Some k =>
                  let mate_model :=
                    MateModel.mk (next_addr_ s) k EmptyString (Sdf.joint e)
                      (load_symmetries e) EmptyString in
                  let mate_model := MateModel_load mate_model_type e mate_model in
                  let mate_model :=
                    if (length (MateModel.symmetries mate_model) =? 0)%nat
                    then with_symmetries
                           (MateModel.symmetries mate_model ++ [KDL.FrameIdentity])
                           mate_model
                    else mate_model in
                  (Go,
                   with_next_addr_ (S (next_addr_ s))
                     (with_mate_models_
                        (StdMap.assign (MateModel.type mate_model)
                           (Some mate_model) (mate_models_ s)) s),
                   [])
              end
          end
      end
  end.

Fixpoint load_mate_models (es : list Sdf.MateModelElem) (s : AssemblySoup)
    : Flow * AssemblySoup * list Event :=
  match es with
  | [] => (Go, s, [])
  | e :: es' =>
      match load_mate_model e s with
      | (Go, s', ev) =>
          let '(f, s'', ev') := load_mate_models es' s' in (f, s'', ev ++ ev')
      | stop => stop
      end
  end.

(** One iteration of the loop over [mate_model->symmetries]: a new female
    mate point with the next free id. *)
Definition push_female (mate_model : MateModel.t) (base_pose : KDL.Frame)
    (st : AssemblySoup * AtomModel.t) (sym : KDL.Frame)
    : AssemblySoup * AtomModel.t :=
  let '(s, atom_model) := st in
  let mate_point :=
    MatePoint.mk (next_addr_ s) (Some mate_model)
      (KDL.FrameMul base_pose sym)
      (length (AtomModel.female_mate_points atom_model)
       + length (AtomModel.male_mate_points atom_model)) in
  (with_next_addr_ (S (next_addr_ s)) s,
   AtomModel.mk (AtomModel.type atom_model)
     (AtomModel.female_mate_points atom_model ++ [mate_point])
     (AtomModel.male_mate_points atom_model)).

Definition push_male (mate_model : MateModelPtr) (base_pose : KDL.Frame)
    (st : AssemblySoup * AtomModel.t) : AssemblySoup * AtomModel.t :=
  let '(s, atom_model) := st in
  let mate_point :=
    MatePoint.mk (next_addr_ s) mate_model base_pose
      (length (AtomModel.female_mate_points atom_model)
       + length (AtomModel.male_mate_points atom_model)) in
  (with_next_addr_ (S (next_addr_ s)) s,
   AtomModel.mk (AtomModel.type atom_model)
     (AtomModel.female_mate_points atom_model)
     (AtomModel.male_mate_points atom_model ++ [mate_point])).

(** The body of the [while] loop over the [mate_point] elements of an atom
    model.  [mate_models_[type]] inserts a null entry for an unknown type, and
    the female branch dereferences what it got. *)
Definition load_mate_point (e : Sdf.MatePointElem)
    (st : AssemblySoup * AtomModel.t)
    : Flow * (AssemblySoup * AtomModel.t) * list Event :=
  let '(s, atom_model) := st in
  let type := Sdf.mp_type e in
  let gender := Sdf.mp_gender e in
  let base_pose := Sdf.mp_pose e in
  let '(mate_model, models) := StdMap.index None type (mate_models_ s) in
  let s := with_mate_models_ models s in
  if iequals gender "female" then
    match mate_model with
    | None => (Crash, (s, atom_model), [])
    | Some mm =>
        (Go,
         foldl (push_female mm base_pose) (s, atom_model)
           (MateModel.symmetries mm),
         [])
    end
  else if iequals gender "male" then
    (Go, push_male mate_model base_pose (s, atom_model), [])
  else
    (Go, (s, atom_model), [EvError ("Unknown gender: " +:+ gender)]).

Fixpoint load_mate_points (es : list Sdf.MatePointElem)
    (st : AssemblySoup * AtomModel.t)
    : Flow * (AssemblySoup * AtomModel.t) * list Event :=
  match es with
  | [] => (Go, st, [])
  | e :: es' =>
      match load_mate_point e st with
      | (Go, st', ev) =>
          let '(f, st'', ev') := load_mate_points es' st' in
          (f, st'', ev ++ ev')
      | stop => stop
      end
  end.

(** The body of the [while] loop over the [atom_model] elements. *)
Definition load_atom_model (e : Sdf.AtomModelElem) (s : AssemblySoup)
    : Flow * AssemblySoup * list Event :=
  let atom_model := AtomModel.mk (Sdf.am_type e) [] [] in
  match load_mate_points (Sdf.mate_point e) (s, atom_model) with
  | (Go, (s', atom_model'), ev) =>
      (Go,
       with_atom_models_
         (StdMap.assign (AtomModel.type atom_model') atom_model'
            (atom_models_ s')) s',
       ev)
  | (stop, (s', _), ev) => (stop, s', ev)
  end.

Fixpoint load_atom_models (es : list Sdf.AtomModelElem) (s : AssemblySoup)
    : Flow * AssemblySoup * list Event :=
  match es with
  | [] => (Go, s, [])
  | e :: es' =>
      match load_atom_model e s with
      | (Go, s', ev) =>
          let '(f, s'', ev') := load_atom_models es' s' in (f, s'', ev ++ ev')
      | stop => stop
      end
  end.

(** "Determine the atom type from the link name": the first atom model, in
    key order, whose type is a prefix of the name. *)
Fixpoint atom_model_of (name : string) (models : StdMap.t AtomModel.t)
    : option AtomModel.t :=
  match models with
  | [] => None
  | (_, m) :: models' =>
      if String.prefix (AtomModel.type m) name then Some m
      else atom_model_of name models'
  end.

(** The body of the loop over the links of the gazebo model. *)
Definition load_link (s : AssemblySoup) (l : Link.t) : AssemblySoup :=
  match atom_model_of (Link.GetName l) (atom_models_ s) with
  | None => s
  | Some m =>
      with_next_addr_ (S (next_addr_ s))
        (with_atoms_ (atoms_ s ++ [Atom.mk (next_addr_ s) l m]) s)
  end.

(** The configuration elements read at the top of [Load]. *)
Definition load_config (sdf : Sdf.Plugin) (s : AssemblySoup) : AssemblySoup :=
  let s :=
    match Sdf.tf_world_frame sdf with
    | Some frame => with_tf_ frame s
    | None => s
    end in
  let s :=
    match Sdf.publish_active_mates sdf with
    | Some b => with_publish_active_mates_ b s
    | None => s
    end in
  match Sdf.updates_per_second sdf with
  | Some n => with_updates_per_second_ n s
  | None => s
  end.

(** [AssemblySoup::Load(_parent, _sdf)]; [links] is [_parent->GetLinks()].
    [Go] means that the function ran to its end. *)
Definition Load (links : list Link.t) (sdf : Sdf.Plugin) (s : AssemblySoup)
    : Flow * AssemblySoup * list Event :=
  let s := load_config sdf s in
  match load_mate_models (Sdf.mate_model sdf) s with
  | (Go, s, ev) =>
      match load_atom_models (Sdf.atom_model sdf) s with
      | (Go, s, ev') =>
          let s := foldl load_link s links in
          (Go, with_updateConnection_ true s, ev ++ ev')
      | (stop, s, ev') => (stop, s, ev ++ ev')
      end
  | stop => stop
  end.

(* ------------------------------------------------------------------------- *)
(** ** The mate models' interface (models.h) *)

(** The virtual methods of [MateModel] that the plugin calls on a mate;
    their implementations are supplied by the mate models.  [World] is what
    they can observe of the physics engine when they are called. *)
Class MateModelOps (World : Type) := {
  getStateUpdate : World → Mate.t → State;
  updateState : World → Mate.t → Mate.t;
  update : World → Mate.t → Mate.t;
}.

(* ------------------------------------------------------------------------- *)
(** ** [Mate::Mate] *)

#[global] Instance SdfJoint_eq_dec : EqDecision Sdf.Joint.
Proof. solve_decision. Defined.
#[global] Instance ModelKind_eq_dec : EqDecision ModelKind.
Proof. solve_decision. Defined.
#[global] Instance MateModel_eq_dec : EqDecision MateModel.t.
Proof. solve_decision. Defined.
#[global] Instance MatePoint_eq_dec : EqDecision MatePoint.t.
Proof. solve_decision. Defined.
#[global] Instance AtomModel_eq_dec : EqDecision AtomModel.t.
Proof. solve_decision. Defined.
#[global] Instance Link_eq_dec : EqDecision Link.t.
Proof. solve_decision. Defined.
#[global] Instance Atom_eq_dec : EqDecision Atom.t.
Proof. solve_decision. Defined.

(** ["%s_m%0d_to_%s_m%0d"]. *)
Definition joint_name (fa ma : Atom.t) (fmp mmp : MatePoint.t) : string :=
  Link.GetName (Atom.link fa) +:+ "_m" +:+ pretty (MatePoint.id fmp)
  +:+ "_to_"
  +:+ Link.GetName (Atom.link ma) +:+ "_m" +:+ pretty (MatePoint.id mmp).

(** [joint->Detach()]; the handle keeps the links it was loaded with. *)
Definition Joint_Detach (j : Joint.t) : Joint.t :=
  Joint.mk (Joint.name j) (Joint.type j) (Joint.parent j) (Joint.child j)
    (Joint.pose j) false.

(** Modelled from the spec: the declaration of [Mate] (models.h) is not among
    the sources and the constructor does not mention the two state members; a
    new mate is Detached and has no pending state. *)
Definition Mate_initial_state : State := UNMATED.
Definition Mate_initial_pending_state : State := NONE.

(** The constructor, for the object at address [a].  [None]: the [assert]
    fails or the null model pointer is dereferenced.  The joint is created,
    loaded from the customised template, initialised (which attaches parent
    and child) and detached. *)
Definition Mate_ctor (a : nat) (female_mate_point male_mate_point : MatePoint.t)
    (female_atom male_atom : Atom.t) : option (Mate.t * list Event) :=
  if negb (ptr_eq (MatePoint.model female_mate_point)
                  (MatePoint.model male_mate_point))
  then None
  else
    model ← MatePoint.model female_mate_point;
    let joint_type := Sdf.joint_type (MateModel.joint_template model) in
    let name :=
      joint_name female_atom male_atom female_mate_point male_mate_point in
    let joint :=
      Joint.mk name joint_type
        (Some (Link.GetName (Atom.link female_atom)))
        (Some (Link.GetName (Atom.link male_atom)))
        (MatePoint.pose male_mate_point) true in
    let joint := Joint_Detach joint in
    Some (Mate.mk (Some model) female_atom male_atom
            female_mate_point male_mate_point joint
            Mate_initial_state Mate_initial_pending_state,
          [EvCreateJoint a name; EvJointDetach a]).

(* ------------------------------------------------------------------------- *)
(** ** [AssemblySoup::getStateUpdates]: one discovery cycle *)

(** [boost::make_shared<Mate>(...)]: the new object goes to the end of the
    store. *)
Definition new_mate (s : AssemblySoup) (fa : Atom.t) (fmp : MatePoint.t)
    (ma : Atom.t) (mmp : MatePoint.t)
    : option (AssemblySoup * nat * list Event) :=
  let a := length (heap_ s) in
  '(mate, ev) ← Mate_ctor a fmp mmp fa ma;
  Some (with_heap_ (heap_ s ++ [mate]) s, a,
        EvNewMate a (MatePoint.addr fmp) (MatePoint.addr mmp) :: ev).

(** "Get the mate between these two mate points": the three branches on
    [mate_table_.find(female_mate_point)]. *)
Definition find_mate (s : AssemblySoup) (fa : Atom.t) (fmp : MatePoint.t)
    (ma : Atom.t) (mmp : MatePoint.t)
    : option (AssemblySoup * nat * list Event) :=
  match mate_table_ s !! MatePoint.addr fmp with
  | None =>
      '(s', a, ev) ← new_mate s fa fmp ma mmp;
      Some (with_mate_table_
              (<[MatePoint.addr fmp := {[MatePoint.addr mmp := a]}]>
                 (mate_table_ s')) s',
            a, ev)
  | Some mtf =>
      match mtf !! MatePoint.addr mmp with
      | None =>
          '(s', a, ev) ← new_mate s fa fmp ma mmp;
          Some (with_mate_table_
                  (<[MatePoint.addr fmp := <[MatePoint.addr mmp := a]> mtf]>
                     (mate_table_ s')) s',
                a, ev)
      | Some a => Some (s, a, [])
      end
  end.

(** The part of the innermost loop body that runs before the lock is taken:
    the table lookup and the test of [pending_state].  The result is the mate
    to evaluate, or [None] after [continue]. *)
Definition visit_find (s : AssemblySoup) (fa : Atom.t) (fmp : MatePoint.t)
    (ma : Atom.t) (mmp : MatePoint.t)
    : option (AssemblySoup * option nat * list Event) :=
  '(s', a, ev) ← find_mate s fa fmp ma mmp;
  mate ← heap_ s' !! a;
  if decide (Mate.pending_state mate ≠ NONE)
  then Some (s', None, ev)
  else Some (s', Some a, ev).

(** [boost::mutex::scoped_lock update_lock(update_mutex_)]: goes on only when
    the mutex is free. *)
Definition visit_lock (s : AssemblySoup) : option (AssemblySoup * list Event) :=
  if update_mutex_ s then None
  else Some (with_update_mutex_ true s, [EvLock]).

(** The rest of the loop body, under the lock: [getStateUpdate], staging, the
    entry of the mate list, the TF frame of the joint; the lock is released
    at the end of the iteration. *)
Definition visit_locked `{MateModelOps World} (w : World) (s : AssemblySoup)
    (mates_msg : MateList) (a : nat)
    : option (AssemblySoup * MateList * list Event) :=
  mate ← heap_ s !! a;
  let r := getStateUpdate w mate in
  let mate := Mate.set_pending_state r mate in
  let s := with_heap_ (<[a := mate]> (heap_ s)) s in
  '(s, mates_msg, ev1) ←
    (if decide (r ≠ NONE) then
       let s := with_mates_to_update_ ({[a]} ∪ mates_to_update_ s) s in
       if publish_active_mates_ s && bool_decide (r = MATED) then
         parent ← Joint.parent (Mate.joint mate);
         child ← Joint.child (Mate.joint mate);
         Some (s, mates_msg ++ [(parent, child)], [EvStage a])
       else Some (s, mates_msg, [EvStage a])
     else Some (s, mates_msg, []));
  let ev2 :=
    if broadcast_tf_ s
       && bool_decide (is_Some (Joint.parent (Mate.joint mate)))
       && bool_decide (is_Some (Joint.child (Mate.joint mate)))
    then [EvSendTransform (tf_world_frame_ s) (Joint.name (Mate.joint mate))]
    else [] in
  Some (with_update_mutex_ false s, mates_msg,
        EvGetStateUpdate a r :: ev1 ++ ev2 ++ [EvUnlock]).

(** The state threaded through the loops of a cycle: the plugin, the local
    [mates_msg], and the events so far. *)
Definition Scan : Type := AssemblySoup * MateList * list Event.

(** The whole innermost loop body for a compatible pair. *)
Definition visit `{MateModelOps World} (w : World) (fa : Atom.t)
    (fmp : MatePoint.t) (ma : Atom.t) (mmp : MatePoint.t) (st : Scan)
    : option Scan :=
  let '(s, mates_msg, tr) := st in
  '(s, found, ev) ← visit_find s fa fmp ma mmp;
  match found with
  | None => Some (s, mates_msg, tr ++ ev)
  | Some a =>
      '(s, ev1) ← visit_lock s;
      '(s, mates_msg, ev2) ← visit_locked w s mates_msg a;
      Some (s, mates_msg, tr ++ ev ++ ev1 ++ ev2)
  end.

(** A [for] loop over a vector whose body may fail. *)
Fixpoint for_each {A St : Type} (l : list A) (body : A → St → option St)
    (st : St) : option St :=
  match l with
  | [] => Some st
  | x :: l' => st' ← body x st; for_each l' body st'
  end.

(** "Iterate over all male mate points of male link". *)
Definition scan_male_points `{MateModelOps World} (w : World) (fa : Atom.t)
    (fmp : MatePoint.t) (ma : Atom.t) (st : Scan) : option Scan :=
  for_each (AtomModel.male_mate_points (Atom.model ma))
    (λ mmp st,
       if negb (ptr_eq (MatePoint.model fmp) (MatePoint.model mmp))
       then Some st
       else visit w fa fmp ma mmp st)
    st.

(** "Iterate over all other atoms". *)
Definition scan_male_atoms `{MateModelOps World} (w : World)
    (atoms : list Atom.t) (fa : Atom.t) (fmp : MatePoint.t) (st : Scan)
    : option Scan :=
  for_each atoms
    (λ ma st,
       if bool_decide (Atom.addr ma = Atom.addr fa) then Some st
       else scan_male_points w fa fmp ma st)
    st.

(** "Iterate over all female mate points of female link". *)
Definition scan_female_points `{MateModelOps World} (w : World)
    (atoms : list Atom.t) (fa : Atom.t) (st : Scan) : option Scan :=
  for_each (AtomModel.female_mate_points (Atom.model fa))
    (λ fmp st, scan_male_atoms w atoms fa fmp st)
    st.

(** "Broadcast TF frames for this link": the frame of the link, the frames
    and markers of its mate points. *)
Definition link_introspection (s : AssemblySoup) (iter : nat) (fa : Atom.t)
    : list Event :=
  let atom_name := Link.GetName (Atom.link fa) in
  let link_name := atom_name +:+ "/" +:+ AtomModel.type (Atom.model fa) in
  let males := AtomModel.male_mate_points (Atom.model fa) in
  let females := AtomModel.female_mate_points (Atom.model fa) in
  [EvSendTransform (tf_world_frame_ s) link_name]
  ++ ((λ p, EvSendTransform link_name
              (atom_name +:+ "/male_" +:+ pretty (MatePoint.id p))) <$> males)
  ++ ((λ p, EvSendTransform link_name
              (atom_name +:+ "/female_" +:+ pretty (MatePoint.id p))) <$> females)
  ++ [EvPublishMarkers true ((λ p, iter * 100 + MatePoint.id p) <$> males);
      EvPublishMarkers false ((λ p, iter * 100 + MatePoint.id p) <$> females)].

(** The body of the outermost loop, "Iterate over all atoms". *)
Definition scan_atom `{MateModelOps World} (w : World) (atoms : list Atom.t)
    (ifa : nat * Atom.t) (st : Scan) : option Scan :=
  let '(iter, fa) := ifa in
  '(s, mates_msg, tr) ← scan_female_points w atoms fa st;
  Some (s, mates_msg,
        tr ++ if broadcast_tf_ s then link_introspection s iter fa else []).

(** [getStateUpdates()].  [None]: the cycle does not run to its end (a null
    dereference, a failed [assert], or a wait for a mutex that stays held). *)
Definition getStateUpdates `{MateModelOps World} (w : World) (s : AssemblySoup)
    : option (AssemblySoup * list Event) :=
  '(s', mates_msg, tr) ←
    for_each (imap pair (atoms_ s)) (scan_atom w (atoms_ s)) (s, [], []);
  Some (s',
        tr ++ if publish_active_mates_ s'
              then [EvPublishActiveMates mates_msg] else []).

(* ------------------------------------------------------------------------- *)
(** ** [AssemblySoup::OnUpdate]: the simulation tick *)

(** Calling a mutating method on the mate at address [a]. *)
Definition call_on (f : Mate.t → Mate.t) (heap : list Mate.t) (a : nat)
    : list Mate.t :=
  alter f a heap.

(** [OnUpdate(info)].  The try-lock succeeds exactly when the mutex is free,
    and the lock it took is released when the function returns. *)
Definition OnUpdate `{MateModelOps World} (w : World) (s : AssemblySoup)
    : AssemblySoup * list Event :=
  let '(s, ev0) :=
    if running_ s then (s, [])
    else (with_running_ true s, [EvStartThread]) in
  let update_lock := negb (update_mutex_ s) in
  let '(s, ev1) :=
    if update_lock then
      let staged := elements (mates_to_update_ s) in
      (with_mates_to_update_ ∅
         (with_heap_ (foldl (call_on (updateState w)) (heap_ s) staged) s),
       EvUpdateState <$> staged)
    else (s, []) in
  let active := elements (mates_ s) in
  (with_heap_ (foldl (call_on (update w)) (heap_ s) active) s,
   ev0 ++ [EvTryLock update_lock] ++ ev1 ++ (EvUpdate <$> active)
   ++ if update_lock then [EvUnlock] else []).

(* ------------------------------------------------------------------------- *)
(** ** The two threads together *)

(** Where the discovery thread is: outside a cycle, between two loop
    iterations of a cycle, in front of the lock with a mate to evaluate, or
    inside the locked part of an iteration. *)
Inductive Pc :=
| Idle
| Scanning (mates_msg : MateList)
| Waiting (mates_msg : MateList) (a : nat)
| Locked (mates_msg : MateList) (a : nat).

Record Sys := mkSys {
  soup : AssemblySoup;
  pc : Pc;
  trace : list Event;
}.

(** The steps of the system.  The simulation thread runs [OnUpdate] as one
    step: it takes the lock without waiting and touches no data that the
    unlocked part of the discovery loop writes.  The discovery thread runs a
    cycle as [LBegin], then visits of pairs ([LFind], and [LLock], [LBody] if
    the pair is not skipped) and link broadcasts, then [LEnd].  The pairs may
    come in any order; [getStateUpdates] is the schedule of the nested loops. *)
Inductive Label (World : Type) :=
| LTick (w : World)
| LBegin
| LFind (fa : Atom.t) (fmp : MatePoint.t) (ma : Atom.t) (mmp : MatePoint.t)
| LLock
| LBody (w : World)
| LIntrospect (iter : nat)
| LEnd.

Arguments LTick {World} w.
Arguments LBegin {World}.
Arguments LFind {World} fa fmp ma mmp.
Arguments LLock {World}.
Arguments LBody {World} w.
Arguments LIntrospect {World} iter.
Arguments LEnd {World}.

(** The pairs that reach the table lookup: two different atoms of the soup, a
    female point of the first, a male point of the second, the same model. *)
Definition candidate (s : AssemblySoup) (fa : Atom.t) (fmp : MatePoint.t)
    (ma : Atom.t) (mmp : MatePoint.t) : bool :=
  bool_decide (fa ∈ atoms_ s) && bool_decide (ma ∈ atoms_ s)
  && negb (bool_decide (Atom.addr ma = Atom.addr fa))
  && bool_decide (fmp ∈ AtomModel.female_mate_points (Atom.model fa))
  && bool_decide (mmp ∈ AtomModel.male_mate_points (Atom.model ma))
  && ptr_eq (MatePoint.model fmp) (MatePoint.model mmp).

Definition step `{MateModelOps World} (l : Label World) (σ : Sys)
    : option Sys :=
  match l, pc σ with
  | LTick w, _ =>
      let '(s, ev) := OnUpdate w (soup σ) in
      Some (mkSys s (pc σ) (trace σ ++ ev))
  | LBegin, Idle =>
      if running_ (soup σ) then Some (mkSys (soup σ) (Scanning []) (trace σ))
      else None
  | LFind fa fmp ma mmp, Scanning mates_msg =>
      if candidate (soup σ) fa fmp ma mmp then
        '(s, found, ev) ← visit_find (soup σ) fa fmp ma mmp;
        Some (mkSys s
                match found with
                | None => Scanning mates_msg
                | Some a => Waiting mates_msg a
                end
                (trace σ ++ ev))
      else None
  | LLock, Waiting mates_msg a =>
      '(s, ev) ← visit_lock (soup σ);
      Some (mkSys s (Locked mates_msg a) (trace σ ++ ev))
  | LBody w, Locked mates_msg a =>
      '(s, mates_msg', ev) ← visit_locked w (soup σ) mates_msg a;
      Some (mkSys s (Scanning mates_msg') (trace σ ++ ev))
  | LIntrospect iter, Scanning mates_msg =>
      fa ← atoms_ (soup σ) !! iter;
      if broadcast_tf_ (soup σ) then
        Some (mkSys (soup σ) (Scanning mates_msg)
                (trace σ ++ link_introspection (soup σ) iter fa))
      else None
  | LEnd, Scanning mates_msg =>
      Some (mkSys (soup σ) Idle
              (trace σ ++ if publish_active_mates_ (soup σ)
                          then [EvPublishActiveMates mates_msg] else []))
  | _, _ => None
  end.

(** A run: the steps of a schedule, one after the other. *)
Definition exec `{MateModelOps World} (ls : list (Label World)) (σ : Sys)
    : option Sys :=
  for_each ls step σ.

(** The plugin before the first tick: no mate exists, nothing is staged, the
    mutex is free and the discovery thread has not been started. *)
Definition fresh (s : AssemblySoup) : Prop :=
  heap_ s = [] ∧ mate_table_ s = ∅ ∧ mates_to_update_ s = ∅ ∧ mates_ s = ∅
  ∧ update_mutex_ s = false ∧ running_ s = false.

Definition boot (s : AssemblySoup) : Sys := mkSys s Idle [].

(** The states the system can be in after some schedule. *)
Definition reachable `{MateModelOps World} (s0 : AssemblySoup) (σ : Sys)
    : Prop :=
  fresh s0 ∧ ∃ ls : list (Label World), exec ls (boot s0) = Some σ.

(* ------------------------------------------------------------------------- *)
(** ** Observations on traces and tables, used to state the properties *)

(** [mate_table_.find(f)] followed by [->second.find(m)]. *)
Definition table_lookup (s : AssemblySoup) (f m : nat) : option nat :=
  mate_table_ s !! f ≫= λ mtf, mtf !! m.

(** The addresses of the mates constructed for the pair [(f, m)]. *)
Definition new_mates (f m : nat) (tr : list Event) : list nat :=
  omap (λ e, match e with
             | EvNewMate a f' m' =>
                 if decide (f' = f ∧ m' = m) then Some a else None
             | _ => None
             end) tr.

(** The events of the construction of the mate at address [a]. *)
Definition ctor_event (a : nat) (e : Event) : bool :=
  match e with
  | EvNewMate a' _ _ | EvCreateJoint a' _ | EvJointDetach a' =>
      bool_decide (a' = a)
  | _ => false
  end.

Definition ctor_events (a : nat) (tr : list Event) : list Event :=
  List.filter (ctor_event a) tr.

(** The mates that have a staged transition which [updateState] has not
    applied yet, after an event. *)
Definition track (staged : gset nat) (e : Event) : gset nat :=
  match e with
  | EvStage a => {[a]} ∪ staged
  | EvUpdateState a => staged ∖ {[a]}
  | _ => staged
  end.

Definition staged_after (staged : gset nat) (tr : list Event) : gset nat :=
  foldl track staged tr.

(** No mate is evaluated or staged while it has a staged transition that has
    not been applied. *)
Fixpoint well_guarded (staged : gset nat) (tr : list Event) : Prop :=
  match tr with
  | [] => True
  | e :: tr' =>
      match e with
      | EvGetStateUpdate a _ | EvStage a => a ∉ staged
      | _ => True
      end
      ∧ well_guarded (track staged e) tr'
  end.

(** Events that neither construct, evaluate nor stage a mate, nor apply a
    staged transition. *)
Definition quiet (e : Event) : Prop :=
  match e with
  | EvNewMate _ _ _ | EvCreateJoint _ _ | EvJointDetach _
  | EvGetStateUpdate _ _ | EvStage _ | EvUpdateState _ => False
  | _ => True
  end.

(** Events of a discovery cycle that happen outside the lock, and events that
    may follow [getStateUpdate] inside it. *)
Definition unlocked_event (e : Event) : Prop :=
  match e with
  | EvNewMate _ _ _ | EvCreateJoint _ _ | EvJointDetach _
  | EvSendTransform _ _ | EvPublishMarkers _ _ | EvPublishActiveMates _ => True
  | _ => False
  end.

Definition locked_event (e : Event) : Prop :=
  match e with
  | EvStage _ | EvSendTransform _ _ => True
  | _ => False
  end.

(** The shape of the events of a discovery cycle: unlocked events, and locked
    sections that each start with one call of [getStateUpdate]. *)
Inductive cycle_trace : list Event → Prop :=
| cycle_nil : cycle_trace []
| cycle_unlocked e tr :
    unlocked_event e → cycle_trace tr → cycle_trace (e :: tr)
| cycle_locked a r mid tr :
    Forall locked_event mid → cycle_trace tr →
    cycle_trace (EvLock :: EvGetStateUpdate a r :: mid ++ EvUnlock :: tr).

Definition count_events (p : Event → bool) (tr : list Event) : nat :=
  length (List.filter p tr).

Definition is_lock (e : Event) : bool :=
  match e with EvLock => true | _ => false end.
Definition is_eval (e : Event) : bool :=
  match e with EvGetStateUpdate _ _ => true | _ => false end.
Definition is_stage (e : Event) : bool :=
  match e with EvStage _ => true | _ => false end.
Definition is_update (e : Event) : bool :=
  match e with EvUpdate _ => true | _ => false end.

(** Is the mutex held after the events [tr]? *)
Definition held_after (held : bool) (tr : list Event) : bool :=
  foldl (λ h e, match e with
                | EvLock | EvTryLock true => true
                | EvUnlock => false
                | _ => h
                end) held tr.

(** The specification's reading of the cycle: the geometric computation runs
    without the lock, and the lock is taken only to stage a transition. *)
Definition computes_unlocked (tr : list Event) : Prop :=
  (∀ t1 a r t2, tr = t1 ++ EvGetStateUpdate a r :: t2 →
                held_after false t1 = false)
  ∧ count_events is_lock tr = count_events is_stage tr.

Definition locks_only_to_stage `{MateModelOps World} (w : World)
    (s : AssemblySoup) : Prop :=
  ∀ s' tr, getStateUpdates w s = Some (s', tr) → computes_unlocked tr.

(** The mates to which a tick applied their staged transition, in order. *)
Definition applied (tr : list Event) : list nat :=
  omap (λ e, match e with EvUpdateState a => Some a | _ => None end) tr.



(** [(joint->GetParent()->GetName(), joint->GetChild()->GetName())]. *)
Definition link_names (m : Mate.t) : option (string * string) :=
  parent ← Joint.parent (Mate.joint m);
  child ← Joint.child (Mate.joint m);
  Some (parent, child).




(** A [mate_model] element on which the specification has [Load] give up. *)
Definition malformed (e : Sdf.MateModelElem) : Prop :=
  Sdf.attr_model e = None ∨ Sdf.attr_type e = None
  ∨ ∃ model, Sdf.attr_model e = Some model ∧ model_kind model = None.

(** The specification's reading of the failure: [Load] returns early on every
    scene with such an element, before it registers atoms or connects to the
    update event. *)
Definition fails_fast (links : list Link.t) (sdf : Sdf.Plugin)
    (s : AssemblySoup) : Prop :=
  (∃ e, e ∈ Sdf.mate_model sdf ∧ malformed e) →
  (Load links sdf s).1.1 = Return
  ∧ updateConnection_ (Load links sdf s).1.2 = updateConnection_ s
  ∧ atoms_ (Load links sdf s).1.2 = atoms_ s.

(** The steps, case by case. *)
Inductive step_spec `{MateModelOps World} (σ : Sys)
    : Label World → Sys → Prop :=
| step_tick w :
    step_spec σ (LTick w)
      (mkSys (OnUpdate w (soup σ)).1 (pc σ)
         (trace σ ++ (OnUpdate w (soup σ)).2))
| step_begin :
    pc σ = Idle → running_ (soup σ) = true →
    step_spec σ LBegin (mkSys (soup σ) (Scanning []) (trace σ))
| step_find msg fa fmp ma mmp s' found ev :
    pc σ = Scanning msg →
    candidate (soup σ) fa fmp ma mmp = true →
    visit_find (soup σ) fa fmp ma mmp = Some (s', found, ev) →
    step_spec σ (LFind fa fmp ma mmp)
      (mkSys s'
         match found with
         | None => Scanning msg
         | Some a => Waiting msg a
         end
         (trace σ ++ ev))
| step_lock msg a :
    pc σ = Waiting msg a → update_mutex_ (soup σ) = false →
    step_spec σ LLock
      (mkSys (with_update_mutex_ true (soup σ)) (Locked msg a)
         (trace σ ++ [EvLock]))
| step_body w msg a s' msg' ev :
    pc σ = Locked msg a →
    visit_locked w (soup σ) msg a = Some (s', msg', ev) →
    step_spec σ (LBody w) (mkSys s' (Scanning msg') (trace σ ++ ev))
| step_introspect iter msg fa :
    pc σ = Scanning msg → atoms_ (soup σ) !! iter = Some fa →
    broadcast_tf_ (soup σ) = true →
    step_spec σ (LIntrospect iter)
      (mkSys (soup σ) (Scanning msg)
         (trace σ ++ link_introspection (soup σ) iter fa))
| step_end msg :
    pc σ = Scanning msg →
    step_spec σ LEnd
      (mkSys (soup σ) Idle
         (trace σ ++ if publish_active_mates_ (soup σ)
                     then [EvPublishActiveMates msg] else [])).

(** [Load] does not touch the members that the two threads work on. *)
Definition same_runtime (s s' : AssemblySoup) : Prop :=
  heap_ s' = heap_ s ∧ mate_table_ s' = mate_table_ s
  ∧ mates_to_update_ s' = mates_to_update_ s ∧ mates_ s' = mates_ s
  ∧ update_mutex_ s' = update_mutex_ s ∧ running_ s' = running_ s.

(** The conditions under which a discovery cycle does not get stuck: the
    mutex is free, the entries of the table are objects of the store, and,
    if the mate list is published, the joints have their links. *)
Definition ready (s : AssemblySoup) : Prop :=
  update_mutex_ s = false
  ∧ (∀ f m a, table_lookup s f m = Some a → (a < length (heap_ s))%nat)
  ∧ (publish_active_mates_ s = true →
     ∀ a mate, heap_ s !! a = Some mate → is_Some (link_names mate)).

(** Every female mate point of the atoms has a mate model, as [Load] makes
    them. *)
Definition female_models (atoms : list Atom.t) : Prop :=
  ∀ fa fmp, fa ∈ atoms →
            fmp ∈ AtomModel.female_mate_points (Atom.model fa) →
            is_Some (MatePoint.model fmp).

(** The atom models of the plugin and its atoms have female mate points with
    a mate model. *)
Definition female_models_loaded (s : AssemblySoup) : Prop :=
  (∀ k am fmp, (k, am) ∈ atom_models_ s →
               fmp ∈ AtomModel.female_mate_points am →
               is_Some (MatePoint.model fmp))
  ∧ female_models (atoms_ s).

(** Every mate of the store has a joint with both links. *)
Definition linked (σ : Sys) : Prop :=
  ∀ a mate, heap_ (soup σ) !! a = Some mate → is_Some (link_names mate).

(** The invariant of the hand-off between the threads: no mate is in the set
    of active mates; the staged set holds exactly the mates staged and not
    yet applied, and each of them has a pending state; a mate that the
    discovery thread is about to evaluate has none; the mutex is held exactly
    in the locked part of a visit; and no mate was evaluated or staged while
    it was staged. *)
Definition consistent (σ : Sys) : Prop :=
  mates_ (soup σ) = ∅
  ∧ staged_after ∅ (trace σ) = mates_to_update_ (soup σ)
  ∧ (∀ a, a ∈ mates_to_update_ (soup σ) →
          ∃ mate, heap_ (soup σ) !! a = Some mate
                  ∧ Mate.pending_state mate ≠ NONE)
  ∧ match pc σ with
    | Waiting _ a | Locked _ a =>
        ∃ mate, heap_ (soup σ) !! a = Some mate
                ∧ Mate.pending_state mate = NONE
    | _ => True
    end
  ∧ (update_mutex_ (soup σ) = true ↔ ∃ msg a, pc σ = Locked msg a)
  ∧ well_guarded ∅ (trace σ).

(** The invariant of the mate table: the mates constructed for a pair are
    the entry of the pair, every entry is an object of the store, and every
    object of the store was constructed once, for a pair that has it as its
    entry, with one joint that was created and detached then. *)
Definition registered (σ : Sys) : Prop :=
  (∀ f m, new_mates f m (trace σ)
          = option_list (table_lookup (soup σ) f m))
  ∧ (∀ f m a, table_lookup (soup σ) f m = Some a →
              (a < length (heap_ (soup σ)))%nat)
  ∧ (∀ a, (a < length (heap_ (soup σ)))%nat →
          ∃ f m name,
            table_lookup (soup σ) f m = Some a
            ∧ ctor_events a (trace σ)
              = [EvNewMate a f m; EvCreateJoint a name; EvJointDetach a])
  ∧ (∀ a, (length (heap_ (soup σ)) ≤ a)%nat → ctor_events a (trace σ) = []).

(* ------------------------------------------------------------------------- *)
(** ** A small scene *)

Module Scenario.

(** Whether the two parts of the scene are within the mating thresholds. *)
Inductive Placement := Near | Far.

Definition set_state (st pending : State) (attached : bool) (m : Mate.t)
    : Mate.t :=
  let j := Mate.joint m in
  Mate.mk (Mate.model m) (Mate.female m) (Mate.male m)
    (Mate.female_mate_point m) (Mate.male_mate_point m)
    (Joint.mk (Joint.name j) (Joint.type j) (Joint.parent j) (Joint.child j)
       (Joint.pose j) attached)
    st pending.

(** Modelled from the spec: the mate models (models.cpp) are not among the
    sources.  A proximity model requests Mated for a detached pair within
    the thresholds, Detached for a mated pair outside them and nothing
    otherwise; applying a transition attaches or detaches the joint, makes
    the pending state the current one and clears it; the per-tick update
    does nothing. *)
Definition proximity : MateModelOps Placement :=
  {| getStateUpdate w m :=
       match w, Mate.state m with
       | Near, UNMATED => MATED
       | Far, MATED => UNMATED
       | _, _ => NONE
       end;
     updateState _ m :=
       match Mate.pending_state m with
       | NONE => m
       | MATED => set_state MATED NONE true m
       | UNMATED => set_state UNMATED NONE false m
       end;
     update _ m := m |}.

Definition hinge : Sdf.Joint := Sdf.mkJoint "revolute" "<axis/>".

Definition peg : Sdf.MateModelElem :=
  Sdf.mkMateModelElem (Some "proximity") (Some "peg") hinge None
    "<max_trans_err>0.01</max_trans_err>".

(** A model with a four-fold symmetry about z. *)
Definition quad : Sdf.MateModelElem :=
  Sdf.mkMateModelElem (Some "dipole") (Some "quad") hinge
    (Some (Sdf.mkSymmetry (Some (Sdf.mkVector3 1 1 4)))) "<moment/>".

(** An element with an unknown model that repeats the type of [peg]. *)
Definition magnet : Sdf.MateModelElem :=
  Sdf.mkMateModelElem (Some "magnet") (Some "peg") hinge None EmptyString.

Definition socket : Sdf.AtomModelElem :=
  Sdf.mkAtomModelElem "socket"
    [Sdf.mkMatePointElem "peg" "female" (KDL.FrameGiven 0)].

Definition plug : Sdf.AtomModelElem :=
  Sdf.mkAtomModelElem "plug"
    [Sdf.mkMatePointElem "peg" "male" (KDL.FrameGiven 1)].

Definition links : list Link.t := [Link.mk "socket_1"; Link.mk "plug_1"].

Definition scene : Sdf.Plugin :=
  Sdf.mkPlugin None (Some true) None [peg] [socket; plug].

Definition scene_with_magnet : Sdf.Plugin :=
  Sdf.mkPlugin None (Some true) None [peg; magnet] [socket; plug].

(** The plugin after [Load], and after the first tick. *)
Definition loaded : AssemblySoup := (Load links scene AssemblySoup_ctor).1.2.

Definition started : AssemblySoup := (@OnUpdate _ proximity Far loaded).1.

(** A discovery cycle on [s] that must run to its end. *)
Definition cycle (w : Placement) (s : AssemblySoup)
    : AssemblySoup * list Event :=
  default (s, []) (@getStateUpdates _ proximity w s).

(** The parts are brought together: a cycle, a tick, another cycle. *)
Definition staged : AssemblySoup := (cycle Near started).1.
Definition mated : AssemblySoup := (@OnUpdate _ proximity Near staged).1.
Definition rescanned : AssemblySoup := (cycle Near mated).1.

Definition socket_1 : Atom.t := default (Atom.mk 0 (Link.mk EmptyString)
  (AtomModel.mk EmptyString [] [])) (atoms_ loaded !! 0).
Definition plug_1 : Atom.t := default socket_1 (atoms_ loaded !! 1).
Definition socket_point : MatePoint.t :=
  default (MatePoint.mk 0 None KDL.FrameIdentity 0)
    (AtomModel.female_mate_points (Atom.model socket_1) !! 0).
Definition plug_point : MatePoint.t :=
  default socket_point
    (AtomModel.male_mate_points (Atom.model plug_1) !! 0).

(** The same as a schedule of the two threads: the first tick, a cycle
    that finds and stages the pair, the tick that applies the transition;
    and the schedule that stops inside the locked part of the visit. *)
Definition visit_pair (w : Placement) : list (Label Placement) :=
  [LFind socket_1 socket_point plug_1 plug_point; LLock; LBody w].

Definition run_to_mated : list (Label Placement) :=
  [LTick Far; LBegin] ++ visit_pair Near ++ [LEnd; LTick Near].

Definition run_to_locked : list (Label Placement) :=
  [LTick Far; LBegin;
   LFind socket_1 socket_point plug_1 plug_point; LLock].

Definition after (ls : list (Label Placement)) : Sys :=
  default (boot loaded) (@exec _ proximity ls (boot loaded)).

End Scenario.

(* ------------------------------------------------------------------------- *)
(** ** Observations on what [Load] leaves behind *)

(** The configuration members, which [Load] sets before anything else. *)
Definition same_config (s s' : AssemblySoup) : Prop :=
  tf_world_frame_ s' = tf_world_frame_ s
  ∧ broadcast_tf_ s' = broadcast_tf_ s
  ∧ publish_active_mates_ s' = publish_active_mates_ s
  ∧ updates_per_second_ s' = updates_per_second_ s.

(** The ids of the mate points of an atom model. *)
Definition mate_point_ids (am : AtomModel.t) : list nat :=
  MatePoint.id <$> (AtomModel.female_mate_points am
                    ++ AtomModel.male_mate_points am).

(** The ids count the mate points of the atom model from 0. *)
Definition well_numbered (am : AtomModel.t) : Prop :=
  mate_point_ids am
  ≡ₚ seq 0 (length (AtomModel.female_mate_points am)
            + length (AtomModel.male_mate_points am)).

(** The keys of a [std::map] come in strictly ascending order. *)
Fixpoint key_sorted {V} (m : StdMap.t V) : Prop :=
  match m with
  | [] => True
  | (k, _) :: m' =>
      Forall (λ kv, String.compare k kv.1 = Lt) m' ∧ key_sorted m'
  end.

(** The atom models are stored under their own type. *)
Definition keyed_by_type (models : StdMap.t AtomModel.t) : Prop :=
  Forall (λ kv, AtomModel.type kv.2 = kv.1) models.

(** A mate model is registered for the type: the entry is there and is not
    null. *)
Abbreviation modelled s ty :=
  (∃ mm, StdMap.find ty (mate_models_ s) = Some (Some mm)).


(** The types that the [mate_model] elements of a scene declare. *)
Definition declared_types (sdf : Sdf.Plugin) : list string :=
  omap Sdf.attr_type (Sdf.mate_model sdf).



(** What a link contributes to [atoms_]: itself with the atom model found
    for its name, or nothing. *)
Definition atom_of_link (models : StdMap.t AtomModel.t) (l : Link.t)
    : option (Link.t * AtomModel.t) :=
  pair l <$> atom_model_of (Link.GetName l) models.

Definition atom_view (a : Atom.t) : Link.t * AtomModel.t :=
  (Atom.link a, Atom.model a).

(* ------------------------------------------------------------------------- *)
(** ** More scenes *)

Module Bench.

(** The type of [Scenario.peg] declared again, as a dipole model with a
    four-fold symmetry. *)
Definition peg_again : Sdf.MateModelElem :=
  Sdf.mkMateModelElem (Some "dipole") (Some "peg") Scenario.hinge
    (Some (Sdf.mkSymmetry (Some (Sdf.mkVector3 1 1 4)))) "<moment/>".

Definition redeclared : Sdf.Plugin :=
  Sdf.mkPlugin (Some "map") None (Some 25%Z) [peg_again] [].

(** The atom model "socket" declared a second time, without mate points. *)
Definition bare_socket : Sdf.AtomModelElem := Sdf.mkAtomModelElem "socket" [].

(** An atom model whose type extends the type of [Scenario.plug]. *)
Definition plug_long : Sdf.AtomModelElem :=
  Sdf.mkAtomModelElem "plug_long"
    [Sdf.mkMatePointElem "peg" "male" (KDL.FrameGiven 2)].

Definition long_scene : Sdf.Plugin :=
  Sdf.mkPlugin None None None [Scenario.peg] [plug_long; Scenario.plug].

Definition long_links : list Link.t :=
  [Link.mk "plug_long_1"; Link.mk "base"; Link.mk "plug_2"].

(** An atom model with a female mate point of a type that no [mate_model]
    element declares. *)
Definition stray : Sdf.AtomModelElem :=
  Sdf.mkAtomModelElem "stray"
    [Sdf.mkMatePointElem "hook" "female" KDL.FrameIdentity].

Definition stray_scene : Sdf.Plugin :=
  Sdf.mkPlugin None None None [Scenario.peg]
    [Scenario.socket; stray; Scenario.plug].

(** An atom model with two female points of the four-fold model and a male
    point in between. *)
Definition crown : Sdf.AtomModelElem :=
  Sdf.mkAtomModelElem "crown"
    [Sdf.mkMatePointElem "quad" "female" (KDL.FrameGiven 3);
     Sdf.mkMatePointElem "peg" "male" (KDL.FrameGiven 4);
     Sdf.mkMatePointElem "quad" "female" (KDL.FrameGiven 5)].

Definition crown_scene : Sdf.Plugin :=
  Sdf.mkPlugin None None None [Scenario.peg; Scenario.quad] [crown].

(** The scene of the socket and the plug with the configuration left to the
    constructor, and the plugin that [Load] makes of it. *)
Definition quiet_scene : Sdf.Plugin :=
  Sdf.mkPlugin None None None [Scenario.peg] [Scenario.socket; Scenario.plug].

Definition unpublished : AssemblySoup :=
  (Load Scenario.links quiet_scene AssemblySoup_ctor).1.2.

(** The same scene with TF broadcasting, loaded and after the first tick. *)
Definition framed_scene : Sdf.Plugin :=
  Sdf.mkPlugin (Some "map") None None [Scenario.peg]
    [Scenario.socket; Scenario.plug].

Definition framed : AssemblySoup :=
  (@OnUpdate _ Scenario.proximity Scenario.Far
     (Load Scenario.links framed_scene AssemblySoup_ctor).1.2).1.


End Bench.

(* ------------------------------------------------------------------------- *)
(** ** More observations on runs *)

Definition is_start (e : Event) : bool :=
  match e with EvStartThread => true | _ => false end.

(** The events of the discovery thread. *)
Definition discovery_event (e : Event) : Prop :=
  match e with
  | EvNewMate _ _ _ | EvCreateJoint _ _ | EvJointDetach _
  | EvLock | EvUnlock | EvGetStateUpdate _ _ | EvStage _
  | EvSendTransform _ _ | EvPublishMarkers _ _ | EvPublishActiveMates _ =>
      True
  | _ => False
  end.

(** [updateState] is called on a mate only while it has a staged transition
    that has not been applied. *)
Fixpoint well_applied (staged : gset nat) (tr : list Event) : Prop :=
  match tr with
  | [] => True
  | e :: tr' =>
      match e with
      | EvUpdateState a => a ∈ staged
      | _ => True
      end
      ∧ well_applied (track staged e) tr'
  end.

(** The marker arrays and the transforms that a cycle sends. *)
Definition markers (tr : list Event) : list (bool * list nat) :=
  omap (λ e, match e with
             | EvPublishMarkers male ids => Some (male, ids)
             | _ => None
             end) tr.

Definition transforms (tr : list Event) : list (string * string) :=
  omap (λ e, match e with
             | EvSendTransform frame child => Some (frame, child)
             | _ => None
             end) tr.

(** The two marker arrays of the atom at position [iter]: the male points,
    then the female points, with the ids [(iter * 100) + id]. *)
Definition atom_markers (iter : nat) (fa : Atom.t) : list (bool * list nat) :=
  [(true, (λ p, iter * 100 + MatePoint.id p)
            <$> AtomModel.male_mate_points (Atom.model fa));
   (false, (λ p, iter * 100 + MatePoint.id p)
             <$> AtomModel.female_mate_points (Atom.model fa))].

(* ------------------------------------------------------------------------- *)
(** ** [AssemblySoup::stateUpdateLoop]: the body of the discovery thread *)

(** [gazebo::common::Time], as a number of nanoseconds: its comparison, sum
    and difference are those of the integers. *)
Abbreviation Time := Z.

(** What one iteration of the loop reads: the simulation time [now], the
    time it takes as [last_update_time] if it runs a cycle, and the world
    that the mate models see during that cycle. *)
Module Observation.
Record t (World : Type) := mk {
  now : Time;
  later : Time;
  world : World;
}.

Arguments mk {World} now later world.
Arguments now {World} _.
Arguments later {World} _.
Arguments world {World} _.
End Observation.

(** What one iteration does: [Time::Sleep], or a discovery cycle. *)
Inductive LoopEvent :=
| Slept (d : Time)
| Cycled (now later : Time) (tr : list Event).

(** The [while(running_)] loop.  [last_update_time] is at first the
    simulation time that the function reads before the loop, and
    [update_period] is [Time(1.0/updates_per_second_)]; the observations are
    those of the iterations that find [running_] set.  [None]: a cycle does
    not run to its end. *)
Fixpoint stateUpdateLoop `{MateModelOps World}
    (update_period last_update_time : Time)
    (obs : list (Observation.t World)) (s : AssemblySoup)
    : option (AssemblySoup * Time * list LoopEvent) :=
  match obs with
  | [] => Some (s, last_update_time, [])
  | o :: obs' =>
      if (Observation.now o <? last_update_time + update_period)%Z then
        '(s', t, evs) ←
          stateUpdateLoop update_period last_update_time obs' s;
        Some (s', t,
              Slept (last_update_time + update_period - Observation.now o)
              :: evs)
      else
        '(s1, tr) ← getStateUpdates (Observation.world o) s;
        '(s', t, evs) ←
          stateUpdateLoop update_period (Observation.later o) obs' s1;
        Some (s', t,
              Cycled (Observation.now o) (Observation.later o) tr :: evs)
  end.

(** The two clock readings of the cycles of the loop, and its sleeps. *)
Definition cycle_times (evs : list LoopEvent) : list (Time * Time) :=
  omap (λ e, match e with
             | Cycled now later _ => Some (now, later)
             | Slept _ => None
             end) evs.

Definition sleeps (evs : list LoopEvent) : list Time :=
  omap (λ e, match e with Slept d => Some d | Cycled _ _ _ => None end) evs.

(** Every cycle begins at least a period after the time that was taken as
    [last_update_time] before it. *)
Fixpoint paced (update_period last_update_time : Time)
    (cycles : list (Time * Time)) : Prop :=
  match cycles with
  | [] => True
  | (now, later) :: cycles' =>
      (last_update_time + update_period ≤ now)%Z
      ∧ paced update_period later cycles'
  end.

(* ------------------------------------------------------------------------- *)
(** ** A clock for the discovery thread *)

Module Clock.

(** Four iterations with a period of 100: too early, in time for a cycle,
    too early after it, in time again. *)
Definition readings : list (Observation.t Scenario.Placement) :=
  [Observation.mk 40 40 Scenario.Far;
   Observation.mk 120 125 Scenario.Near;
   Observation.mk 200 200 Scenario.Near;
   Observation.mk 230 231 Scenario.Near].

(** The plugin of [Bench.unpublished] after the first tick. *)
Definition ticked : AssemblySoup :=
  (@OnUpdate _ Scenario.proximity Scenario.Far Bench.unpublished).1.

Definition run
    : option (AssemblySoup * Time * list LoopEvent) :=
  @stateUpdateLoop _ Scenario.proximity 100 0 readings ticked.

End Clock.

(* ------------------------------------------------------------------------- *)
(** * Lemmas *)

Section StdMapFacts.
Context {V : Type}.
Implicit Types (m : StdMap.t V) (k : string) (v : V).

Lemma compare_refl k : String.compare k k = Eq.
Proof.
  pose proof (String.compare_antisym k k) as Hc.
  by destruct (String.compare k k).
Qed.

Lemma compare_neq k k' : String.compare k k' ≠ Eq → String.eqb k k' = false.
Proof.
  intros Hc. apply String.eqb_neq. intros ->. apply Hc, compare_refl.
Qed.

Lemma find_assign_eq k v m : StdMap.find k (StdMap.assign k v m) = Some v.
Proof.
  induction m as [|[k' v'] m IH]; simpl.
  - by rewrite String.eqb_refl.
  - destruct (String.compare k k') eqn:Hc; simpl.
    + by rewrite String.eqb_refl.
    + by rewrite String.eqb_refl.
    + rewrite compare_neq; [done | by rewrite Hc].
Qed.

Lemma find_assign_ne k k' v m :
  k ≠ k' → StdMap.find k' (StdMap.assign k v m) = StdMap.find k' m.
Proof.
  intros Hne.
  assert (String.eqb k' k = false) as Hk by (apply String.eqb_neq; congruence).
  induction m as [|[k0 v0] m IH]; simpl.
  - by rewrite Hk.
  - destruct (String.compare k k0) eqn:Hc; simpl.
    + apply String.compare_eq_iff in Hc as <-. by rewrite Hk.
    + by rewrite Hk.
    + by rewrite IH.
Qed.

Lemma find_assign k k' v m :
  StdMap.find k' (StdMap.assign k v m)
  = if decide (k = k') then Some v else StdMap.find k' m.
Proof.
  case_decide as Hk; [subst; apply find_assign_eq | by apply find_assign_ne].
Qed.
End StdMapFacts.

Section Symmetries.



Lemma axis_steps_nonpos n : (n ≤ 0)%Z → axis_steps n = [].
Proof.
  intros Hn. unfold axis_steps.
  by replace (Z.to_nat n) with 0%nat by lia.
Qed.






End Symmetries.

Section LoadFacts.

(** What one [mate_model] element does to the plugin. *)
Lemma load_mate_model_cases e s :
  (∃ msg, load_mate_model e s = (Return, s, [EvError msg])
          ∧ (Sdf.attr_model e = None ∨ Sdf.attr_type e = None
             ∨ ∃ model ty, Sdf.attr_model e = Some model
                           ∧ Sdf.attr_type e = Some ty
                           ∧ StdMap.find ty (mate_models_ s) = None
                           ∧ model_kind model = None))
  ∨ (∃ s' ty, load_mate_model e s = (Go, s', [])
              ∧ Sdf.attr_type e = Some ty
              ∧ updateConnection_ s' = updateConnection_ s
              ∧ atoms_ s' = atoms_ s
              ∧ atom_models_ s' = atom_models_ s
              ∧ ∀ k, k ≠ ty →
                     StdMap.find k (mate_models_ s')
                     = StdMap.find k (mate_models_ s)).
Proof.
  unfold load_mate_model.
  destruct (Sdf.attr_model e) as [model|]; [|left; eauto].
  destruct (Sdf.attr_type e) as [ty|]; [|left; eauto].
  destruct (StdMap.find ty (mate_models_ s)) as [p|] eqn:Hfind.
  - right. by exists s, ty.
  - destruct (model_kind model) as [k|] eqn:Hkind.
    + right. eexists _, ty. split; [done|]. repeat split; try done.
      intros k' Hk'. simpl.
      destruct (length (load_symmetries e) =? 0)%nat; simpl;
        by rewrite find_assign_ne.
    + left. eexists. split; [done|]. right; right. by exists model, ty.
Qed.

Lemma load_config_frame sdf s :
  updateConnection_ (load_config sdf s) = updateConnection_ s
  ∧ atoms_ (load_config sdf s) = atoms_ s
  ∧ atom_models_ (load_config sdf s) = atom_models_ s
  ∧ mate_models_ (load_config sdf s) = mate_models_ s.
Proof.
  unfold load_config.
  by destruct (Sdf.tf_world_frame sdf), (Sdf.publish_active_mates sdf),
    (Sdf.updates_per_second sdf).
Qed.

(** The loop over the symmetries of a female mate point. *)
Lemma foldl_push_female mm base syms s am :
  ∃ s' pts,
    foldl (push_female mm base) (s, am) syms
    = (s', AtomModel.mk (AtomModel.type am)
             (AtomModel.female_mate_points am ++ pts)
             (AtomModel.male_mate_points am))
    ∧ length pts = length syms
    ∧ MatePoint.pose <$> pts = KDL.FrameMul base <$> syms
    ∧ MatePoint.id <$> pts
      = seq (length (AtomModel.female_mate_points am)
             + length (AtomModel.male_mate_points am)) (length syms)
    ∧ Forall (λ q, MatePoint.model q = Some mm) pts
    ∧ mate_models_ s' = mate_models_ s.
Proof.
  revert s am. induction syms as [|sym syms IH]; intros s am.
  - exists s, []. destruct am. by rewrite app_nil_r.
  - simpl.
    destruct (IH (with_next_addr_ (S (next_addr_ s)) s)
                (AtomModel.mk (AtomModel.type am)
                   (AtomModel.female_mate_points am
                    ++ [MatePoint.mk (next_addr_ s) (Some mm)
                          (KDL.FrameMul base sym)
                          (length (AtomModel.female_mate_points am)
                           + length (AtomModel.male_mate_points am))])
                   (AtomModel.male_mate_points am)))
      as (s' & pts & Hfold & Hlen & Hpose & Hid & Hmodel & Hmm).
    simpl in Hid, Hmm, Hfold. rewrite length_app in Hid. simpl in Hid.
    exists s', (MatePoint.mk (next_addr_ s) (Some mm) (KDL.FrameMul base sym)
                  (length (AtomModel.female_mate_points am)
                   + length (AtomModel.male_mate_points am)) :: pts).
    rewrite Hfold, <- app_assoc, !fmap_cons, Hpose, Hid. simpl.
    repeat split; try done.
    + by rewrite Hlen.
    + do 2 f_equal. lia.
    + by constructor.
Qed.

(** The loop changes nothing of the plugin but the allocator. *)
Lemma foldl_push_female_soup mm base syms s am :
  (foldl (push_female mm base) (s, am) syms).1
  = with_next_addr_ (next_addr_ s + length syms) s.
Proof.
  revert s am. induction syms as [|sym syms IH]; intros s am; simpl.
  - destruct s. unfold with_next_addr_. simpl. f_equal. lia.
  - rewrite IH. unfold with_next_addr_. simpl. f_equal. lia.
Qed.




Lemma index_keeps {V} k (v dflt : V) k' m :
  StdMap.find k m = Some v →
  StdMap.find k (StdMap.index dflt k' m).2 = Some v.
Proof.
  intros Hk. unfold StdMap.index.
  destruct (StdMap.find k' m) eqn:Hk'; simpl; [done|].
  rewrite find_assign_ne; [done | congruence].
Qed.

End LoadFacts.

Section FailFast.

(** The loop over the [mate_model] elements stops at the first element
    without a model or a type, or with an unknown model and a type that is
    not registered when its turn comes. *)
Lemma load_mate_models_aborts pre e post s :
  (Sdf.attr_model e = None ∨ Sdf.attr_type e = None
   ∨ ∃ model ty, Sdf.attr_model e = Some model ∧ model_kind model = None
                 ∧ Sdf.attr_type e = Some ty
                 ∧ StdMap.find ty (mate_models_ s) = None
                 ∧ Forall (λ e', Sdf.attr_type e' ≠ Some ty) pre) →
  ∃ s' ev msg,
    load_mate_models (pre ++ e :: post) s = (Return, s', ev)
    ∧ last ev = Some (EvError msg)
    ∧ updateConnection_ s' = updateConnection_ s
    ∧ atoms_ s' = atoms_ s
    ∧ atom_models_ s' = atom_models_ s
    ∧ ∀ k, is_Some (StdMap.find k (mate_models_ s')) →
           is_Some (StdMap.find k (mate_models_ s))
           ∨ Some k ∈ Sdf.attr_type <$> pre.
Proof.
  revert s. induction pre as [|e0 pre IH]; intros s Hbad; simpl.
  - assert (∃ msg, load_mate_model e s = (Return, s, [EvError msg]))
      as [msg Hret].
    { unfold load_mate_model.
      destruct Hbad as [->|[Hty|(model & ty & -> & Hkind & -> & -> & _)]];
        [eauto| |rewrite Hkind; eauto].
      destruct (Sdf.attr_model e); rewrite ?Hty; eauto. }
    rewrite Hret. exists s, [EvError msg], msg.
    repeat split; try done. by left.
  - destruct (load_mate_model_cases e0 s)
      as [(msg & -> & _)|(s0 & ty0 & -> & Hty0 & Hconn & Hatoms & Hmodels & Hkeys)].
    { exists s, [EvError msg], msg. repeat split; try done. by left. }
    destruct (IH s0) as (s' & ev & msg & -> & Hlast & Hc & Ha & Hm & Hk).
    { destruct Hbad as [?|[?|(model & ty & ? & ? & ? & Hfresh & Hpre)]];
        [by left | by right; left |].
      right; right. exists model, ty.
      apply Forall_cons in Hpre as [Hne Hpre].
      repeat split; try done.
      rewrite Hkeys; [done | congruence]. }
    exists s', ev, msg. simpl. repeat split; try congruence.
    intros k Hsome. rewrite Hty0.
    destruct (Hk k Hsome) as [Hin|Hin]; [|by right; right].
    destruct (decide (k = ty0)) as [->|Hne]; [right; left|].
    left. by rewrite <- Hkeys.
Qed.

End FailFast.

Section LoadFrame.

Lemma same_runtime_refl s : same_runtime s s.
Proof. by repeat split. Qed.

Lemma same_runtime_trans s1 s2 s3 :
  same_runtime s1 s2 → same_runtime s2 s3 → same_runtime s1 s3.
Proof.
  intros (? & ? & ? & ? & ? & ?) (? & ? & ? & ? & ? & ?).
  repeat split; congruence.
Qed.

Lemma load_config_runtime sdf s : same_runtime s (load_config sdf s).
Proof.
  unfold load_config.
  by destruct (Sdf.tf_world_frame sdf), (Sdf.publish_active_mates sdf),
    (Sdf.updates_per_second sdf).
Qed.

Lemma load_mate_model_runtime e s f s' ev :
  load_mate_model e s = (f, s', ev) → same_runtime s s'.
Proof.
  unfold load_mate_model. intros Hl.
  repeat case_match; by simplify_eq.
Qed.

Lemma load_mate_models_runtime es s f s' ev :
  load_mate_models es s = (f, s', ev) → same_runtime s s'.
Proof.
  revert s f s' ev. induction es as [|e es IH]; intros s f s' ev; simpl.
  - intros [= <- <- <-]. apply same_runtime_refl.
  - destruct (load_mate_model e s) as [[f1 s1] ev1] eqn:He.
    apply load_mate_model_runtime in He.
    destruct f1; try (intros [= <- <- <-]; done).
    destruct (load_mate_models es s1) as [[f2 s2] ev2] eqn:Hes.
    intros [= <- <- <-]. eapply same_runtime_trans; [done|]. by eapply IH.
Qed.

Lemma foldl_push_female_runtime mm base syms s am :
  same_runtime s (foldl (push_female mm base) (s, am) syms).1.
Proof.
  revert s am. induction syms as [|sym syms IH]; intros s am; simpl.
  - apply same_runtime_refl.
  - eapply same_runtime_trans; [|apply IH]. by repeat split.
Qed.

Lemma load_mate_point_runtime e s am f s' am' ev :
  load_mate_point e (s, am) = (f, (s', am'), ev) → same_runtime s s'.
Proof.
  unfold load_mate_point. cbv beta iota zeta.
  destruct (StdMap.index None (Sdf.mp_type e) (mate_models_ s))
    as [mate_model models].
  destruct (iequals (Sdf.mp_gender e) "female").
  - destruct mate_model as [mm|]; [|by intros [= <- <- <- <-]].
    pose proof (foldl_push_female_runtime mm (Sdf.mp_pose e)
                  (MateModel.symmetries mm) (with_mate_models_ models s) am)
      as Hf.
    destruct (foldl _ _ _) as [s2 am2]. by intros [= <- <- <- <-].
  - destruct (iequals (Sdf.mp_gender e) "male"); by intros [= <- <- <- <-].
Qed.

Lemma load_mate_points_runtime es s am f s' am' ev :
  load_mate_points es (s, am) = (f, (s', am'), ev) → same_runtime s s'.
Proof.
  revert s am f s' am' ev.
  induction es as [|e es IH]; intros s am f s' am' ev;
    cbn [load_mate_points].
  - intros [= <- <- <- <-]. apply same_runtime_refl.
  - destruct (load_mate_point e (s, am)) as [[f1 [s1 am1]] ev1] eqn:He.
    apply load_mate_point_runtime in He.
    destruct f1; try (intros [= <- <- <- <-]; done).
    destruct (load_mate_points es (s1, am1)) as [[f2 [s2 am2]] ev2] eqn:Hes.
    intros [= <- <- <- <-]. eapply same_runtime_trans; [done|]. by eapply IH.
Qed.

Lemma load_atom_model_runtime e s f s' ev :
  load_atom_model e s = (f, s', ev) → same_runtime s s'.
Proof.
  unfold load_atom_model.
  destruct (load_mate_points _ _) as [[f1 [s1 am1]] ev1] eqn:Hp.
  apply load_mate_points_runtime in Hp.
  destruct f1; intros [= <- <- <-]; done.
Qed.

Lemma load_atom_models_runtime es s f s' ev :
  load_atom_models es s = (f, s', ev) → same_runtime s s'.
Proof.
  revert s f s' ev. induction es as [|e es IH]; intros s f s' ev; simpl.
  - intros [= <- <- <-]. apply same_runtime_refl.
  - destruct (load_atom_model e s) as [[f1 s1] ev1] eqn:He.
    apply load_atom_model_runtime in He.
    destruct f1; try (intros [= <- <- <-]; done).
    destruct (load_atom_models es s1) as [[f2 s2] ev2] eqn:Hes.
    intros [= <- <- <-]. eapply same_runtime_trans; [done|]. by eapply IH.
Qed.

Lemma load_links_runtime links s : same_runtime s (foldl load_link s links).
Proof.
  revert s. induction links as [|l links IH]; intros s; simpl.
  - apply same_runtime_refl.
  - eapply same_runtime_trans; [|apply IH].
    unfold load_link. by destruct (atom_model_of _ _).
Qed.

(** [Load] leaves the run-time members alone: whatever it returns, the
    plugin that the constructor made is still fresh afterwards. *)
Lemma Load_runtime links sdf s f s' ev :
  Load links sdf s = (f, s', ev) → same_runtime s s'.
Proof.
  unfold Load.
  pose proof (load_config_runtime sdf s) as Hc.
  destruct (load_mate_models _ _) as [[f1 s1] ev1] eqn:Hm.
  apply load_mate_models_runtime in Hm.
  destruct f1; try (intros [= <- <- <-]; by eapply same_runtime_trans).
  destruct (load_atom_models _ _) as [[f2 s2] ev2] eqn:Ha.
  apply load_atom_models_runtime in Ha.
  pose proof (load_links_runtime links s2) as Hl.
  assert (same_runtime s s2) as Hs2
    by (eapply same_runtime_trans; [|exact Ha];
        by eapply same_runtime_trans).
  destruct f2; intros [= <- <- <-]; try done.
  eapply same_runtime_trans; [exact Hs2|].
  eapply same_runtime_trans; [exact Hl|]. by repeat split.
Qed.

Lemma Load_fresh links sdf f s ev :
  Load links sdf AssemblySoup_ctor = (f, s, ev) → fresh s.
Proof.
  intros (Hh & Ht & Hs & Hm & Hmu & Hr)%Load_runtime.
  unfold fresh. by rewrite Hh, Ht, Hs, Hm, Hmu, Hr.
Qed.

End LoadFrame.

Section LoadedAtoms.

Lemma assign_elem {V} k (v : V) k' v' m :
  (k', v') ∈ StdMap.assign k v m → (k' = k ∧ v' = v) ∨ (k', v') ∈ m.
Proof.
  induction m as [|[k0 v0] m IH]; simpl.
  - intros [= -> ->]%list_elem_of_singleton. by left.
  - destruct (String.compare k k0).
    + intros [[= -> ->]|Hin]%elem_of_cons; [by left|]. right. by right.
    + intros [[= -> ->]|Hin]%elem_of_cons; [by left | by right].
    + intros [[= -> ->]|Hin]%elem_of_cons; [right; by left|].
      destruct (IH Hin) as [?|?]; [by left|]. right. by right.
Qed.

Lemma atom_model_of_elem name models am :
  atom_model_of name models = Some am → ∃ k, (k, am) ∈ models.
Proof.
  induction models as [|[k m] models IH]; simpl; [done|].
  destruct (String.prefix _ _).
  - intros [= ->]. exists k. by left.
  - intros (k' & Hin)%IH. exists k'. by right.
Qed.

Lemma load_mate_model_atoms e s f s' ev :
  load_mate_model e s = (f, s', ev) →
  atom_models_ s' = atom_models_ s ∧ atoms_ s' = atoms_ s.
Proof.
  unfold load_mate_model. intros Hl. repeat case_match; by simplify_eq.
Qed.

Lemma load_mate_models_atoms es s f s' ev :
  load_mate_models es s = (f, s', ev) →
  atom_models_ s' = atom_models_ s ∧ atoms_ s' = atoms_ s.
Proof.
  revert s f s' ev. induction es as [|e es IH]; intros s f s' ev; simpl.
  - by intros [= <- <- <-].
  - destruct (load_mate_model e s) as [[f1 s1] ev1] eqn:He.
    apply load_mate_model_atoms in He as [Hm Ha].
    destruct f1; try (intros [= <- <- <-]; done).
    destruct (load_mate_models es s1) as [[f2 s2] ev2] eqn:Hes.
    intros [= <- <- <-]. apply IH in Hes as [Hm' Ha']. split; congruence.
Qed.

(** A mate point element leaves the registered atom models and the atoms
    alone, and adds only female points that have a model. *)
Lemma load_mate_point_atoms e s am f s' am' ev :
  load_mate_point e (s, am) = (f, (s', am'), ev) →
  atom_models_ s' = atom_models_ s ∧ atoms_ s' = atoms_ s
  ∧ (Forall (λ p, is_Some (MatePoint.model p))
       (AtomModel.female_mate_points am) →
     Forall (λ p, is_Some (MatePoint.model p))
       (AtomModel.female_mate_points am')).
Proof.
  unfold load_mate_point. cbv beta iota zeta.
  destruct (StdMap.index None (Sdf.mp_type e) (mate_models_ s))
    as [mate_model models].
  destruct (iequals (Sdf.mp_gender e) "female").
  - destruct mate_model as [mm|]; [|by intros [= <- <- <- <-]].
    destruct (foldl_push_female mm (Sdf.mp_pose e) (MateModel.symmetries mm)
                (with_mate_models_ models s) am)
      as (s2 & pts & Hfold & _ & _ & _ & Hpts & _).
    pose proof (foldl_push_female_soup mm (Sdf.mp_pose e)
                  (MateModel.symmetries mm) (with_mate_models_ models s) am)
      as Hsoup.
    rewrite Hfold in *. simpl in Hsoup. subst s2.
    intros [= <- <- <- <-]. split; [done|]. split; [done|].
    simpl. intros Hold. apply Forall_app. split; [done|].
    eapply Forall_impl; [exact Hpts|]. intros p ->. by eexists.
  - destruct (iequals (Sdf.mp_gender e) "male"); by intros [= <- <- <- <-].
Qed.

Lemma load_mate_points_atoms es s am f s' am' ev :
  load_mate_points es (s, am) = (f, (s', am'), ev) →
  atom_models_ s' = atom_models_ s ∧ atoms_ s' = atoms_ s
  ∧ (Forall (λ p, is_Some (MatePoint.model p))
       (AtomModel.female_mate_points am) →
     Forall (λ p, is_Some (MatePoint.model p))
       (AtomModel.female_mate_points am')).
Proof.
  revert s am f s' am' ev.
  induction es as [|e es IH]; intros s am f s' am' ev;
    cbn [load_mate_points].
  - by intros [= <- <- <- <-].
  - destruct (load_mate_point e (s, am)) as [[f1 [s1 am1]] ev1] eqn:He.
    apply load_mate_point_atoms in He as (Hm & Ha & Hf).
    destruct f1; try (intros [= <- <- <- <-]; done).
    destruct (load_mate_points es (s1, am1)) as [[f2 [s2 am2]] ev2] eqn:Hes.
    intros [= <- <- <- <-]. apply IH in Hes as (Hm' & Ha' & Hf').
    repeat split; [congruence..|]. intros Hold. by apply Hf', Hf.
Qed.

Lemma load_atom_model_loaded e s f s' ev :
  load_atom_model e s = (f, s', ev) →
  female_models_loaded s → female_models_loaded s'.
Proof.
  unfold load_atom_model.
  destruct (load_mate_points _ _) as [[f1 [s1 am1]] ev1] eqn:Hp.
  apply load_mate_points_atoms in Hp as (Hm & Ha & Hf).
  specialize (Hf (Forall_nil_2 _)). rewrite Forall_forall in Hf.
  intros Hl [Hmodels Hatoms].
  assert (female_models_loaded s1) as Hs1.
  { split; [by rewrite Hm | by rewrite Ha]. }
  destruct f1; injection Hl as <- <- <-; try done.
  split; [|simpl; by rewrite Ha].
  simpl. intros k am fmp [[-> ->]|Hin]%assign_elem Hfmp.
  - by apply Hf.
  - rewrite Hm in Hin. by eapply Hmodels.
Qed.

Lemma load_atom_models_loaded es s f s' ev :
  load_atom_models es s = (f, s', ev) →
  female_models_loaded s → female_models_loaded s'.
Proof.
  revert s f s' ev. induction es as [|e es IH]; intros s f s' ev; simpl.
  - by intros [= <- <- <-].
  - destruct (load_atom_model e s) as [[f1 s1] ev1] eqn:He.
    intros Hl Hs. apply load_atom_model_loaded in He; [|done].
    destruct f1; try (by injection Hl as <- <- <-).
    destruct (load_atom_models es s1) as [[f2 s2] ev2] eqn:Hes.
    injection Hl as <- <- <-. by eapply IH.
Qed.

Lemma load_links_loaded links s :
  female_models_loaded s → female_models_loaded (foldl load_link s links).
Proof.
  revert s. induction links as [|l links IH]; intros s Hs; [done|].
  simpl. apply IH. unfold load_link.
  destruct (atom_model_of _ _) as [am|] eqn:Ham; [|done].
  apply atom_model_of_elem in Ham as [k Hk]. destruct Hs as [Hmodels Hatoms].
  split; [done|]. simpl. intros fa fmp [Hfa|Hfa]%elem_of_app Hfmp.
  - by eapply Hatoms.
  - apply list_elem_of_singleton in Hfa as ->. by eapply Hmodels.
Qed.

(** Whatever [Load] returns for a plugin fresh from the constructor, the
    female mate points of its atoms have a mate model. *)
Lemma Load_female_models links sdf f s ev :
  Load links sdf AssemblySoup_ctor = (f, s, ev) → female_models (atoms_ s).
Proof.
  unfold Load.
  assert (female_models_loaded (load_config sdf AssemblySoup_ctor)) as Hc.
  { destruct (load_config_frame sdf AssemblySoup_ctor) as (_ & Ha & Hm & _).
    split; [rewrite Hm | rewrite Ha]; simpl.
    - intros k am fmp Hin. by apply elem_of_nil in Hin.
    - intros fa fmp Hin. by apply elem_of_nil in Hin. }
  destruct (load_mate_models _ _) as [[f1 s1] ev1] eqn:Hm.
  apply load_mate_models_atoms in Hm as [Hm Ha].
  assert (female_models_loaded s1) as Hs1.
  { destruct Hc as [Hc1 Hc2]. split; [by rewrite Hm | by rewrite Ha]. }
  destruct f1; try (intros [= <- <- <-]; apply Hs1).
  destruct (load_atom_models _ _) as [[f2 s2] ev2] eqn:Hat.
  apply load_atom_models_loaded in Hat; [|done].
  destruct f2; intros [= <- <- <-]; try apply Hat.
  simpl. by apply load_links_loaded.
Qed.

End LoadedAtoms.

Section TraceFacts.

Lemma new_mates_app f m t1 t2 :
  new_mates f m (t1 ++ t2) = new_mates f m t1 ++ new_mates f m t2.
Proof. apply omap_app. Qed.

Lemma ctor_events_app a t1 t2 :
  ctor_events a (t1 ++ t2) = ctor_events a t1 ++ ctor_events a t2.
Proof. apply List.filter_app. Qed.

Lemma staged_after_app S t1 t2 :
  staged_after S (t1 ++ t2) = staged_after (staged_after S t1) t2.
Proof. apply foldl_app. Qed.

Lemma well_guarded_app S t1 t2 :
  well_guarded S (t1 ++ t2)
  ↔ well_guarded S t1 ∧ well_guarded (staged_after S t1) t2.
Proof.
  revert S. induction t1 as [|e t1 IH]; intros S; simpl; [tauto|].
  rewrite IH. unfold staged_after. tauto.
Qed.

Lemma count_events_app p t1 t2 :
  count_events p (t1 ++ t2) = count_events p t1 + count_events p t2.
Proof. unfold count_events. by rewrite List.filter_app, length_app. Qed.

Lemma quiet_new_mates f m tr : Forall quiet tr → new_mates f m tr = [].
Proof.
  induction 1 as [|e tr He _ IH]; [done|].
  destruct e; simpl in He; try done; exact IH.
Qed.

Lemma quiet_ctor_events a tr : Forall quiet tr → ctor_events a tr = [].
Proof.
  induction 1 as [|e tr He _ IH]; [done|].
  destruct e; simpl in He; try done; exact IH.
Qed.

Lemma quiet_staged_after S tr : Forall quiet tr → staged_after S tr = S.
Proof.
  intros Hq. revert S. induction Hq as [|e tr He _ IH]; intros S; [done|].
  destruct e; simpl in He; try done; exact (IH S).
Qed.

Lemma quiet_well_guarded S tr : Forall quiet tr → well_guarded S tr.
Proof.
  intros Hq. revert S. induction Hq as [|e tr He _ IH]; intros S; [done|].
  destruct e; simpl in He; try done; (split; [done | apply IH]).
Qed.

End TraceFacts.

Section StepFacts.
Context `{MateModelOps World}.

Lemma Mate_ctor_spec a fmp mmp fa ma mate ev :
  Mate_ctor a fmp mmp fa ma = Some (mate, ev) →
  ev = [EvCreateJoint a (joint_name fa ma fmp mmp); EvJointDetach a]
  ∧ Joint.attached (Mate.joint mate) = false
  ∧ Mate.pending_state mate = NONE
  ∧ Mate.state mate = UNMATED
  ∧ Mate.female_mate_point mate = fmp
  ∧ Mate.male_mate_point mate = mmp
  ∧ link_names mate
    = Some (Link.GetName (Atom.link fa), Link.GetName (Atom.link ma)).
Proof.
  unfold Mate_ctor. destruct (negb _); [done|].
  destruct (MatePoint.model fmp); [|done]. simpl.
  intros [= <- <-]. done.
Qed.

(** The lookup either finds the mate of the pair, or constructs it at the
    end of the store and enters it for the pair. *)
Lemma find_mate_spec s fa fmp ma mmp s' a ev :
  find_mate s fa fmp ma mmp = Some (s', a, ev) →
  (table_lookup s (MatePoint.addr fmp) (MatePoint.addr mmp) = Some a
   ∧ s' = s ∧ ev = [])
  ∨ (table_lookup s (MatePoint.addr fmp) (MatePoint.addr mmp) = None
     ∧ a = length (heap_ s)
     ∧ ∃ mate T,
         Mate_ctor a fmp mmp fa ma
         = Some (mate, [EvCreateJoint a (joint_name fa ma fmp mmp);
                        EvJointDetach a])
         ∧ s' = with_mate_table_ T (with_heap_ (heap_ s ++ [mate]) s)
         ∧ (∀ f' m',
              table_lookup s' f' m'
              = if decide (f' = MatePoint.addr fmp ∧ m' = MatePoint.addr mmp)
                then Some a else table_lookup s f' m')
         ∧ ev = [EvNewMate a (MatePoint.addr fmp) (MatePoint.addr mmp);
                 EvCreateJoint a (joint_name fa ma fmp mmp);
                 EvJointDetach a]).
Proof.
  unfold find_mate, table_lookup, new_mate.
  destruct (mate_table_ s !! MatePoint.addr fmp) as [mtf|] eqn:Hf; simpl.
  - destruct (mtf !! MatePoint.addr mmp) as [a'|] eqn:Hm.
    + intros [= <- <- <-]. by left.
    + destruct (Mate_ctor _ _ _ _ _) as [[mate cev]|] eqn:Hctor; [|done].
      simpl. intros [= <- <- <-]. right.
      destruct (Mate_ctor_spec _ _ _ _ _ _ _ Hctor) as [-> _].
      do 2 (split; [done|]). eexists _, _.
      split; [done|]. split; [done|]. split; [|done].
      intros f' m'. simpl. case_decide as Hk.
      * destruct Hk as [-> ->]. rewrite lookup_insert_eq. simpl.
        by rewrite lookup_insert_eq.
      * destruct (decide (f' = MatePoint.addr fmp)) as [->|Hne].
        -- rewrite lookup_insert_eq, Hf. simpl.
           rewrite lookup_insert_ne; [done|]. intros Hm'. by apply Hk.
        -- by rewrite lookup_insert_ne.
  - destruct (Mate_ctor _ _ _ _ _) as [[mate cev]|] eqn:Hctor; [|done].
    simpl. intros [= <- <- <-]. right.
    destruct (Mate_ctor_spec _ _ _ _ _ _ _ Hctor) as [-> _].
    do 2 (split; [done|]). eexists _, _.
    split; [done|]. split; [done|]. split; [|done].
    intros f' m'. simpl. case_decide as Hk.
    * destruct Hk as [-> ->]. rewrite lookup_insert_eq. simpl.
      by rewrite lookup_singleton_eq.
    * destruct (decide (f' = MatePoint.addr fmp)) as [->|Hne].
      -- rewrite lookup_insert_eq, Hf. simpl.
         rewrite lookup_singleton_ne; [done|]. intros Hm'. by apply Hk.
      -- by rewrite lookup_insert_ne.
Qed.

(** The unlocked part of a visit: the lookup, and [continue] exactly when
    the mate has a pending state. *)
Lemma visit_find_spec s fa fmp ma mmp s' found ev :
  visit_find s fa fmp ma mmp = Some (s', found, ev) →
  ∃ a mate,
    find_mate s fa fmp ma mmp = Some (s', a, ev)
    ∧ heap_ s' !! a = Some mate
    ∧ found = if decide (Mate.pending_state mate ≠ NONE) then None
              else Some a.
Proof.
  unfold visit_find.
  destruct (find_mate s fa fmp ma mmp) as [[[s1 a] ev1]|]; [|done]. simpl.
  destruct (heap_ s1 !! a) as [mate|] eqn:Hmate; [|done]. simpl.
  intros Hv. exists a, mate.
  by destruct (decide (Mate.pending_state mate ≠ NONE));
    injection Hv as <- <- <-.
Qed.

Lemma visit_lock_spec s s' ev :
  visit_lock s = Some (s', ev) →
  update_mutex_ s = false ∧ s' = with_update_mutex_ true s ∧ ev = [EvLock].
Proof.
  unfold visit_lock. destruct (update_mutex_ s); [done|].
  by intros [= <- <-].
Qed.

(** The locked part of a visit. *)
Lemma visit_locked_spec w s msg a s' msg' ev :
  visit_locked w s msg a = Some (s', msg', ev) →
  ∃ mate tf,
    heap_ s !! a = Some mate
    ∧ s' = with_update_mutex_ false
             (with_mates_to_update_
                (if decide (getStateUpdate w mate ≠ NONE)
                 then {[a]} ∪ mates_to_update_ s else mates_to_update_ s)
                (with_heap_
                   (<[a := Mate.set_pending_state (getStateUpdate w mate)
                             mate]> (heap_ s)) s))
    ∧ (if publish_active_mates_ s
          && bool_decide (getStateUpdate w mate = MATED)
       then ∃ names, link_names mate = Some names ∧ msg' = msg ++ [names]
       else msg' = msg)
    ∧ ev = EvGetStateUpdate a (getStateUpdate w mate)
           :: (if decide (getStateUpdate w mate ≠ NONE)
               then [EvStage a] else [])
           ++ tf ++ [EvUnlock]
    ∧ Forall (λ e, ∃ x y, e = EvSendTransform x y) tf.
Proof.
  unfold visit_locked.
  destruct (heap_ s !! a) as [mate|] eqn:Hmate; [|done]. simpl.
  intros Hv. exists mate.
  exists (if broadcast_tf_ s
             && bool_decide (is_Some (Joint.parent (Mate.joint mate)))
             && bool_decide (is_Some (Joint.child (Mate.joint mate)))
          then [EvSendTransform (tf_world_frame_ s)
                  (Joint.name (Mate.joint mate))]
          else []).
  split; [done|]. revert Hv. generalize (getStateUpdate w mate) as r.
  intros r Hv.
  assert (∀ P : Prop, P → P ∧ Forall (λ e, ∃ x y, e = EvSendTransform x y)
            (if broadcast_tf_ s
                && bool_decide (is_Some (Joint.parent (Mate.joint mate)))
                && bool_decide (is_Some (Joint.child (Mate.joint mate)))
             then [EvSendTransform (tf_world_frame_ s)
                     (Joint.name (Mate.joint mate))]
             else [])) as Htf.
  { intros P HP. split; [done|].
    destruct (_ && _ && _); repeat constructor. eauto. }
  destruct (decide (r ≠ NONE)) as [Hr|Hr]; simpl in Hv.
  - destruct (publish_active_mates_ s && bool_decide (r = MATED)) eqn:Hpub.
    + unfold link_names.
      destruct (Joint.parent (Mate.joint mate)) as [parent|]; [|done].
      destruct (Joint.child (Mate.joint mate)) as [child|]; [|done].
      simpl in *. injection Hv as <- <- <-.
      split; [done|]. split; [by eexists|]. by apply Htf.
    + injection Hv as <- <- <-. split; [done|]. split; [done|].
      by apply Htf.
  - assert (bool_decide (r = MATED) = false) as ->.
    { apply bool_decide_eq_false. intros Hm. apply Hr. by rewrite Hm. }
    rewrite andb_false_r. injection Hv as <- <- <-.
    split; [done|]. split; [done|]. by apply Htf.
Qed.

End StepFacts.

Section TickFacts.
Context `{MateModelOps World}.

Lemma foldl_call_on_length f heap l :
  length (foldl (call_on f) heap l) = length heap.
Proof.
  revert heap. induction l as [|a l IH]; intros heap; [done|].
  simpl. rewrite IH. unfold call_on. apply length_alter.
Qed.

(** Calling a method on distinct mates changes each of them once. *)
Lemma foldl_call_on_lookup f heap l a :
  NoDup l →
  foldl (call_on f) heap l !! a
  = if decide (a ∈ l) then f <$> heap !! a else heap !! a.
Proof.
  intros Hnd. revert heap.
  induction Hnd as [|b l Hb Hnd IH]; intros heap; simpl.
  - by destruct (decide (a ∈ [])) as [?%elem_of_nil|].
  - rewrite IH. unfold call_on.
    destruct (decide (a = b)) as [->|Hne].
    + destruct (decide (b ∈ l)); [done|].
      destruct (decide (b ∈ b :: l)) as [_|Hn]; [|by destruct Hn; left].
      apply list_lookup_alter_eq.
    + rewrite list_lookup_alter_ne by done.
      destruct (decide (a ∈ l)) as [Hin|Hin],
               (decide (a ∈ b :: l)) as [Hin'|Hin']; try done.
      * destruct Hin'. by right.
      * by apply elem_of_cons in Hin' as [?|?].
Qed.

Lemma OnUpdate_events w s :
  (OnUpdate w s).2
  = (if running_ s then [] else [EvStartThread])
    ++ [EvTryLock (negb (update_mutex_ s))]
    ++ (if update_mutex_ s then []
        else EvUpdateState <$> elements (mates_to_update_ s))
    ++ (EvUpdate <$> elements (mates_ s))
    ++ (if update_mutex_ s then [] else [EvUnlock]).
Proof.
  unfold OnUpdate.
  destruct (running_ s) eqn:Hrun, (update_mutex_ s) eqn:Hmut; simpl;
    rewrite ?Hmut; simpl; by rewrite ?app_nil_r.
Qed.

(** What a tick leaves alone, and what it does to the staged set. *)
Lemma OnUpdate_frame w s :
  mates_ (OnUpdate w s).1 = mates_ s
  ∧ mate_table_ (OnUpdate w s).1 = mate_table_ s
  ∧ update_mutex_ (OnUpdate w s).1 = update_mutex_ s
  ∧ running_ (OnUpdate w s).1 = true
  ∧ atoms_ (OnUpdate w s).1 = atoms_ s
  ∧ publish_active_mates_ (OnUpdate w s).1 = publish_active_mates_ s
  ∧ broadcast_tf_ (OnUpdate w s).1 = broadcast_tf_ s
  ∧ length (heap_ (OnUpdate w s).1) = length (heap_ s)
  ∧ mates_to_update_ (OnUpdate w s).1
    = if update_mutex_ s then mates_to_update_ s else ∅.
Proof.
  unfold OnUpdate.
  destruct (running_ s) eqn:Hrun, (update_mutex_ s) eqn:Hmut; simpl;
    rewrite ?Hmut; simpl; rewrite ?foldl_call_on_length;
    repeat split; done.
Qed.

Lemma OnUpdate_heap w s a :
  heap_ (OnUpdate w s).1 !! a
  = let before :=
      if update_mutex_ s then heap_ s !! a
      else if decide (a ∈ mates_to_update_ s)
           then updateState w <$> heap_ s !! a
           else heap_ s !! a in
    if decide (a ∈ mates_ s) then update w <$> before else before.
Proof.
  assert (∀ (X : gset nat) f heap,
            foldl (call_on f) heap (elements X) !! a
            = if decide (a ∈ X) then f <$> heap !! a else heap !! a)
    as Hset.
  { intros X f heap. rewrite foldl_call_on_lookup by apply NoDup_elements.
    destruct (decide (a ∈ X)) as [Hin|Hin].
    - by rewrite decide_True by by apply elem_of_elements.
    - rewrite decide_False; [done|]. by rewrite elem_of_elements. }
  unfold OnUpdate.
  destruct (running_ s) eqn:Hrun, (update_mutex_ s) eqn:Hmut; simpl;
    rewrite ?Hmut; simpl; rewrite !Hset; done.
Qed.

Lemma apply_new_mates f m l : new_mates f m (EvUpdateState <$> l) = [].
Proof. induction l; [done | exact IHl]. Qed.

Lemma apply_ctor_events a l : ctor_events a (EvUpdateState <$> l) = [].
Proof. induction l; [done | exact IHl]. Qed.

Lemma apply_well_guarded S l : well_guarded S (EvUpdateState <$> l).
Proof.
  revert S. induction l as [|a l IH]; intros S; [done|].
  split; [done | apply IH].
Qed.

Lemma apply_staged_after S l :
  staged_after S (EvUpdateState <$> l) = S ∖ list_to_set l.
Proof.
  revert S. induction l as [|a l IH]; intros S; simpl.
  - unfold staged_after. simpl. by rewrite difference_empty_L.
  - unfold staged_after in *. simpl.
    by rewrite IH, difference_difference_l_L.
Qed.

Lemma update_quiet l : Forall quiet (EvUpdate <$> l).
Proof. apply Forall_fmap, Forall_forall. by intros. Qed.

Lemma transforms_quiet tf :
  Forall (λ e, ∃ x y, e = EvSendTransform x y) tf → Forall quiet tf.
Proof.
  intros Htf. eapply Forall_impl; [exact Htf|]. by intros e (x & y & ->).
Qed.

Lemma link_introspection_quiet s iter fa :
  Forall quiet (link_introspection s iter fa).
Proof.
  unfold link_introspection.
  rewrite !Forall_app, !Forall_fmap. repeat split.
  - by repeat constructor.
  - by apply Forall_forall.
  - by apply Forall_forall.
  - by repeat constructor.
Qed.

End TickFacts.

Section StepCases.
Context `{MateModelOps World}.

Lemma step_cases l σ σ' : step l σ = Some σ' → step_spec σ l σ'.
Proof.
  unfold step. destruct l; simpl.
  - destruct (OnUpdate w (soup σ)) as [s ev] eqn:Hup.
    intros [= <-].
    replace s with (OnUpdate w (soup σ)).1 by by rewrite Hup.
    replace ev with (OnUpdate w (soup σ)).2 by by rewrite Hup.
    constructor.
  - destruct (pc σ) eqn:Hpc; try done.
    destruct (running_ (soup σ)) eqn:Hrun; [|done].
    intros [= <-]. by constructor.
  - destruct (pc σ) eqn:Hpc; try done.
    destruct (candidate _ _ _ _ _) eqn:Hcand; [|done].
    destruct (visit_find _ _ _ _ _) as [[[s' found] ev]|] eqn:Hfind; [|done].
    simpl. intros [= <-]. by econstructor.
  - destruct (pc σ) eqn:Hpc; try done.
    destruct (visit_lock _) as [[s' ev]|] eqn:Hlock; [|done].
    simpl. intros [= <-].
    apply visit_lock_spec in Hlock as (Hfree & -> & ->).
    by constructor.
  - destruct (pc σ) eqn:Hpc; try done.
    destruct (visit_locked _ _ _ _) as [[[s' msg'] ev]|] eqn:Hbody; [|done].
    simpl. intros [= <-]. by econstructor.
  - destruct (pc σ) eqn:Hpc; try done.
    destruct (atoms_ (soup σ) !! iter) as [fa|] eqn:Hfa; [|done]. simpl.
    destruct (broadcast_tf_ (soup σ)) eqn:Htf; [|done].
    intros [= <-]. by econstructor.
  - destruct (pc σ) eqn:Hpc; try done.
    intros [= <-]. by constructor.
Qed.

Lemma exec_app ls1 ls2 (σ : Sys) :
  exec (ls1 ++ ls2) σ = exec ls1 σ ≫= exec ls2.
Proof.
  revert σ. induction ls1 as [|l ls1 IH]; intros σ; [done|].
  unfold exec in *. simpl. destruct (step l σ); [apply IH | done].
Qed.

(** Induction over runs. *)
Lemma exec_invariant (P : Sys → Prop) :
  (∀ l σ σ', P σ → step l σ = Some σ' → P σ') →
  ∀ ls σ σ', P σ → exec ls σ = Some σ' → P σ'.
Proof.
  intros Hstep ls. induction ls as [|l ls IH]; intros σ σ' HP.
  - by intros [= <-].
  - unfold exec. simpl. destruct (step l σ) as [σ1|] eqn:Hl; [|done].
    simpl. apply IH. by eapply Hstep.
Qed.

End StepCases.

Section Consistency.
Context `{MateModelOps World}.

Lemma consistent_boot s0 : fresh s0 → consistent (boot s0).
Proof.
  intros (Hheap & Htable & Hstaged & Hmates & Hmutex & Hrun).
  unfold consistent, boot. simpl. rewrite Hstaged, Hmates, Hmutex.
  repeat split; try done. by intros (msg & a & Hpc).
Qed.

Lemma free_unless_locked (mutex : bool) (pc pc' : Pc) :
  (mutex = true ↔ ∃ msg a, pc = Locked msg a) →
  (∀ msg a, pc ≠ Locked msg a) →
  (∀ msg a, pc' ≠ Locked msg a) →
  (mutex = true ↔ ∃ msg a, pc' = Locked msg a).
Proof.
  intros Hmut Hpc Hpc'. split.
  - intros (msg & a & Hl)%Hmut. by destruct (Hpc msg a).
  - intros (msg & a & Hl). by destruct (Hpc' msg a).
Qed.

Lemma consistent_step l σ σ' :
  consistent σ → step l σ = Some σ' → consistent σ'.
Proof.
  intros (Hmates & Hstaged & Hpend & Hpc & Hmut & Hwg) Hstep.
  apply step_cases in Hstep.
  destruct Hstep
    as [w | Hidle Hrun | msg fa fmp ma mmp s' found ev Hscan Hcand Hfind
        | msg a Hwait Hfree | w msg a s' msg' ev Hlocked Hbody
        | iter msg fa Hscan Hfa Htf | msg Hscan];
    unfold consistent; simpl.
  - (* a tick *)
    destruct (OnUpdate_frame w (soup σ))
      as (Hm & _ & Hmu & _ & _ & _ & _ & _ & Hst).
    pose proof (OnUpdate_heap w (soup σ)) as Hheap.
    pose proof (OnUpdate_events w (soup σ)) as Hev.
    rewrite Hmates, elements_empty, fmap_nil, app_nil_l in Hev.
    rewrite Hm, Hmu, Hst, Hev.
    assert (∀ a, a ∉ mates_ (soup σ)) as Hnot
      by (intros a; rewrite Hmates; apply not_elem_of_empty).
    assert (Forall quiet (if running_ (soup σ) then [] else [EvStartThread]))
      as Hq0 by (destruct (running_ (soup σ)); by repeat constructor).
    split; [done|].
    destruct (update_mutex_ (soup σ)) eqn:Hheld; cbv iota.
    + rewrite !app_nil_r.
      split; [|split; [|split; [|split]]].
      * rewrite staged_after_app, Hstaged, staged_after_app.
        rewrite (quiet_staged_after _ _ Hq0).
        apply quiet_staged_after. by repeat constructor.
      * intros a Ha. destruct (Hpend a Ha) as (mate & Hmate & Hp).
        exists mate. rewrite Hheap. cbv zeta.
        by rewrite decide_False by apply Hnot.
      * destruct (pc σ); try done;
          destruct Hpc as (mate & Hmate & Hp); exists mate;
          rewrite Hheap; cbv zeta;
          by rewrite decide_False by apply Hnot.
      * done.
      * rewrite !well_guarded_app. split; [done|].
        split; [by apply quiet_well_guarded|].
        apply quiet_well_guarded. by repeat constructor.
    + split; [|split; [|split; [|split]]].
      * rewrite staged_after_app, Hstaged, !staged_after_app.
        rewrite (quiet_staged_after _ _ Hq0).
        rewrite (quiet_staged_after _ [EvTryLock (negb false)])
          by by repeat constructor.
        rewrite apply_staged_after, list_to_set_elements_L.
        rewrite (quiet_staged_after _ [EvUnlock]) by by repeat constructor.
        apply difference_diag_L.
      * intros a Ha. by apply not_elem_of_empty in Ha.
      * assert (∀ a mate, heap_ (soup σ) !! a = Some mate →
                          Mate.pending_state mate = NONE →
                          heap_ (OnUpdate w (soup σ)).1 !! a = Some mate)
          as Hkeep.
        { intros a mate Hmate Hp. rewrite Hheap. cbv zeta.
          rewrite (decide_False (P := a ∈ mates_ (soup σ))) by apply Hnot.
          destruct (decide (a ∈ mates_to_update_ (soup σ))) as [Hin|]; [|done].
          destruct (Hpend a Hin) as (mate' & Hmate' & Hp'). congruence. }
        destruct (pc σ); try done;
          destruct Hpc as (mate & Hmate & Hp); exists mate; eauto.
      * done.
      * rewrite !well_guarded_app. split; [done|].
        split; [by apply quiet_well_guarded|].
        split; [apply quiet_well_guarded; by repeat constructor|].
        split; [apply apply_well_guarded|].
        apply quiet_well_guarded. by repeat constructor.
  - (* a cycle begins *)
    repeat split; try done;
      by apply (free_unless_locked _ (pc σ) (Scanning [])); [|congruence|].
  - (* the unlocked part of a visit *)
    apply visit_find_spec in Hfind as (a & mate & Hfm & Hmate & ->).
    assert (mates_ s' = mates_ (soup σ)
            ∧ mates_to_update_ s' = mates_to_update_ (soup σ)
            ∧ update_mutex_ s' = update_mutex_ (soup σ)
            ∧ (∀ b m, heap_ (soup σ) !! b = Some m → heap_ s' !! b = Some m)
            ∧ staged_after (staged_after ∅ (trace σ)) ev
              = staged_after ∅ (trace σ)
            ∧ well_guarded (staged_after ∅ (trace σ)) ev)
      as (Hm & Hst & Hmu & Hheap & Hsa & Hwg').
    { apply find_mate_spec in Hfm
        as [(_ & -> & ->)|(_ & _ & mate' & T & _ & -> & _ & ->)].
      - done.
      - simpl. repeat split; try done.
        intros b m Hb. by apply lookup_app_l_Some. }
    rewrite Hm, Hst, Hmu, staged_after_app, Hsa.
    split; [done|]. split; [done|]. split; [|split; [|split]].
    + intros b Hb. destruct (Hpend b Hb) as (m & Hbm & Hp). eauto.
    + destruct (decide (Mate.pending_state mate ≠ NONE)) as [|Hn]; [done|].
      exists mate. split; [done|].
      destruct (decide (Mate.pending_state mate = NONE)); [done|].
      by destruct Hn.
    + apply (free_unless_locked _ (pc σ)); [done|congruence|].
      by destruct (decide (Mate.pending_state mate ≠ NONE)).
    + by apply well_guarded_app.
  - (* the lock is taken *)
    rewrite Hwait in Hpc.
    rewrite staged_after_app, Hstaged. repeat split; try done.
    + by eauto.
    + by apply well_guarded_app.
  - (* the locked part of a visit *)
    rewrite Hlocked in Hpc. destruct Hpc as (mate & Hmate & Hp).
    apply visit_locked_spec in Hbody
      as (mate' & tf & Hmate' & -> & _ & -> & Htf).
    assert (mate' = mate) as -> by congruence.
    assert (a ∉ mates_to_update_ (soup σ)) as Hfresh.
    { intros Hin. destruct (Hpend a Hin) as (m & Hm & Hpm). congruence. }
    apply transforms_quiet in Htf.
    simpl. split; [done|].
    set (r := getStateUpdate w mate).
    split; [|split; [|split; [|split]]].
    + rewrite staged_after_app, Hstaged. unfold staged_after at 1. simpl.
      fold (staged_after (mates_to_update_ (soup σ))).
      rewrite !staged_after_app.
      destruct (decide (r ≠ NONE)); simpl;
        rewrite (quiet_staged_after _ tf) by done; done.
    + intros b Hb. destruct (decide (b = a)) as [->|Hne].
      * exists (Mate.set_pending_state r mate).
        rewrite list_lookup_insert_eq by by eapply lookup_lt_Some.
        split; [done|]. simpl.
        destruct (decide (r ≠ NONE)); [done|]. by destruct Hfresh.
      * rewrite list_lookup_insert_ne by done. apply Hpend.
        destruct (decide (r ≠ NONE)); [|done].
        by apply elem_of_union in Hb as [Hb%elem_of_singleton|Hb].
    + done.
    + split; [done|]. by intros (msg0 & b & [=]).
    + apply well_guarded_app. split; [done|]. rewrite Hstaged.
      split; [done|]. simpl. apply well_guarded_app.
      assert (Forall quiet (tf ++ [EvUnlock])) as Hq
        by (apply Forall_app; split; [done | by repeat constructor]).
      destruct (decide (r ≠ NONE)); simpl.
      * split; [by split|]. by apply quiet_well_guarded.
      * split; [done|]. by apply quiet_well_guarded.
  - (* the frames of a link are broadcast *)
    pose proof (link_introspection_quiet (soup σ) iter fa) as Hq.
    rewrite staged_after_app, Hstaged, quiet_staged_after by done.
    split; [done|]. split; [done|]. split; [done|]. split; [done|].
    split; [by apply (free_unless_locked _ (pc σ)); [|congruence|]|].
    apply well_guarded_app. split; [done|]. by apply quiet_well_guarded.
  - (* a cycle ends *)
    assert (Forall quiet (if publish_active_mates_ (soup σ)
                          then [EvPublishActiveMates msg] else [])) as Hq
      by (destruct (publish_active_mates_ (soup σ)); by repeat constructor).
    rewrite staged_after_app, Hstaged, quiet_staged_after by done.
    split; [done|]. split; [done|]. split; [done|]. split; [done|].
    split; [by apply (free_unless_locked _ (pc σ)); [|congruence|]|].
    apply well_guarded_app. split; [done|]. by apply quiet_well_guarded.
Qed.

Lemma reachable_consistent s0 σ : reachable s0 σ → consistent σ.
Proof.
  intros [Hfresh [ls Hrun]].
  eapply (exec_invariant consistent); [|by apply consistent_boot|done].
  intros l σ1 σ2. apply consistent_step.
Qed.

End Consistency.

Section Registration.
Context `{MateModelOps World}.

Lemma registered_boot s0 : fresh s0 → registered (boot s0).
Proof.
  intros (Hheap & Htable & _).
  unfold registered, boot, table_lookup. simpl. rewrite Hheap, Htable.
  repeat split; try done.
  simpl. lia.
Qed.

(** Steps that construct no mate keep the invariant. *)
Lemma registered_frame σ s' pc' ev :
  registered σ →
  mate_table_ s' = mate_table_ (soup σ) →
  length (heap_ s') = length (heap_ (soup σ)) →
  (∀ f m, new_mates f m ev = []) →
  (∀ a, ctor_events a ev = []) →
  registered (mkSys s' pc' (trace σ ++ ev)).
Proof.
  intros (Hnew & Hbound & Hctor & Hnone) Htable Hlen Hev1 Hev2.
  unfold registered, table_lookup in *. simpl. rewrite Htable, Hlen.
  repeat split.
  - intros f m. by rewrite new_mates_app, Hev1, app_nil_r.
  - done.
  - intros a Ha. destruct (Hctor a Ha) as (f & m & name & Hfm & Hc).
    exists f, m, name. by rewrite ctor_events_app, Hev2, app_nil_r.
  - intros a Ha. by rewrite ctor_events_app, Hev2, app_nil_r, Hnone.
Qed.

Lemma quiet_no_ctor ev :
  Forall quiet ev →
  (∀ f m, new_mates f m ev = []) ∧ (∀ a, ctor_events a ev = []).
Proof.
  intros Hq. split; intros; [by apply quiet_new_mates|].
  by apply quiet_ctor_events.
Qed.

Lemma tick_no_ctor w s :
  (∀ f m, new_mates f m (OnUpdate w s).2 = [])
  ∧ (∀ a, ctor_events a (OnUpdate w s).2 = []).
Proof.
  rewrite OnUpdate_events.
  assert (Forall quiet (if running_ s then [] else [EvStartThread])) as Hq0
    by (destruct (running_ s); by repeat constructor).
  assert (Forall quiet (if update_mutex_ s then [] else [EvUnlock])) as Hq1
    by (destruct (update_mutex_ s); by repeat constructor).
  split; intros.
  - rewrite !new_mates_app, (quiet_new_mates _ _ _ Hq0),
      (quiet_new_mates _ _ _ (update_quiet _)),
      (quiet_new_mates _ _ _ Hq1).
    destruct (update_mutex_ s); [done|]. by rewrite apply_new_mates.
  - rewrite !ctor_events_app, (quiet_ctor_events _ _ Hq0),
      (quiet_ctor_events _ _ (update_quiet _)),
      (quiet_ctor_events _ _ Hq1).
    destruct (update_mutex_ s); [done|]. by rewrite apply_ctor_events.
Qed.

Lemma body_no_ctor a r (stage : bool) tf :
  Forall quiet tf →
  let ev := EvGetStateUpdate a r
            :: (if stage then [EvStage a] else []) ++ tf ++ [EvUnlock] in
  (∀ f m, new_mates f m ev = []) ∧ (∀ b, ctor_events b ev = []).
Proof.
  intros Htf ev. subst ev. split; intros.
  - change (new_mates f m ((if stage then [EvStage a] else [])
                           ++ tf ++ [EvUnlock]) = []).
    rewrite !new_mates_app, (quiet_new_mates _ _ _ Htf). by destruct stage.
  - change (ctor_events b ((if stage then [EvStage a] else [])
                           ++ tf ++ [EvUnlock]) = []).
    rewrite !ctor_events_app, (quiet_ctor_events _ _ Htf). by destruct stage.
Qed.

Lemma ctor_events_ctor b a f m name :
  ctor_events b [EvNewMate a f m; EvCreateJoint a name; EvJointDetach a]
  = if decide (a = b)
    then [EvNewMate a f m; EvCreateJoint a name; EvJointDetach a]
    else [].
Proof.
  unfold ctor_events. simpl. case_decide.
  - by rewrite !bool_decide_eq_true_2.
  - by rewrite !bool_decide_eq_false_2.
Qed.

Lemma registered_step l σ σ' :
  registered σ → step l σ = Some σ' → registered σ'.
Proof.
  intros Hreg Hstep. apply step_cases in Hstep.
  destruct Hstep
    as [w | Hidle Hrun | msg fa fmp ma mmp s' found ev Hscan Hcand Hfind
        | msg a Hwait Hfree | w msg a s' msg' ev Hlocked Hbody
        | iter msg fa Hscan Hfa Htf | msg Hscan].
  - destruct (OnUpdate_frame w (soup σ))
      as (_ & Htable & _ & _ & _ & _ & _ & Hlen & _).
    by apply registered_frame; [| | |apply tick_no_ctor..].
  - rewrite <- (app_nil_r (trace σ)). by apply registered_frame.
  - apply visit_find_spec in Hfind as (a & mate & Hfm & Hmate & ->).
    apply find_mate_spec in Hfm
      as [(_ & -> & ->)|(Hnone & -> & mate' & T & _ & -> & Htable & ->)].
    { by apply registered_frame. }
    destruct Hreg as (Hnew & Hbound & Hctor & Hfree).
    set (f := MatePoint.addr fmp) in *. set (m := MatePoint.addr mmp) in *.
    unfold registered. simpl. rewrite length_app. simpl.
    repeat split.
    + intros f' m'. rewrite new_mates_app, Hnew, Htable.
      unfold new_mates. simpl.
      destruct (decide (f = f' ∧ m = m')) as [[<- <-]|Hne].
      * rewrite decide_True by done. by rewrite Hnone.
      * rewrite decide_False by (intros [-> ->]; by apply Hne).
        by rewrite app_nil_r.
    + intros f' m' a. rewrite Htable. case_decide.
      * intros [= <-]. lia.
      * intros Ha%Hbound. lia.
    + intros a Ha. rewrite ctor_events_app.
      destruct (decide (a = length (heap_ (soup σ)))) as [->|Hne].
      * exists f, m, (joint_name fa ma fmp mmp).
        rewrite Htable, decide_True by done. split; [done|].
        by rewrite Hfree, ctor_events_ctor, decide_True by done.
      * destruct (Hctor a) as (f' & m' & name & Hfm' & Hc); [lia|].
        exists f', m', name. rewrite Htable, Hc.
        rewrite decide_False by (intros [-> ->]; congruence).
        split; [done|].
        by rewrite ctor_events_ctor, decide_False, app_nil_r by done.
    + intros a Ha. rewrite ctor_events_app, Hfree by lia.
      by rewrite ctor_events_ctor, decide_False by lia.
  - by apply registered_frame.
  - apply visit_locked_spec in Hbody
      as (mate & tf & Hmate & -> & _ & -> & Htf%transforms_quiet).
    destruct (decide (getStateUpdate w mate ≠ NONE));
      (apply registered_frame;
       [done|done|simpl; apply length_insert|..]).
    + apply (body_no_ctor a _ true tf Htf).
    + apply (body_no_ctor a _ true tf Htf).
    + apply (body_no_ctor a _ false tf Htf).
    + apply (body_no_ctor a _ false tf Htf).
  - by apply registered_frame;
      [..|apply quiet_no_ctor, link_introspection_quiet
         |apply quiet_no_ctor, link_introspection_quiet].
  - assert (Forall quiet (if publish_active_mates_ (soup σ)
                          then [EvPublishActiveMates msg] else [])) as Hq
      by (destruct (publish_active_mates_ (soup σ)); by repeat constructor).
    by apply registered_frame; [..|apply quiet_no_ctor|apply quiet_no_ctor].
Qed.

Lemma reachable_registered s0 σ : reachable s0 σ → registered σ.
Proof.
  intros [Hfresh [ls Hrun]].
  eapply (exec_invariant registered); [|by apply registered_boot|done].
  intros l σ1 σ2. apply registered_step.
Qed.

End Registration.

Section Runs.
Context `{MateModelOps World}.

(** A run only appends to the trace. *)
Lemma exec_trace_extends ls σ σ' :
  exec ls σ = Some σ' → ∃ ev, trace σ' = trace σ ++ ev.
Proof.
  revert σ. induction ls as [|l ls IH]; intros σ.
  - intros [= <-]. exists []. by rewrite app_nil_r.
  - unfold exec. simpl. destruct (step l σ) as [σ1|] eqn:Hl; [|done]. simpl.
    intros (ev & ->)%IH.
    apply step_cases in Hl. destruct Hl; simpl;
      try (eexists; by rewrite <- app_assoc); by exists ev.
Qed.

Lemma exec_reachable s0 ls σ σ' :
  reachable s0 σ → exec ls σ = Some σ' → reachable s0 σ'.
Proof.
  intros [Hfresh [ls0 Hrun]] Hmore. split; [done|]. exists (ls0 ++ ls).
  by rewrite exec_app, Hrun.
Qed.

Lemma new_mates_elem a f m tr :
  a ∈ new_mates f m tr ↔ EvNewMate a f m ∈ tr.
Proof.
  unfold new_mates. rewrite list_elem_of_omap. split.
  - intros (e & He & Hsome). destruct e; try done.
    case_decide as Hfm; [|done]. destruct Hfm as [-> ->].
    by injection Hsome as ->.
  - intros He. exists (EvNewMate a f m). split; [done|].
    by rewrite decide_True.
Qed.

Lemma ctor_events_elem a e tr :
  e ∈ ctor_events a tr ↔ e ∈ tr ∧ ctor_event a e = true.
Proof.
  unfold ctor_events. rewrite !list_elem_of_In. apply List.filter_In.
Qed.

End Runs.

Section Cycle.
Context `{MateModelOps World}.

Lemma for_each_invariant {A St : Type} (P : St → Prop) (l : list A)
    (body : A → St → option St) (st st' : St) :
  (∀ x st st', x ∈ l → P st → body x st = Some st' → P st') →
  P st → for_each l body st = Some st' → P st'.
Proof.
  revert st. induction l as [|x l IH]; intros st Hbody HP; simpl.
  - by intros [= <-].
  - destruct (body x st) as [st1|] eqn:Hx; [|done]. simpl.
    apply IH.
    + intros y st2 st3 Hy. apply Hbody. by right.
    + eapply Hbody; [by left|done..].
Qed.

(** A visit is the unlocked part, and for a mate without a pending state
    the lock and the locked part. *)
Lemma visit_spec w fa fmp ma mmp s mates_msg tr s' mates_msg' tr' :
  visit w fa fmp ma mmp (s, mates_msg, tr) = Some (s', mates_msg', tr') →
  ∃ s1 found ev,
    visit_find s fa fmp ma mmp = Some (s1, found, ev)
    ∧ match found with
      | None => s' = s1 ∧ mates_msg' = mates_msg ∧ tr' = tr ++ ev
      | Some a =>
          ∃ ev2,
            update_mutex_ s1 = false
            ∧ visit_locked w (with_update_mutex_ true s1) mates_msg a
              = Some (s', mates_msg', ev2)
            ∧ tr' = tr ++ ev ++ [EvLock] ++ ev2
      end.
Proof.
  unfold visit.
  destruct (visit_find s fa fmp ma mmp) as [[[s1 found] ev]|]; [|done].
  simpl. intros Hv. exists s1, found, ev. split; [done|].
  destruct found as [a|]; [|by injection Hv as <- <- <-].
  destruct (visit_lock s1) as [[s2 ev1]|] eqn:Hlock; [|done].
  apply visit_lock_spec in Hlock as (Hfree & -> & ->). simpl in Hv.
  destruct (visit_locked _ _ _ _) as [[[s3 msg3] ev2]|]; [|done].
  simpl in Hv. injection Hv as <- <- <-. by exists ev2.
Qed.

(** Lifting a property of the loop state through the four nested loops:
    it has to survive the visit of a candidate pair and the broadcast of
    the frames of a link. *)
Lemma scan_invariant (P : Scan → Prop) w (atoms : list Atom.t) st st' :
  (∀ fa fmp ma mmp st st',
     fa ∈ atoms → ma ∈ atoms → Atom.addr ma ≠ Atom.addr fa →
     fmp ∈ AtomModel.female_mate_points (Atom.model fa) →
     mmp ∈ AtomModel.male_mate_points (Atom.model ma) →
     ptr_eq (MatePoint.model fmp) (MatePoint.model mmp) = true →
     P st → visit w fa fmp ma mmp st = Some st' → P st') →
  (∀ iter fa s mates_msg tr,
     atoms !! iter = Some fa → broadcast_tf_ s = true →
     P (s, mates_msg, tr) →
     P (s, mates_msg, tr ++ link_introspection s iter fa)) →
  P st →
  for_each (imap pair atoms) (scan_atom w atoms) st = Some st' →
  P st'.
Proof.
  intros Hvisit Hintro. apply for_each_invariant.
  intros [iter fa] st1 st2 Hfa%elem_of_lookup_imap HP.
  destruct Hfa as (i & x & [= <- <-] & Hfa).
  unfold scan_atom.
  destruct (scan_female_points w atoms fa st1) as [[[s3 msg3] tr3]|] eqn:Hf;
    [|done].
  simpl. intros [= <-].
  assert (P (s3, msg3, tr3)) as HP3.
  { revert Hf. unfold scan_female_points. apply for_each_invariant; [|done].
    intros fmp st3 st4 Hfmp HP'. unfold scan_male_atoms.
    apply for_each_invariant; [|done].
    intros ma st5 st6 Hma HP''. case_bool_decide as Hself.
    { by intros [= <-]. }
    unfold scan_male_points. apply for_each_invariant; [|done].
    intros mmp st7 st8 Hmmp HP7.
    destruct (ptr_eq (MatePoint.model fmp) (MatePoint.model mmp)) eqn:Hc;
      simpl.
    - apply Hvisit; try done. by eapply list_elem_of_lookup_2.
    - by intros [= <-]. }
  destruct (broadcast_tf_ s3) eqn:Htf.
  - by apply Hintro.
  - by rewrite app_nil_r.
Qed.

Lemma visit_find_frame s fa fmp ma mmp s' found ev :
  visit_find s fa fmp ma mmp = Some (s', found, ev) →
  atoms_ s' = atoms_ s
  ∧ publish_active_mates_ s' = publish_active_mates_ s
  ∧ broadcast_tf_ s' = broadcast_tf_ s
  ∧ update_mutex_ s' = update_mutex_ s
  ∧ running_ s' = running_ s
  ∧ (∀ b mate, heap_ s !! b = Some mate → heap_ s' !! b = Some mate)
  ∧ Forall unlocked_event ev.
Proof.
  intros (a & mate & Hfm & _ & _)%visit_find_spec.
  apply find_mate_spec in Hfm
    as [(_ & -> & ->)|(_ & _ & mate' & T & _ & -> & _ & ->)].
  - by repeat split.
  - simpl. repeat split; try done.
    + intros b m Hb. by apply lookup_app_l_Some.
    + by repeat constructor.
Qed.

Lemma visit_locked_frame w s mates_msg a s' mates_msg' ev :
  visit_locked w s mates_msg a = Some (s', mates_msg', ev) →
  atoms_ s' = atoms_ s
  ∧ publish_active_mates_ s' = publish_active_mates_ s
  ∧ broadcast_tf_ s' = broadcast_tf_ s
  ∧ update_mutex_ s' = false
  ∧ running_ s' = running_ s
  ∧ (∀ b mate, heap_ s !! b = Some mate →
               ∃ mate', heap_ s' !! b = Some mate'
                        ∧ link_names mate' = link_names mate)
  ∧ ∃ r mid, ev = EvGetStateUpdate a r :: mid ++ [EvUnlock]
             ∧ Forall locked_event mid.
Proof.
  intros (mate & tf & Hmate & -> & _ & -> & Htf)%visit_locked_spec.
  simpl. repeat split; try done.
  - intros b m Hb. destruct (decide (b = a)) as [->|Hne].
    + rewrite list_lookup_insert_eq by by eapply lookup_lt_Some.
      assert (m = mate) as -> by congruence. by eexists.
    + rewrite list_lookup_insert_ne by done. eauto.
  - eexists _, (_ ++ tf). rewrite <- app_assoc. split; [done|].
    apply Forall_app. split.
    + destruct (decide _); by repeat constructor.
    + eapply Forall_impl; [exact Htf|]. by intros e (x & y & ->).
Qed.

Lemma cycle_trace_app t1 t2 :
  cycle_trace t1 → cycle_trace t2 → cycle_trace (t1 ++ t2).
Proof.
  induction 1 as [|e tr He Htr IH|a r mid tr Hmid Htr IH]; intros H2.
  - done.
  - simpl. constructor; [done | by apply IH].
  - simpl. rewrite <- app_assoc. simpl. constructor; [done | by apply IH].
Qed.

Lemma cycle_trace_unlocked ev : Forall unlocked_event ev → cycle_trace ev.
Proof. induction 1; by constructor. Qed.

Lemma cycle_trace_counts tr :
  cycle_trace tr → count_events is_lock tr = count_events is_eval tr.
Proof.
  assert (∀ mid, Forall locked_event mid →
                 count_events is_lock mid = 0
                 ∧ count_events is_eval mid = 0) as Hmid.
  { induction 1 as [|e mid He _ [IH1 IH2]]; [done|].
    by destruct e. }
  induction 1 as [|e tr He Htr IH|a r mid tr Hm Htr IH]; [done| |].
  - by destruct e.
  - change (EvLock :: EvGetStateUpdate a r :: mid ++ EvUnlock :: tr)
      with ([EvLock; EvGetStateUpdate a r] ++ mid ++ [EvUnlock] ++ tr).
    rewrite !count_events_app, IH.
    destruct (Hmid mid Hm) as [-> ->]. done.
Qed.

Lemma link_introspection_unlocked s iter fa :
  Forall unlocked_event (link_introspection s iter fa).
Proof.
  unfold link_introspection.
  rewrite !Forall_app, !Forall_fmap. repeat split.
  - by repeat constructor.
  - by apply Forall_forall.
  - by apply Forall_forall.
  - by repeat constructor.
Qed.

End Cycle.

Section Schedule.
Context `{MateModelOps World}.




Lemma tick_reachable s0 w σ :
  reachable s0 σ →
  reachable s0
    (mkSys (OnUpdate w (soup σ)).1 (pc σ)
       (trace σ ++ (OnUpdate w (soup σ)).2)).
Proof.
  intros Hreach. eapply (exec_reachable _ [LTick w]); [done|].
  unfold exec, step. simpl. by destruct (OnUpdate w (soup σ)).
Qed.

End Schedule.

Section Publication.
Context `{MateModelOps World}.








End Publication.

Section Totality.
Context `{MateModelOps World}.

Lemma for_each_total {A St : Type} (P : St → Prop) (l : list A)
    (body : A → St → option St) (st : St) :
  (∀ x st, x ∈ l → P st → ∃ st', body x st = Some st' ∧ P st') →
  P st → ∃ st', for_each l body st = Some st' ∧ P st'.
Proof.
  revert st. induction l as [|x l IH]; intros st Hbody HP; simpl.
  - by exists st.
  - destruct (Hbody x st) as (st1 & -> & HP1); [by left|done|]. simpl.
    apply IH; [|done]. intros y st2 Hy. apply Hbody. by right.
Qed.

Lemma find_mate_total s fa fmp ma mmp :
  ptr_eq (MatePoint.model fmp) (MatePoint.model mmp) = true →
  is_Some (MatePoint.model fmp) →
  is_Some (find_mate s fa fmp ma mmp).
Proof.
  intros Hcompat [model Hmodel]. unfold find_mate, new_mate, Mate_ctor.
  rewrite Hcompat, Hmodel. simpl.
  destruct (mate_table_ s !! MatePoint.addr fmp) as [mtf|]; [|done].
  by destruct (mtf !! MatePoint.addr mmp).
Qed.

(** A visit of a compatible pair whose female point has a model goes
    through, and leaves the plugin ready for the next one. *)
Lemma visit_total w fa fmp ma mmp s mates_msg tr :
  ptr_eq (MatePoint.model fmp) (MatePoint.model mmp) = true →
  is_Some (MatePoint.model fmp) →
  ready s →
  ∃ s' mates_msg' tr',
    visit w fa fmp ma mmp (s, mates_msg, tr) = Some (s', mates_msg', tr')
    ∧ ready s'
    ∧ atoms_ s' = atoms_ s
    ∧ publish_active_mates_ s' = publish_active_mates_ s.
Proof.
  intros Hcompat Hmodel (Hfree & Hbound & Hlinks).
  destruct (find_mate_total s fa fmp ma mmp Hcompat Hmodel)
    as [[[s1 a] ev] Hfind].
  assert (ready s1 ∧ atoms_ s1 = atoms_ s
          ∧ publish_active_mates_ s1 = publish_active_mates_ s
          ∧ is_Some (heap_ s1 !! a)) as ((Hfree1 & Hbound1 & Hlinks1) & Hat1 & Hpub1 & [mate Hmate]).
  { destruct (find_mate_spec _ _ _ _ _ _ _ _ Hfind)
      as [(Ha & -> & ->)|(_ & -> & mate' & T & Hctor & -> & Htable & ->)].
    - repeat split; try done. apply lookup_lt_is_Some. by eapply Hbound.
    - apply Mate_ctor_spec in Hctor as (_ & _ & _ & _ & _ & _ & Hnames).
      unfold ready. simpl. repeat split; try done.
      + intros f m a. rewrite Htable, length_app. simpl. case_decide.
        * intros [= <-]. lia.
        * intros Ha%Hbound. lia.
      + intros Hpub a mate [Hold|[_ Hnew]]%lookup_app_Some.
        * by eapply Hlinks.
        * destruct (a - length (heap_ s))%nat; [|done].
          injection Hnew as <-. by rewrite Hnames.
      + exists mate'. by apply list_lookup_middle. }
  unfold visit, visit_find. rewrite Hfind. simpl. rewrite Hmate. simpl.
  destruct (decide (Mate.pending_state mate ≠ NONE)); simpl.
  { by eexists _, _, _. }
  unfold visit_lock. rewrite Hfree1. simpl.
  assert (is_Some (visit_locked w (with_update_mutex_ true s1) mates_msg a))
    as [[[s2 msg2] ev2] Hlocked].
  { unfold visit_locked. simpl. rewrite Hmate. simpl.
    destruct (decide (getStateUpdate w mate ≠ NONE)); simpl; [|done].
    destruct (publish_active_mates_ s1) eqn:Hpub; simpl; [|done].
    destruct (bool_decide (getStateUpdate w mate = MATED)); [|done].
    destruct (Hlinks1 eq_refl a mate Hmate) as [names Hnames].
    unfold link_names in Hnames.
    destruct (Joint.parent (Mate.joint mate)); [|done].
    by destruct (Joint.child (Mate.joint mate)). }
  rewrite Hlocked. simpl. eexists _, _, _. split; [done|].
  apply visit_locked_spec in Hlocked
    as (mate' & tf & Hmate' & -> & _ & _ & _).
  simpl in *. assert (mate' = mate) as -> by congruence.
  unfold ready. simpl. repeat split; try done.
  - intros f m b Hb%Hbound1. by rewrite length_insert.
  - intros Hpub b mate' Hb. destruct (decide (b = a)) as [->|Hne].
    + rewrite list_lookup_insert_eq in Hb by by eapply lookup_lt_Some.
      injection Hb as Hb. subst mate'. exact (Hlinks1 Hpub a mate Hmate).
    + rewrite list_lookup_insert_ne in Hb by done. by eapply Hlinks1.
Qed.

(** A discovery cycle runs to its end from every ready plugin whose female
    mate points have a model, as those made by [Load] do. *)
Lemma getStateUpdates_total w s :
  ready s →
  female_models (atoms_ s) →
  ∃ s' tr, getStateUpdates w s = Some (s', tr) ∧ ready s'.
Proof.
  intros Hready Hmodels. unfold getStateUpdates.
  set (P := λ st : Scan, ready st.1.1).
  assert (∃ st', for_each (imap pair (atoms_ s)) (scan_atom w (atoms_ s))
                   (s, [], []) = Some st' ∧ P st')
    as ([[s1 msg1] tr1] & -> & HP).
  { apply for_each_total; [|done].
    intros [iter fa] st (i & x & [= <- <-] & Hfa)%elem_of_lookup_imap HP.
    apply list_elem_of_lookup_2 in Hfa. unfold scan_atom.
    assert (∃ st', scan_female_points w (atoms_ s) fa st = Some st' ∧ P st')
      as ([[s2 msg2] tr2] & -> & HP2).
    { apply for_each_total; [|done]. intros fmp st2 Hfmp HP2.
      apply for_each_total; [|done]. intros ma st3 Hma HP3.
      case_bool_decide; [by exists st3|].
      apply for_each_total; [|done]. intros mmp [[s4 msg4] tr4] Hmmp HP4.
      destruct (ptr_eq (MatePoint.model fmp) (MatePoint.model mmp)) eqn:Hc;
        cbv beta iota delta [negb]; [|by eexists].
      destruct (visit_total w fa fmp ma mmp s4 msg4 tr4)
        as (s5 & msg5 & tr5 & -> & HP5 & _); eauto. }
    simpl. by eexists. }
  simpl. by eexists _, _.
Qed.

End Totality.

Section KeptLinks.
Context `{MateModelOps World}.

(** The mate models do not take the links of a joint away when they apply a
    transition. *)
Hypothesis updateState_links :
  ∀ (w : World) (m : Mate.t), link_names (updateState w m) = link_names m.

Lemma linked_step l σ σ' :
  consistent σ → linked σ → step l σ = Some σ' → linked σ'.
Proof.
  intros (Hmates & _) Hlinked Hstep. apply step_cases in Hstep.
  destruct Hstep
    as [w | Hidle Hrun | msg fa fmp ma mmp s' found ev Hscan Hcand Hfind
        | msg a Hwait Hfree | w msg a s' msg' ev Hlocked Hbody
        | iter msg fa Hscan Hfa Htf | msg Hscan];
    unfold linked in *; simpl; try done.
  - intros a mate. rewrite OnUpdate_heap. cbv zeta.
    rewrite (decide_False (P := a ∈ mates_ (soup σ)))
      by (rewrite Hmates; apply not_elem_of_empty).
    destruct (update_mutex_ (soup σ)); [apply Hlinked|].
    destruct (decide (a ∈ mates_to_update_ (soup σ))); [|apply Hlinked].
    destruct (heap_ (soup σ) !! a) as [m0|] eqn:Hm0; [|done].
    intros [= <-]. rewrite updateState_links. by eapply Hlinked.
  - apply visit_find_spec in Hfind as (a & mate & Hfm & _ & _).
    apply find_mate_spec in Hfm
      as [(_ & -> & ->)|(_ & _ & mate' & T & Hctor & -> & _ & ->)]; [done|].
    apply Mate_ctor_spec in Hctor as (_ & _ & _ & _ & _ & _ & Hnames).
    simpl. intros b m [Hold|[_ Hnew]]%lookup_app_Some.
    + by eapply Hlinked.
    + destruct (b - length (heap_ (soup σ)))%nat; [|done].
      injection Hnew as <-. by rewrite Hnames.
  - apply visit_locked_spec in Hbody as (mate & tf & Hmate & -> & _).
    simpl. intros b m. destruct (decide (b = a)) as [->|Hne].
    + rewrite list_lookup_insert_eq by by eapply lookup_lt_Some.
      intros [= <-]. exact (Hlinked a mate Hmate).
    + rewrite list_lookup_insert_ne by done. apply Hlinked.
Qed.

Lemma reachable_linked s0 σ : reachable s0 σ → linked σ.
Proof.
  intros Hreach. pose proof Hreach as [Hfresh [ls Hrun]].
  assert (consistent σ ∧ linked σ) as [_ Hl]; [|done].
  eapply (exec_invariant (λ σ, consistent σ ∧ linked σ)); [| |done].
  - intros l σ1 σ2 [Hc Hl] Hstep. split.
    + by eapply consistent_step.
    + by eapply linked_step.
  - split; [by apply consistent_boot|].
    destruct Hfresh as (Hheap & _). unfold linked, boot. simpl.
    rewrite Hheap. by intros a mate Ha.
Qed.

(** Outside the locked part of a visit the plugin is ready for a cycle. *)
Lemma reachable_ready s0 σ :
  reachable s0 σ → (∀ msg a, pc σ ≠ Locked msg a) → ready (soup σ).
Proof.
  intros Hreach Hpc.
  pose proof (reachable_consistent _ _ Hreach) as (_ & _ & _ & _ & Hmut & _).
  pose proof (reachable_registered _ _ Hreach) as (_ & Hbound & _).
  pose proof (reachable_linked _ _ Hreach) as Hlinked.
  split; [|split; [done|]].
  - destruct (update_mutex_ (soup σ)); [|done].
    destruct Hmut as [Hmut _]. destruct (Hmut eq_refl) as (msg & a & Hl).
    by destruct (Hpc msg a).
  - intros _. apply Hlinked.
Qed.

Lemma step_atoms l σ σ' :
  step l σ = Some σ' → atoms_ (soup σ') = atoms_ (soup σ).
Proof.
  intros Hstep. apply step_cases in Hstep.
  destruct Hstep
    as [w | Hidle Hrun | msg fa fmp ma mmp s' found ev Hscan Hcand Hfind
        | msg a Hwait Hfree | w msg a s' msg' ev Hlocked Hbody
        | iter msg fa Hscan Hfa Htf | msg Hscan]; simpl; try done.
  - by destruct (OnUpdate_frame w (soup σ)) as (_ & _ & _ & _ & Ha & _).
  - by apply visit_find_frame in Hfind as (Ha & _).
  - by apply visit_locked_frame in Hbody as (Ha & _).
Qed.

Lemma reachable_atoms s0 σ : reachable s0 σ → atoms_ (soup σ) = atoms_ s0.
Proof.
  intros [_ [ls Hrun]].
  refine (exec_invariant (λ σ, atoms_ (soup σ) = atoms_ s0) _
            ls (boot s0) σ eq_refl Hrun).
  intros l σ1 σ2 Ha Hstep. by rewrite (step_atoms _ _ _ Hstep).
Qed.

(** From every state that the system can reach from a loaded plugin, the
    discovery thread being outside the locked part of a visit, a discovery
    cycle runs to its end. *)
Lemma cycle_runs_to_its_end s0 σ w :
  reachable s0 σ →
  (∀ msg a, pc σ ≠ Locked msg a) →
  female_models (atoms_ s0) →
  ∃ s' tr, getStateUpdates w (soup σ) = Some (s', tr).
Proof.
  intros Hreach Hpc Hmodels.
  destruct (getStateUpdates_total w (soup σ)) as (s' & tr & Hrun & _).
  - by eapply reachable_ready.
  - by rewrite (reachable_atoms _ _ Hreach).
  - by exists s', tr.
Qed.

(** So it is for every plugin that [Load] made out of the constructor's, in
    every state of every run. *)
Lemma loaded_cycle_runs links sdf f s0 ev ls σ w :
  Load links sdf AssemblySoup_ctor = (f, s0, ev) →
  exec ls (boot s0) = Some σ →
  (∀ msg a, pc σ ≠ Locked msg a) →
  ∃ s' tr, getStateUpdates w (soup σ) = Some (s', tr).
Proof.
  intros Hload Hrun Hpc. apply (cycle_runs_to_its_end s0); [|done|].
  - split; [by eapply Load_fresh | by exists ls].
  - by eapply Load_female_models.
Qed.

End KeptLinks.

(* ------------------------------------------------------------------------- *)
(** * The properties of the specification *)

(** C1, on the scene: the pair has been found, staged and mated, so the mate
    at address 0 is in the table and in state [MATED]; the next tick tries
    the lock and returns, without a call of [update] on that or any other
    mate. *)
Theorem C1_mated_mate_gets_no_update :
  table_lookup Scenario.rescanned 1 2 = Some 0
  ∧ Mate.state <$> heap_ Scenario.rescanned !! 0 = Some MATED
  ∧ mates_ Scenario.rescanned = ∅
  ∧ (@OnUpdate _ Scenario.proximity Scenario.Near Scenario.rescanned).2
    = [EvTryLock true; EvUnlock].
Proof. by vm_compute. Qed.

(** The set of active mates is never written: in every reachable state a
    tick calls [update] on no mate. *)
Lemma no_mate_is_ever_updated `{MateModelOps World} s0 σ w :
  reachable s0 σ →
  count_events is_update (OnUpdate w (soup σ)).2 = 0.
Proof.
  intros (Hmates & _)%reachable_consistent.
  rewrite OnUpdate_events, Hmates, elements_empty.
  rewrite !count_events_app.
  destruct (running_ (soup σ)), (update_mutex_ (soup σ)); simpl; try done.
  - induction (elements _) as [|a l IH]; [done | exact IH].
  - induction (elements _) as [|a l IH]; [done | exact IH].
Qed.



(** C3.  In every reachable state and for every pair of mate points, the
    mates constructed for the pair so far are exactly the entry of the pair
    in the mate table: none or one.  The lookup of a pair that has an entry
    returns the entry and constructs nothing, and the entry stays what it is
    in every later state. *)
Theorem C3_at_most_one_mate_per_pair :
  ∀ `{MateModelOps World} (s0 : AssemblySoup) (σ : Sys),
    reachable s0 σ →
    ∀ f m : nat,
      new_mates f m (trace σ) = option_list (table_lookup (soup σ) f m)
      ∧ (length (new_mates f m (trace σ)) ≤ 1)%nat
      ∧ ∀ a, table_lookup (soup σ) f m = Some a →
             (∀ fa fmp ma mmp,
                MatePoint.addr fmp = f → MatePoint.addr mmp = m →
                find_mate (soup σ) fa fmp ma mmp = Some (soup σ, a, []))
             ∧ (∀ ls σ', exec ls σ = Some σ' →
                         table_lookup (soup σ') f m = Some a
                         ∧ new_mates f m (trace σ') = [a]).
Proof.
  intros World Hops s0 σ Hreach f m.
  pose proof (reachable_registered _ _ Hreach) as (Hnew & _).
  split; [apply Hnew|]. split.
  { rewrite Hnew. destruct (table_lookup (soup σ) f m); simpl; lia. }
  intros a Ha. split.
  - intros fa fmp ma mmp <- <-. unfold find_mate.
    unfold table_lookup in Ha.
    destruct (mate_table_ (soup σ) !! MatePoint.addr fmp) as [mtf|]; [|done].
    simpl in Ha. by rewrite Ha.
  - intros ls σ' Hrun.
    pose proof (exec_reachable _ _ _ _ Hreach Hrun) as Hreach'.
    pose proof (reachable_registered _ _ Hreach') as (Hnew' & _).
    destruct (exec_trace_extends _ _ _ Hrun) as (ev & Htr).
    specialize (Hnew' f m). rewrite Htr, new_mates_app, Hnew, Ha in Hnew'.
    destruct (table_lookup (soup σ') f m) as [a'|]; [|done].
    simpl in Hnew'. injection Hnew' as -> Hev.
    split; [done|]. by rewrite Htr, new_mates_app, Hnew, Ha, Hev.
Qed.

(** The socket and the plug of the scene, found, staged and mated: one mate
    was constructed for the pair of their mate points. *)
Lemma C3_at_most_one_mate_per_pair_witness :
  new_mates 1 2 (trace (Scenario.after Scenario.run_to_mated))
  = option_list (table_lookup (soup (Scenario.after Scenario.run_to_mated)) 1 2)
  ∧ (length (new_mates 1 2 (trace (Scenario.after Scenario.run_to_mated)))
     ≤ 1)%nat.
Proof.
  destruct (C3_at_most_one_mate_per_pair (H := Scenario.proximity)
              Scenario.loaded (Scenario.after Scenario.run_to_mated))
    with (f := 1) (m := 2) as (Hnew & Hlen & _).
  - split; [by vm_compute|]. exists Scenario.run_to_mated. by vm_compute.
  - split; [exact Hnew | exact Hlen].
Defined.

(** C4.  A visit of a pair whose mate has a pending state leaves everything
    as it is: no call of [getStateUpdate], nothing staged, no lock taken.  In
    every reachable state the staged set holds exactly the mates that were
    staged and not yet applied by [updateState], each of them has a pending
    state, and in the whole run no mate was evaluated or staged between its
    staging and the call of [updateState] that applied it. *)
Theorem C4_pending_mate_is_skipped :
  ∀ `{MateModelOps World} (s0 : AssemblySoup) (σ : Sys),
    reachable s0 σ →
    (∀ (w : World) fa fmp ma mmp a mate (mates_msg : MateList) tr,
       table_lookup (soup σ) (MatePoint.addr fmp) (MatePoint.addr mmp)
       = Some a →
       heap_ (soup σ) !! a = Some mate →
       Mate.pending_state mate ≠ NONE →
       visit w fa fmp ma mmp (soup σ, mates_msg, tr)
       = Some (soup σ, mates_msg, tr ++ []))
    ∧ mates_to_update_ (soup σ) = staged_after ∅ (trace σ)
    ∧ (∀ a, a ∈ mates_to_update_ (soup σ) →
            ∃ mate, heap_ (soup σ) !! a = Some mate
                    ∧ Mate.pending_state mate ≠ NONE)
    ∧ well_guarded ∅ (trace σ).
Proof.
  intros World Hops s0 σ Hreach.
  pose proof (reachable_consistent _ _ Hreach)
    as (_ & Hstaged & Hpend & _ & _ & Hwg).
  split; [|done].
  intros w fa fmp ma mmp a mate msg tr Ha Hmate Hp.
  unfold visit, visit_find, find_mate. unfold table_lookup in Ha.
  destruct (mate_table_ (soup σ) !! MatePoint.addr fmp) as [mtf|]; [|done].
  simpl in Ha. rewrite Ha. simpl. rewrite Hmate. simpl.
  by rewrite decide_True.
Qed.

(** The scene after the pair was staged and before the tick: the mate at
    address 0 is pending, and a second visit of the pair changes nothing. *)
Lemma C4_pending_mate_is_skipped_witness :
  visit (H := Scenario.proximity) Scenario.Near
    Scenario.socket_1 Scenario.socket_point
    Scenario.plug_1 Scenario.plug_point
    (soup (Scenario.after (take 6 Scenario.run_to_mated)), [], [])
  = Some (soup (Scenario.after (take 6 Scenario.run_to_mated)), [], []).
Proof.
  destruct (C4_pending_mate_is_skipped (H := Scenario.proximity)
              Scenario.loaded
              (Scenario.after (take 6 Scenario.run_to_mated)))
    as (Hskip & _).
  - split; [by vm_compute|]. exists (take 6 Scenario.run_to_mated).
    by vm_compute.
  - eapply (Hskip Scenario.Near Scenario.socket_1 Scenario.socket_point
              Scenario.plug_1 Scenario.plug_point 0 _ [] []).
    + by vm_compute.
    + by vm_compute.
    + by vm_compute.
Defined.

(** C5.  A tick never takes the blocking lock: it tries the mutex once and
    goes on, and it is a step of the system in every state.  If the mutex is
    held, no staged transition is applied, the staged set and every mate
    outside the set of active mates are as before, and the tick releases
    nothing.  If the mutex is free, [updateState] is called once on each
    staged mate, the staged set is cleared, and the mutex is free again
    afterwards. *)
Theorem C5_tick_never_waits :
  ∀ `{MateModelOps World} (w : World) (s : AssemblySoup),
    count_events is_lock (OnUpdate w s).2 = 0
    ∧ EvTryLock (negb (update_mutex_ s)) ∈ (OnUpdate w s).2
    ∧ update_mutex_ (OnUpdate w s).1 = update_mutex_ s
    ∧ (∀ σ : Sys, is_Some (step (LTick w) σ))
    ∧ (update_mutex_ s = true →
       applied (OnUpdate w s).2 = []
       ∧ mates_to_update_ (OnUpdate w s).1 = mates_to_update_ s
       ∧ (EvUnlock ∉ (OnUpdate w s).2)
       ∧ ∀ a, a ∉ mates_ s → heap_ (OnUpdate w s).1 !! a = heap_ s !! a)
    ∧ (update_mutex_ s = false →
       applied (OnUpdate w s).2 = elements (mates_to_update_ s)
       ∧ NoDup (applied (OnUpdate w s).2)
       ∧ mates_to_update_ (OnUpdate w s).1 = ∅
       ∧ EvUnlock ∈ (OnUpdate w s).2
       ∧ ∀ a, a ∉ mates_ s →
              heap_ (OnUpdate w s).1 !! a
              = if decide (a ∈ mates_to_update_ s)
                then updateState w <$> heap_ s !! a
                else heap_ s !! a).
Proof.
  intros World Hops w s.
  destruct (OnUpdate_frame w s) as (_ & _ & Hmu & _ & _ & _ & _ & _ & Hst).
  pose proof (OnUpdate_heap w s) as Hheap.
  pose proof (OnUpdate_events w s) as Hev.
  assert (∀ l, applied (EvUpdate <$> l) = []) as Hupd
    by (intros l; induction l; [done | assumption]).
  assert (∀ l, applied (EvUpdateState <$> l) = l) as Happ
    by (intros l; induction l as [|a l IH]; [done | simpl; by f_equal]).
  assert (∀ l, EvUnlock ∉ EvUpdate <$> l) as Hnu
    by (intros l (a & [=] & _)%list_elem_of_fmap).
  split; [|split; [|split; [done|split; [|split]]]].
  - rewrite Hev, !count_events_app.
    assert (∀ l, count_events is_lock (EvUpdate <$> l) = 0) as ->
      by (intros l; induction l; [done | assumption]).
    assert (∀ l, count_events is_lock (EvUpdateState <$> l) = 0) as Hz
      by (intros l; induction l; [done | assumption]).
    destruct (running_ s), (update_mutex_ s); simpl; by rewrite ?Hz.
  - rewrite Hev. apply elem_of_app. right. apply elem_of_app. left.
    by apply list_elem_of_singleton.
  - intros σ. unfold step. destruct (OnUpdate w (soup σ)). by eexists.
  - intros Hheld. rewrite Hheld in *. rewrite Hev, Hst.
    split; [|split; [done|split]].
    + unfold applied. rewrite !omap_app. fold (applied (EvUpdate <$> elements (mates_ s))).
      rewrite Hupd. by destruct (running_ s).
    + intros Hin. repeat (apply elem_of_app in Hin as [Hin|Hin]).
      * destruct (running_ s); [by apply elem_of_nil in Hin|].
        by apply list_elem_of_singleton in Hin.
      * by apply list_elem_of_singleton in Hin.
      * by apply elem_of_nil in Hin.
      * by apply Hnu in Hin.
      * by apply elem_of_nil in Hin.
    + intros a Ha. rewrite Hheap. simpl. by rewrite decide_False.
  - intros Hfree. rewrite Hfree in *. rewrite Hev, Hst.
    assert (applied
              ((if running_ s then [] else [EvStartThread])
               ++ [EvTryLock (negb false)]
               ++ (EvUpdateState <$> elements (mates_to_update_ s))
               ++ (EvUpdate <$> elements (mates_ s)) ++ [EvUnlock])
            = elements (mates_to_update_ s)) as ->.
    { unfold applied. rewrite !omap_app.
      fold (applied (EvUpdate <$> elements (mates_ s))).
      fold (applied (EvUpdateState <$> elements (mates_to_update_ s))).
      rewrite Hupd, Happ. destruct (running_ s); simpl; by rewrite app_nil_r. }
    split; [done|]. split; [apply NoDup_elements|]. split; [done|].
    split; [rewrite !elem_of_app; do 4 right; by apply list_elem_of_singleton|].
    intros a Ha. rewrite Hheap. simpl. by rewrite (decide_False (P := a ∈ mates_ s)).
Qed.

(** The scene inside the locked part of the visit of the pair: the tick
    finds the mutex held and applies nothing. *)
Lemma C5_tick_never_waits_witness :
  applied (@OnUpdate _ Scenario.proximity Scenario.Near
             (soup (Scenario.after Scenario.run_to_locked))).2 = []
  ∧ applied (@OnUpdate _ Scenario.proximity Scenario.Near
               Scenario.staged).2 = [0].
Proof.
  destruct (C5_tick_never_waits (H := Scenario.proximity) Scenario.Near
              (soup (Scenario.after Scenario.run_to_locked)))
    as (_ & _ & _ & _ & Hheld & _).
  destruct (C5_tick_never_waits (H := Scenario.proximity) Scenario.Near
              Scenario.staged)
    as (_ & _ & _ & _ & _ & Hfree).
  split.
  - apply Hheld. by vm_compute.
  - destruct Hfree as [-> _]; by vm_compute.
Defined.

(** C6, as the code has it.  In the events of a discovery cycle, every
    call of [getStateUpdate] is the first thing that happens in a locked
    section of its own: the mutex is taken once for each evaluated pair,
    staged or not, and held over the evaluation, the staging and the TF
    frame of the joint.  The construction of mates, the broadcasts for the
    links and the publication are outside the locked sections, and a cycle
    leaves the mutex as it found it. *)
Theorem C6_lock_held_per_evaluated_pair :
  ∀ `{MateModelOps World} (w : World) (s s' : AssemblySoup)
    (tr : list Event),
    getStateUpdates w s = Some (s', tr) →
    cycle_trace tr
    ∧ count_events is_lock tr = count_events is_eval tr
    ∧ update_mutex_ s' = update_mutex_ s.
Proof.
  intros World Hops w s s' tr. unfold getStateUpdates.
  destruct (for_each _ _ _) as [[[s1 msg1] tr1]|] eqn:Hscan; [|done].
  simpl. intros [= <- <-].
  assert (cycle_trace tr1 ∧ update_mutex_ s1 = update_mutex_ s) as [Hct Hmu].
  { revert Hscan.
    apply (scan_invariant
             (λ st, cycle_trace st.2 ∧ update_mutex_ st.1.1 = update_mutex_ s)).
    - intros fa fmp ma mmp [[s2 msg2] tr2] [[s3 msg3] tr3] _ _ _ _ _ _.
      simpl. intros [Hct Hmu] (s4 & found & ev & Hfind & Hrest)%visit_spec.
      apply visit_find_frame in Hfind as (_ & _ & _ & Hmu4 & _ & _ & Hev).
      destruct found as [a|].
      + destruct Hrest as (ev2 & Hfree & Hlocked & ->).
        apply visit_locked_frame in Hlocked
          as (_ & _ & _ & Hmu3 & _ & _ & r & mid & -> & Hmid).
        split; [|congruence].
        apply cycle_trace_app; [done|].
        apply cycle_trace_app; [by apply cycle_trace_unlocked|].
        simpl. by repeat constructor.
      + destruct Hrest as (-> & -> & ->). split; [|congruence].
        apply cycle_trace_app; [done|]. by apply cycle_trace_unlocked.
    - intros iter fa s2 msg2 tr2 _ _ [Hct Hmu]. simpl in *. split; [|done].
      apply cycle_trace_app; [done|].
      apply cycle_trace_unlocked, link_introspection_unlocked.
    - split; [constructor | done]. }
  assert (cycle_trace
            (tr1 ++ if publish_active_mates_ s1
                    then [EvPublishActiveMates msg1] else [])) as Hall.
  { apply cycle_trace_app; [done|].
    destruct (publish_active_mates_ s1); by repeat constructor. }
  split; [done|]. split; [by apply cycle_trace_counts | done].
Qed.

(** The cycle of the scene with the parts far apart: the pair is evaluated
    under the lock although nothing is staged. *)
Lemma C6_lock_held_per_evaluated_pair_witness :
  cycle_trace (Scenario.cycle Scenario.Far Scenario.started).2
  ∧ count_events is_lock (Scenario.cycle Scenario.Far Scenario.started).2 = 1
  ∧ count_events is_stage (Scenario.cycle Scenario.Far Scenario.started).2
    = 0.
Proof.
  destruct (C6_lock_held_per_evaluated_pair (H := Scenario.proximity)
              Scenario.Far Scenario.started
              (Scenario.cycle Scenario.Far Scenario.started).1
              (Scenario.cycle Scenario.Far Scenario.started).2)
    as (Hct & _ & _).
  - by vm_compute.
  - split; [exact Hct|]. by vm_compute.
Defined.

(** C6, as stated, fails on that cycle: [getStateUpdate] runs with the
    mutex held, and the mutex is taken although no transition is staged. *)
Lemma C6_counterexample :
  ¬ locks_only_to_stage (H := Scenario.proximity) Scenario.Far
      Scenario.started.
Proof.
  intros Hclaim.
  destruct (getStateUpdates (H := Scenario.proximity) Scenario.Far
              Scenario.started) as [[s' tr]|] eqn:Hrun;
    [|by vm_compute in Hrun].
  destruct (Hclaim s' tr Hrun) as [Hunlocked _].
  vm_compute in Hrun. injection Hrun as _ <-.
  specialize (Hunlocked
                [EvNewMate 0 1 2;
                 EvCreateJoint 0 "socket_1_m0_to_plug_1_m0";
                 EvJointDetach 0; EvLock]
                0 NONE [EvUnlock; EvPublishActiveMates []]).
  by vm_compute in Hunlocked; specialize (Hunlocked eq_refl).
Qed.

(** C7.  The constructor of a mate creates one joint and detaches it, and
    the new mate holds the detached joint.  In every reachable state every
    entry of the mate table is an object of the store for which exactly these
    events happened, once: the construction for the pair of the entry, the
    creation of its joint, and the detachment.  Joints are created nowhere
    else: every joint creation belongs to an entry of the table. *)
Theorem C7_joint_constructed_once :
  ∀ `{MateModelOps World} (s0 : AssemblySoup) (σ : Sys),
    reachable s0 σ →
    (∀ a fmp mmp fa ma mate ev,
       Mate_ctor a fmp mmp fa ma = Some (mate, ev) →
       ev = [EvCreateJoint a (joint_name fa ma fmp mmp); EvJointDetach a]
       ∧ Joint.attached (Mate.joint mate) = false)
    ∧ (∀ f m a, table_lookup (soup σ) f m = Some a →
                is_Some (heap_ (soup σ) !! a)
                ∧ ∃ name, ctor_events a (trace σ)
                          = [EvNewMate a f m; EvCreateJoint a name;
                             EvJointDetach a])
    ∧ (∀ a name, EvCreateJoint a name ∈ trace σ →
                 ∃ f m, table_lookup (soup σ) f m = Some a).
Proof.
  intros World Hops s0 σ Hreach.
  pose proof (reachable_registered _ _ Hreach)
    as (Hnew & Hbound & Hctor & Hnone).
  split; [|split].
  - intros a fmp mmp fa ma mate ev Hc.
    by destruct (Mate_ctor_spec _ _ _ _ _ _ _ Hc) as (-> & -> & _).
  - intros f m a Ha. pose proof (Hbound f m a Ha) as Hlt.
    split; [by apply lookup_lt_is_Some|].
    destruct (Hctor a Hlt) as (f' & m' & name & Ha' & Hev).
    exists name. rewrite Hev.
    assert (EvNewMate a f m ∈ ctor_events a (trace σ)) as Hin.
    { apply ctor_events_elem. split.
      - apply new_mates_elem. rewrite Hnew, Ha. by left.
      - simpl. by apply bool_decide_eq_true_2. }
    rewrite Hev in Hin.
    apply elem_of_cons in Hin as [[= <- <-]|Hin]; [done|].
    apply elem_of_cons in Hin as [[=]|Hin].
    apply elem_of_cons in Hin as [[=]|Hin]. by apply elem_of_nil in Hin.
  - intros a name Hin.
    destruct (decide (a < length (heap_ (soup σ)))) as [Hlt|Hge].
    + destruct (Hctor a Hlt) as (f & m & _ & Ha & _). by exists f, m.
    + assert (EvCreateJoint a name ∈ ctor_events a (trace σ)) as Hin'.
      { apply ctor_events_elem. split; [done|].
        simpl. by apply bool_decide_eq_true_2. }
      rewrite Hnone in Hin' by lia. by apply elem_of_nil in Hin'.
Qed.

(** The mate of the socket and the plug of the scene, after it was mated:
    its joint was created and detached once, when the mate was constructed. *)
Lemma C7_joint_constructed_once_witness :
  is_Some (heap_ (soup (Scenario.after Scenario.run_to_mated)) !! 0)
  ∧ ∃ name,
      ctor_events 0 (trace (Scenario.after Scenario.run_to_mated))
      = [EvNewMate 0 1 2; EvCreateJoint 0 name; EvJointDetach 0].
Proof.
  destruct (C7_joint_constructed_once (H := Scenario.proximity)
              Scenario.loaded (Scenario.after Scenario.run_to_mated))
    as (_ & Hentry & _).
  - split; [by vm_compute|]. exists Scenario.run_to_mated. by vm_compute.
  - apply (Hentry 1 2 0). by vm_compute.
Defined.




(** C9, as the code has it.  [Load] returns at the first [mate_model] element
    that lacks the model attribute or the type attribute, and at the first one
    that names a model other than "proximity" and "dipole" while its type is
    not registered yet (an element whose type is already registered is skipped
    unread).  It logs an error and returns before the atom models, the atoms
    and the update connection: these are as before the call, and the only
    mate models added are those of the elements in front. *)
Theorem C9_load_fails_fast :
  ∀ (links : list Link.t) (sdf : Sdf.Plugin) (s : AssemblySoup)
    (pre post : list Sdf.MateModelElem) (e : Sdf.MateModelElem),
    Sdf.mate_model sdf = pre ++ e :: post →
    (Sdf.attr_model e = None ∨ Sdf.attr_type e = None
     ∨ ∃ model ty, Sdf.attr_model e = Some model ∧ model_kind model = None
                   ∧ Sdf.attr_type e = Some ty
                   ∧ StdMap.find ty (mate_models_ s) = None
                   ∧ Forall (λ e', Sdf.attr_type e' ≠ Some ty) pre) →
    ∃ s' ev msg,
      Load links sdf s = (Return, s', ev)
      ∧ last ev = Some (EvError msg)
      ∧ updateConnection_ s' = updateConnection_ s
      ∧ atoms_ s' = atoms_ s
      ∧ atom_models_ s' = atom_models_ s
      ∧ ∀ k, is_Some (StdMap.find k (mate_models_ s')) →
             is_Some (StdMap.find k (mate_models_ s))
             ∨ Some k ∈ Sdf.attr_type <$> pre.
Proof.
  intros links sdf s pre post e Hsdf Hbad.
  destruct (load_config_frame sdf s) as (Hc & Ha & Hm & Hmm).
  destruct (load_mate_models_aborts pre e post (load_config sdf s))
    as (s' & ev & msg & Hload & Hlast & Hc' & Ha' & Hm' & Hk).
  { by rewrite Hmm. }
  exists s', ev, msg. unfold Load. rewrite Hsdf, Hload.
  repeat split; try congruence.
  intros k Hsome. rewrite <- Hmm. by apply Hk.
Qed.

(** The scene with the unknown model in front: [Load] returns at once from
    the constructor's state. *)
Lemma C9_load_fails_fast_witness :
  ∃ s' ev msg,
    Load Scenario.links
      (Sdf.mkPlugin None None None [Scenario.magnet; Scenario.peg] [])
      AssemblySoup_ctor
    = (Return, s', ev)
    ∧ last ev = Some (EvError msg)
    ∧ updateConnection_ s' = false.
Proof.
  destruct (C9_load_fails_fast Scenario.links
              (Sdf.mkPlugin None None None [Scenario.magnet; Scenario.peg] [])
              AssemblySoup_ctor [] [Scenario.peg] Scenario.magnet)
    as (s' & ev & msg & Hload & Hlast & Hconn & _).
  - reflexivity.
  - right; right. exists "magnet", "peg".
    repeat split; [reflexivity..|constructor].
  - exists s', ev, msg. split; [exact Hload|]. split; [exact Hlast|].
    exact Hconn.
Defined.

(** C9, as stated, fails: an element with an unknown model whose type is
    already registered does not stop [Load], which goes on to register the
    atoms and to connect to the update event. *)
Lemma C9_counterexample :
  ¬ fails_fast Scenario.links Scenario.scene_with_magnet AssemblySoup_ctor.
Proof.
  intros Hclaim. destruct Hclaim as [Hret _]; [|by vm_compute in Hret].
  exists Scenario.magnet. split.
  - right; left.
  - right; right. by exists "magnet".
Qed.

(** C10.  A [mate_point] element whose gender is neither "female" nor "male",
    whatever the case of the letters, creates no mate point: the atom model is
    unchanged, an error is logged, and the loop goes on with the remaining
    mate points; the atom model is then stored and [Load] goes on as it does
    without that element.  The only other trace of the element is the entry
    that looking up its type leaves in [mate_models_]. *)
Theorem C10_unknown_gender_skipped :
  ∀ (p : Sdf.MatePointElem) (rest : list Sdf.MatePointElem)
    (s : AssemblySoup) (am : AtomModel.t) (type : string),
    iequals (Sdf.mp_gender p) "female" = false →
    iequals (Sdf.mp_gender p) "male" = false →
    let s1 :=
      with_mate_models_
        (StdMap.index None (Sdf.mp_type p) (mate_models_ s)).2 s in
    let err := EvError ("Unknown gender: " +:+ Sdf.mp_gender p) in
    load_mate_point p (s, am) = (Go, (s1, am), [err])
    ∧ load_mate_points (p :: rest) (s, am)
      = (let '(f, st, ev) := load_mate_points rest (s1, am) in
         (f, st, err :: ev))
    ∧ load_atom_model (Sdf.mkAtomModelElem type (p :: rest)) s
      = (let '(f, s', ev) :=
           load_atom_model (Sdf.mkAtomModelElem type rest) s1 in
         (f, s', err :: ev)).
Proof.
  intros p rest s am type Hf Hm s1 err.
  assert (∀ am', load_mate_point p (s, am') = (Go, (s1, am'), [err])) as Hp.
  { intros am'. subst s1. unfold load_mate_point. cbv beta iota zeta.
    destruct (StdMap.index None (Sdf.mp_type p) (mate_models_ s))
      as [mate_model models].
    by rewrite Hf, Hm. }
  assert (∀ am', load_mate_points (p :: rest) (s, am')
                 = (let '(f, st, ev) := load_mate_points rest (s1, am') in
                    (f, st, err :: ev))) as Hps.
  { intros am'. cbn [load_mate_points]. rewrite Hp.
    by destruct (load_mate_points rest (s1, am')) as [[f st] ev]. }
  split; [apply Hp|]. split; [apply Hps|].
  unfold load_atom_model. simpl Sdf.mate_point. simpl Sdf.am_type.
  rewrite Hps.
  destruct (load_mate_points rest (s1, AtomModel.mk type [] []))
    as [[f [s' am']] ev].
  by destruct f.
Qed.

(** A mate point of gender "neuter" in front of the male point of the plug. *)
Lemma C10_unknown_gender_skipped_witness :
  load_mate_point (Sdf.mkMatePointElem "peg" "neuter" KDL.FrameIdentity)
    (Scenario.loaded, AtomModel.mk "plug" [] [])
  = (Go,
     (with_mate_models_
        (StdMap.index None "peg" (mate_models_ Scenario.loaded)).2
        Scenario.loaded,
      AtomModel.mk "plug" [] []),
     [EvError "Unknown gender: neuter"]).
Proof.
  apply (C10_unknown_gender_skipped
           (Sdf.mkMatePointElem "peg" "neuter" KDL.FrameIdentity)
           [] Scenario.loaded (AtomModel.mk "plug" [] []) "plug");
    reflexivity.
Defined.

(* ------------------------------------------------------------------------- *)
(** * More lemmas: loading, runs, and the discovery thread *)

Section LoadInvariants.

(** The part of the plugin that one [mate_model] element changes. *)
Lemma load_mate_model_shape e s :
  (load_mate_model e s).1.2 = s
  ∨ ∃ ty mm,
      Sdf.attr_type e = Some ty
      ∧ StdMap.find ty (mate_models_ s) = None
      ∧ (load_mate_model e s).1.1 = Go
      ∧ (load_mate_model e s).1.2
        = with_next_addr_ (S (next_addr_ s))
            (with_mate_models_
               (StdMap.assign ty (Some mm) (mate_models_ s)) s).
Proof.
  unfold load_mate_model.
  destruct (Sdf.attr_model e) as [model|]; [|by left].
  destruct (Sdf.attr_type e) as [ty|]; [|by left].
  destruct (StdMap.find ty (mate_models_ s)) eqn:Hfind; [by left|].
  destruct (model_kind model) as [k|]; [|by left].
  right. simpl.
  destruct (length (load_symmetries e) =? 0)%nat; by eexists ty, _.
Qed.

(** The part of the plugin that one [mate_point] element changes: the entry
    that the lookup of its type may insert, and the allocator. *)
Lemma load_mate_point_shape e s am :
  ∃ n, (load_mate_point e (s, am)).1.2.1
       = with_next_addr_ n
           (with_mate_models_
              (StdMap.index None (Sdf.mp_type e) (mate_models_ s)).2 s).
Proof.
  unfold load_mate_point. cbv beta iota zeta.
  destruct (StdMap.index None (Sdf.mp_type e) (mate_models_ s))
    as [mate_model models]. simpl.
  destruct (iequals (Sdf.mp_gender e) "female").
  - destruct mate_model as [mm|]; simpl.
    + rewrite foldl_push_female_soup. by eexists.
    + exists (next_addr_ s). by destruct s.
  - destruct (iequals (Sdf.mp_gender e) "male"); simpl.
    + by eexists.
    + exists (next_addr_ s). by destruct s.
Qed.

Lemma load_mate_models_invariant (P : AssemblySoup → Prop) es s :
  (∀ e s, e ∈ es → P s → P (load_mate_model e s).1.2) →
  P s → P (load_mate_models es s).1.2.
Proof.
  revert s. induction es as [|e es IH]; intros s Hstep HP; [done|].
  simpl. pose proof (Hstep e s (list_elem_of_here _ _) HP) as H1.
  destruct (load_mate_model e s) as [[f1 s1] ev1]. simpl in H1.
  destruct f1; try done.
  assert (P (load_mate_models es s1).1.2) as H2.
  { apply IH; [|done]. intros e' s' He'. apply Hstep. by right. }
  by destruct (load_mate_models es s1) as [[f2 s2] ev2].
Qed.

Lemma load_mate_points_invariant
    (R : AssemblySoup * AtomModel.t → Prop) es st :
  (∀ e st, e ∈ es → R st → R (load_mate_point e st).1.2) →
  R st → R (load_mate_points es st).1.2.
Proof.
  revert st. induction es as [|e es IH]; intros st Hstep HR; [done|].
  cbn [load_mate_points].
  pose proof (Hstep e st (list_elem_of_here _ _) HR) as H1.
  destruct (load_mate_point e st) as [[f1 st1] ev1]. simpl in H1.
  destruct f1; try done.
  assert (R (load_mate_points es st1).1.2) as H2.
  { apply IH; [|done]. intros e' s' He'. apply Hstep. by right. }
  by destruct (load_mate_points es st1) as [[f2 st2] ev2].
Qed.

Section Scheme.
Variable sdf : Sdf.Plugin.
Variable P : AssemblySoup → Prop.
Variable R : AssemblySoup * AtomModel.t → Prop.
Hypothesis mate_model_step :
  ∀ e s, e ∈ Sdf.mate_model sdf → P s → P (load_mate_model e s).1.2.
Hypothesis new_atom_model :
  ∀ e s, e ∈ Sdf.atom_model sdf →
         P s → R (s, AtomModel.mk (Sdf.am_type e) [] []).
Hypothesis mate_point_step :
  ∀ e p st, e ∈ Sdf.atom_model sdf → p ∈ Sdf.mate_point e →
            R st → R (load_mate_point p st).1.2.
Hypothesis stop_step : ∀ s am, R (s, am) → P s.
Hypothesis store_atom_model :
  ∀ s am, R (s, am) →
          P (with_atom_models_
               (StdMap.assign (AtomModel.type am) am (atom_models_ s)) s).
Hypothesis link_step : ∀ s l, P s → P (load_link s l).
Hypothesis connect_step : ∀ s, P s → P (with_updateConnection_ true s).

Lemma load_atom_model_invariant e s :
  e ∈ Sdf.atom_model sdf → P s → P (load_atom_model e s).1.2.
Proof.
  intros He HP. unfold load_atom_model.
  pose proof (load_mate_points_invariant R (Sdf.mate_point e)
                (s, AtomModel.mk (Sdf.am_type e) [] [])
                (λ p st, mate_point_step e p st He)
                (new_atom_model _ _ He HP)) as HR.
  destruct (load_mate_points _ _) as [[f [s1 am1]] ev]. simpl in HR.
  destruct f; simpl; eauto.
Qed.

Lemma load_atom_models_invariant es s :
  es ⊆ Sdf.atom_model sdf → P s → P (load_atom_models es s).1.2.
Proof.
  revert s. induction es as [|e es IH]; intros s Hsub HP; [done|].
  simpl.
  assert (e ∈ Sdf.atom_model sdf) as He by (apply Hsub; by left).
  pose proof (load_atom_model_invariant e s He HP) as H1.
  destruct (load_atom_model e s) as [[f1 s1] ev1]. simpl in H1.
  destruct f1; try done.
  assert (P (load_atom_models es s1).1.2) as H2.
  { apply IH; [|done]. intros e' He'. apply Hsub. by right. }
  by destruct (load_atom_models es s1) as [[f2 s2] ev2].
Qed.

(** A property that every statement of [Load] after the configuration keeps
    holds of what [Load] leaves behind, however it ends. *)
Lemma Load_invariant links s :
  P (load_config sdf s) → P (Load links sdf s).1.2.
Proof.
  intros HP. unfold Load.
  pose proof (load_mate_models_invariant P (Sdf.mate_model sdf)
                (load_config sdf s) mate_model_step HP) as H1.
  destruct (load_mate_models _ _) as [[f1 s1] ev1]. simpl in H1.
  destruct f1; try done.
  pose proof (load_atom_models_invariant (Sdf.atom_model sdf) s1
                (reflexivity _) H1) as H2.
  destruct (load_atom_models _ _) as [[f2 s2] ev2]. simpl in H2.
  destruct f2; try done. simpl. apply connect_step.
  clear -H2 link_step. revert s2 H2.
  induction links as [|l links IH]; intros s2 H2; [done|].
  simpl. by apply IH, link_step.
Qed.

End Scheme.

End LoadInvariants.

Section LoadExtras.

Lemma load_link_shape s l :
  atom_models_ (load_link s l) = atom_models_ s
  ∧ mate_models_ (load_link s l) = mate_models_ s
  ∧ same_config s (load_link s l).
Proof. unfold load_link. by destruct (atom_model_of _ _). Qed.

Lemma Load_same_config links sdf s :
  same_config (load_config sdf s) (Load links sdf s).1.2.
Proof.
  apply (Load_invariant sdf (same_config (load_config sdf s))
           (λ st, same_config (load_config sdf s) st.1)); try done.
  - intros e s1 _ Hs1.
    destruct (load_mate_model_shape e s1) as [->|(ty & mm & _ & _ & _ & ->)];
      done.
  - intros e p [s1 am] _ _ Hs1.
    destruct (load_mate_point_shape p s1 am) as [n ->]. done.
  - intros s1 l Hs1. unfold load_link. by destruct (atom_model_of _ _).
Qed.

(** The entries of [mate_models_] are never replaced. *)
Lemma Load_keeps links sdf s k v :
  StdMap.find k (mate_models_ s) = Some v →
  StdMap.find k (mate_models_ (Load links sdf s).1.2) = Some v.
Proof.
  intros Hk.
  apply (Load_invariant sdf
           (λ s', StdMap.find k (mate_models_ s') = Some v)
           (λ st, StdMap.find k (mate_models_ st.1) = Some v)); try done.
  - intros e s1 _ Hs1.
    destruct (load_mate_model_shape e s1)
      as [->|(ty & mm & _ & Hty & _ & ->)]; [done|].
    simpl. rewrite find_assign_ne; [done | congruence].
  - intros e p [s1 am] _ _ Hs1.
    destruct (load_mate_point_shape p s1 am) as [n ->]. simpl.
    by apply index_keeps.
  - intros s1 l Hs1. unfold load_link. by destruct (atom_model_of _ _).
  - by destruct (load_config_frame sdf s) as (_ & _ & _ & ->).
Qed.

(** A mate model in [mate_models_] was there before, or a [mate_model]
    element declares its type: the lookups of the mate points insert null
    entries only. *)
Lemma Load_origin links sdf s k mm :
  StdMap.find k (mate_models_ (Load links sdf s).1.2) = Some (Some mm) →
  StdMap.find k (mate_models_ s) = Some (Some mm)
  ∨ k ∈ declared_types sdf.
Proof.
  apply (Load_invariant sdf
           (λ s', StdMap.find k (mate_models_ s') = Some (Some mm) →
                  StdMap.find k (mate_models_ s) = Some (Some mm)
                  ∨ k ∈ declared_types sdf)
           (λ st, StdMap.find k (mate_models_ st.1) = Some (Some mm) →
                  StdMap.find k (mate_models_ s) = Some (Some mm)
                  ∨ k ∈ declared_types sdf)); try done.
  - intros e s1 He Hs1.
    destruct (load_mate_model_shape e s1)
      as [->|(ty & mm' & Hty & Hfind & _ & ->)]; [done|].
    simpl. destruct (decide (k = ty)) as [->|Hne].
    + intros _. right. apply list_elem_of_omap. by exists e.
    + by rewrite find_assign_ne.
  - intros e p [s1 am] _ _ Hs1.
    destruct (load_mate_point_shape p s1 am) as [n ->]. simpl.
    unfold StdMap.index.
    destruct (StdMap.find (Sdf.mp_type p) (mate_models_ s1)) eqn:Hp;
      [done|]. simpl.
    destruct (decide (k = Sdf.mp_type p)) as [->|Hne].
    + by rewrite find_assign_eq.
    + by rewrite find_assign_ne.
  - intros s1 l Hs1. unfold load_link. by destruct (atom_model_of _ _).
  - destruct (load_config_frame sdf s) as (_ & _ & _ & ->). by left.
Qed.

End LoadExtras.

Section Numbering.

Lemma load_mate_point_numbered e s am :
  well_numbered am → well_numbered (load_mate_point e (s, am)).1.2.2.
Proof.
  unfold well_numbered, mate_point_ids, load_mate_point.
  cbv beta iota zeta. intros Ham.
  destruct (StdMap.index None (Sdf.mp_type e) (mate_models_ s))
    as [mate_model models].
  destruct (iequals (Sdf.mp_gender e) "female").
  - destruct mate_model as [mm|]; [|done]. simpl.
    destruct (foldl_push_female mm (Sdf.mp_pose e) (MateModel.symmetries mm)
                (with_mate_models_ models s) am)
      as (s2 & pts & -> & Hlen & _ & Hid & _). simpl.
    rewrite !fmap_app, !length_app, Hlen in *.
    rewrite <- (assoc_L (++)), (comm (++) (MatePoint.id <$> pts)),
      (assoc_L (++)), Ham, Hid.
    set (n := (length _ + length (AtomModel.male_mate_points am))%nat).
    replace (length (AtomModel.female_mate_points am)
             + length (MateModel.symmetries mm)
             + length (AtomModel.male_mate_points am))%nat
      with (n + length (MateModel.symmetries mm))%nat by lia.
    by rewrite seq_app.
  - destruct (iequals (Sdf.mp_gender e) "male"); [|done]. simpl.
    rewrite !fmap_app, !length_app in *. simpl.
    rewrite (assoc_L (++)), Ham.
    set (n := (length _ + length (AtomModel.male_mate_points am))%nat).
    replace (length (AtomModel.female_mate_points am)
             + (length (AtomModel.male_mate_points am) + 1))%nat
      with (n + 1)%nat by lia.
    by rewrite seq_app.
Qed.

Lemma load_mate_point_type e s am :
  AtomModel.type (load_mate_point e (s, am)).1.2.2 = AtomModel.type am.
Proof.
  unfold load_mate_point. cbv beta iota zeta.
  destruct (StdMap.index None (Sdf.mp_type e) (mate_models_ s))
    as [mate_model models].
  destruct (iequals (Sdf.mp_gender e) "female").
  - destruct mate_model as [mm|]; [|done]. simpl.
    by destruct (foldl_push_female mm (Sdf.mp_pose e)
                   (MateModel.symmetries mm) (with_mate_models_ models s) am)
      as (s2 & pts & -> & _).
  - by destruct (iequals (Sdf.mp_gender e) "male").
Qed.

Lemma load_mate_points_type es s am :
  AtomModel.type (load_mate_points es (s, am)).1.2.2 = AtomModel.type am.
Proof.
  apply (load_mate_points_invariant
           (λ st, AtomModel.type st.2 = AtomModel.type am) es (s, am));
    [|done].
  intros e [s1 am1] _ <-. apply load_mate_point_type.
Qed.

(** [Load] stores and hands out well-numbered atom models only. *)
Lemma Load_numbered links sdf s :
  (∀ k am, (k, am) ∈ atom_models_ s → well_numbered am) →
  (∀ a, a ∈ atoms_ s → well_numbered (Atom.model a)) →
  (∀ k am, (k, am) ∈ atom_models_ (Load links sdf s).1.2 → well_numbered am)
  ∧ (∀ a, a ∈ atoms_ (Load links sdf s).1.2 → well_numbered (Atom.model a)).
Proof.
  intros Hmodels Hatoms.
  set (P := λ s' : AssemblySoup,
              (∀ k am, (k, am) ∈ atom_models_ s' → well_numbered am)
              ∧ (∀ a, a ∈ atoms_ s' → well_numbered (Atom.model a))).
  apply (Load_invariant sdf P (λ st, P st.1 ∧ well_numbered st.2)).
  - intros e s1 _ Hs1.
    destruct (load_mate_model_shape e s1)
      as [->|(ty & mm & _ & _ & _ & ->)]; done.
  - intros e s1 _ Hs1. split; [done|]. by unfold well_numbered.
  - intros e p [s1 am] _ _ [Hs1 Ham]. split.
    + by destruct (load_mate_point_shape p s1 am) as [n ->].
    + by apply load_mate_point_numbered.
  - by intros s1 am [Hs1 _].
  - intros s1 am [[Hm Ha] Ham]. split; [|done]. simpl.
    intros k am' [[-> ->]|Hin]%assign_elem; [done|]. by eapply Hm.
  - intros s1 l [Hm Ha]. unfold load_link.
    destruct (atom_model_of _ _) as [am|] eqn:Ham; [|done].
    apply atom_model_of_elem in Ham as [k Hk].
    split; [done|]. simpl. intros a [Hin|Hin]%elem_of_app; [by apply Ha|].
    apply list_elem_of_singleton in Hin as ->. by eapply Hm.
  - by intros s1 Hs1.
  - destruct (load_config_frame sdf s) as (_ & Ha & Hm & _).
    split; [by rewrite Hm | by rewrite Ha].
Qed.

Lemma well_numbered_bound am id :
  well_numbered am → id ∈ mate_point_ids am →
  id < length (mate_point_ids am).
Proof.
  unfold well_numbered. intros Ham Hid.
  assert (length (mate_point_ids am)
          = length (AtomModel.female_mate_points am)
            + length (AtomModel.male_mate_points am)) as ->.
  { unfold mate_point_ids. by rewrite length_fmap, length_app. }
  rewrite Ham in Hid. apply elem_of_seq in Hid. lia.
Qed.

End Numbering.

Section StringOrder.

Lemma ascii_compare_refl (c : ascii) : Ascii.compare c c = Eq.
Proof. unfold Ascii.compare. apply N.compare_refl. Qed.

Lemma compare_lt_trans (a b c : string) :
  String.compare a b = Lt → String.compare b c = Lt →
  String.compare a c = Lt.
Proof.
  revert b c. induction a as [|ca a IH]; intros [|cb b] [|cc c]; simpl;
    try done.
  destruct (Ascii.compare ca cb) eqn:Hab; try done;
    destruct (Ascii.compare cb cc) eqn:Hbc; try done.
  - apply Ascii.compare_eq_iff in Hab as ->, Hbc as ->.
    rewrite ascii_compare_refl. apply IH.
  - apply Ascii.compare_eq_iff in Hab as ->. by rewrite Hbc.
  - apply Ascii.compare_eq_iff in Hbc as <-. by rewrite Hab.
  - intros _ _. unfold Ascii.compare in *.
    rewrite N.compare_lt_iff in Hab, Hbc.
    assert (N_of_ascii ca < N_of_ascii cc)%N as Hac by lia.
    apply N.compare_lt_iff in Hac. by rewrite Hac.
Qed.

Lemma compare_gt_lt (a b : string) :
  String.compare a b = Gt → String.compare b a = Lt.
Proof. rewrite (String.compare_antisym b a). by intros ->. Qed.

(** A proper prefix comes first. *)
Lemma prefix_compare (a b : string) :
  String.prefix a b = true → a ≠ b → String.compare a b = Lt.
Proof.
  revert b. induction a as [|ca a IH]; intros [|cb b]; simpl; try done.
  destruct (ascii_dec ca cb) as [->|]; [|done].
  rewrite ascii_compare_refl. intros Hp Hne. apply IH; [done|congruence].
Qed.

Lemma prefix_trans (a b c : string) :
  String.prefix a b = true → String.prefix b c = true →
  String.prefix a c = true.
Proof.
  revert b c. induction a as [|ca a IH]; intros [|cb b] [|cc c]; simpl;
    try done.
  destruct (ascii_dec ca cb) as [->|]; [|done].
  destruct (ascii_dec cb cc) as [->|]; [|done]. apply IH.
Qed.

End StringOrder.

Section SortedMaps.
Context {V : Type}.
Implicit Types (m : StdMap.t V) (k : string) (v : V).

Lemma assign_sorted k v m : key_sorted m → key_sorted (StdMap.assign k v m).
Proof.
  induction m as [|[k0 v0] m IH]; simpl; [done|]. intros [Hlt Hs].
  destruct (String.compare k k0) eqn:Hk; simpl.
  - apply String.compare_eq_iff in Hk as ->. done.
  - split; [|done]. constructor; [done|].
    eapply Forall_impl; [exact Hlt|]. intros kv Hkv.
    by eapply compare_lt_trans.
  - split; [|by apply IH].
    apply Forall_forall. intros [k' v'] [[-> ->]|Hin]%assign_elem.
    + by apply compare_gt_lt.
    + rewrite Forall_forall in Hlt. by apply (Hlt (k', v')).
Qed.

End SortedMaps.

Section Prefixes.

Lemma atom_model_of_prefix name models am :
  atom_model_of name models = Some am →
  String.prefix (AtomModel.type am) name = true.
Proof.
  induction models as [|[k m] models IH]; simpl; [done|].
  destruct (String.prefix (AtomModel.type m) name) eqn:Hp; [|done].
  by intros [= <-].
Qed.

Lemma atom_model_of_None name models :
  atom_model_of name models = None
  ↔ ∀ k am, (k, am) ∈ models →
            String.prefix (AtomModel.type am) name = false.
Proof.
  induction models as [|[k m] models IH]; simpl.
  - split; [|done]. intros _ k am Hin. by apply elem_of_nil in Hin.
  - destruct (String.prefix (AtomModel.type m) name) eqn:Hp.
    + split; [done|]. intros Hall.
      specialize (Hall k m (list_elem_of_here _ _)). congruence.
    + rewrite IH. split.
      * intros Hall k' am [[= -> ->]|Hin]%elem_of_cons; [done|].
        by eapply Hall.
      * intros Hall k' am Hin. eapply Hall. by right.
Qed.

(** In a sorted map that stores the models under their types, a model whose
    type extends the type of another one is found for no name. *)
Lemma atom_model_of_shadowed name models t1 am1 am :
  key_sorted models → keyed_by_type models →
  (t1, am1) ∈ models →
  String.prefix t1 (AtomModel.type am) = true →
  t1 ≠ AtomModel.type am →
  atom_model_of name models ≠ Some am.
Proof.
  intros Hs Hk Hin Hp Hne.
  induction models as [|[k m] models IH]; simpl; [done|].
  destruct Hs as [Hlt Hs]. apply Forall_cons in Hk as [Hkm Hk].
  simpl in Hkm.
  destruct (String.prefix (AtomModel.type m) name) eqn:Hpm.
  - intros [= ->]. apply elem_of_cons in Hin as [[= -> ->]|Hin]; [done|].
    rewrite Forall_forall in Hlt. specialize (Hlt _ Hin). simpl in Hlt.
    pose proof (prefix_compare _ _ Hp Hne) as Hlt'.
    rewrite Hkm in Hlt'.
    rewrite (String.compare_antisym t1 k), Hlt in Hlt'. done.
  - apply elem_of_cons in Hin as [[= -> ->]|Hin]; [|by apply IH].
    intros Hfound. apply atom_model_of_prefix in Hfound.
    rewrite Hkm in Hpm.
    by rewrite (prefix_trans _ _ _ Hp Hfound) in Hpm.
Qed.

End Prefixes.

Section LoadedLinks.

Lemma load_atom_models_atoms es s :
  atoms_ (load_atom_models es s).1.2 = atoms_ s.
Proof.
  set (sdf := Sdf.mkPlugin None None None [] es).
  apply (load_atom_models_invariant sdf (λ s', atoms_ s' = atoms_ s)
           (λ st, atoms_ st.1 = atoms_ s)); try done.
  intros e p [s1 am] _ _ Hs1.
  by destruct (load_mate_point_shape p s1 am) as [n ->].
Qed.

Lemma load_links_atoms links s :
  atom_models_ (foldl load_link s links) = atom_models_ s
  ∧ atom_view <$> atoms_ (foldl load_link s links)
    = (atom_view <$> atoms_ s)
      ++ omap (atom_of_link (atom_models_ s)) links.
Proof.
  revert s. induction links as [|l links IH]; intros s; simpl.
  - by rewrite app_nil_r.
  - destruct (IH (load_link s l)) as [-> ->].
    unfold load_link, atom_of_link.
    destruct (atom_model_of (Link.GetName l) (atom_models_ s)) as [m|];
      simpl; [|done].
    split; [done|]. by rewrite fmap_app, <- (assoc_L (++)).
Qed.

End LoadedLinks.

Section LoadOutcome.

Lemma load_atom_models_app l1 l2 s :
  load_atom_models (l1 ++ l2) s
  = match load_atom_models l1 s with
    | (Go, s1, ev1) =>
        let '(f, s2, ev2) := load_atom_models l2 s1 in (f, s2, ev1 ++ ev2)
    | stop => stop
    end.
Proof.
  revert s. induction l1 as [|e l1 IH]; intros s; simpl.
  - by destruct (load_atom_models l2 s) as [[f s2] ev2].
  - destruct (load_atom_model e s) as [[f1 s1] ev1]. destruct f1; try done.
    rewrite IH. destruct (load_atom_models l1 s1) as [[f2 s2] ev2].
    destruct f2; try done.
    destruct (load_atom_models l2 s2) as [[f3 s3] ev3].
    by rewrite (assoc_L (++)).
Qed.

(** Later elements of other types leave the entry of a type alone. *)
Lemma load_atom_models_other ty am es s :
  Forall (λ e, Sdf.am_type e ≠ ty) es →
  StdMap.find ty (atom_models_ s) = Some am →
  StdMap.find ty (atom_models_ (load_atom_models es s).1.2) = Some am.
Proof.
  intros Hes Hfind. rewrite Forall_forall in Hes.
  set (sdf := Sdf.mkPlugin None None None [] es).
  apply (load_atom_models_invariant sdf
           (λ s', StdMap.find ty (atom_models_ s') = Some am)
           (λ st, StdMap.find ty (atom_models_ st.1) = Some am
                  ∧ AtomModel.type st.2 ≠ ty)); try done.
  - intros e s1 He Hs1. split; [done|]. by apply Hes.
  - intros e p [s1 am1] _ _ [Hs1 Hty].
    rewrite load_mate_point_type.
    by destruct (load_mate_point_shape p s1 am1) as [n ->].
  - by intros s1 am1 [Hs1 _].
  - intros s1 am1 [Hs1 Hty]. simpl. by rewrite find_assign_ne.
Qed.

Lemma load_mate_point_flow p st : (load_mate_point p st).1.1 ≠ Return.
Proof.
  destruct st as [s am]. unfold load_mate_point. cbv beta iota zeta.
  destruct (StdMap.index None (Sdf.mp_type p) (mate_models_ s))
    as [mate_model models].
  destruct (iequals (Sdf.mp_gender p) "female");
    [by destruct mate_model|].
  by destruct (iequals (Sdf.mp_gender p) "male").
Qed.

Lemma load_mate_points_flow ps st : (load_mate_points ps st).1.1 ≠ Return.
Proof.
  revert st. induction ps as [|p ps IH]; intros st; [done|].
  cbn [load_mate_points].
  pose proof (load_mate_point_flow p st) as H1.
  destruct (load_mate_point p st) as [[f1 st1] ev1]. simpl in H1.
  destruct f1; try done.
  specialize (IH st1). by destruct (load_mate_points ps st1) as [[f2 st2] ev2].
Qed.

Lemma load_atom_models_flow es s : (load_atom_models es s).1.1 ≠ Return.
Proof.
  revert s. induction es as [|e es IH]; intros s; [done|]. simpl.
  assert ((load_atom_model e s).1.1 ≠ Return) as H1.
  { unfold load_atom_model.
    pose proof (load_mate_points_flow (Sdf.mate_point e)
                  (s, AtomModel.mk (Sdf.am_type e) [] [])) as H1.
    destruct (load_mate_points _ _) as [[f [s1 am1]] ev]. by destruct f. }
  destruct (load_atom_model e s) as [[f1 s1] ev1]. simpl in H1.
  destruct f1; try done.
  specialize (IH s1). by destruct (load_atom_models es s1) as [[f2 s2] ev2].
Qed.

(** The lookups of the mate points register no model. *)
Lemma load_mate_point_unmodelled p s am ty :
  ¬ modelled s ty → ¬ modelled (load_mate_point p (s, am)).1.2.1 ty.
Proof.
  intros Hno. destruct (load_mate_point_shape p s am) as [n ->]. simpl.
  intros [mm Hmm]. apply Hno. exists mm. revert Hmm. unfold StdMap.index.
  destruct (StdMap.find (Sdf.mp_type p) (mate_models_ s)) eqn:Hp; [done|].
  simpl. destruct (decide (ty = Sdf.mp_type p)) as [->|Hne].
  - by rewrite find_assign_eq.
  - by rewrite find_assign_ne.
Qed.

Lemma load_mate_points_crash ps p s am :
  p ∈ ps → iequals (Sdf.mp_gender p) "female" = true →
  ¬ modelled s (Sdf.mp_type p) →
  (load_mate_points ps (s, am)).1.1 = Crash.
Proof.
  intros Hin Hf. revert s am. induction ps as [|p0 ps IH]; intros s am Hno.
  { by apply elem_of_nil in Hin. }
  cbn [load_mate_points].
  pose proof (load_mate_point_flow p0 (s, am)) as Hflow.
  pose proof (load_mate_point_unmodelled p0 s am _ Hno) as Hno'.
  destruct (load_mate_point p0 (s, am)) as [[f1 [s1 am1]] ev1] eqn:Hp0.
  simpl in Hflow, Hno'. destruct f1; try done.
  apply elem_of_cons in Hin as [->|Hin].
  - exfalso. revert Hp0. unfold load_mate_point. cbv beta iota zeta.
    unfold StdMap.index. rewrite Hf.
    destruct (StdMap.find (Sdf.mp_type p0) (mate_models_ s)) as [[mm|]|]
      eqn:Hfind; try done.
    destruct Hno. by exists mm.
  - specialize (IH Hin s1 am1 Hno').
    by destruct (load_mate_points ps (s1, am1)) as [[f2 st2] ev2].
Qed.

Lemma load_atom_model_unmodelled e s ty :
  ¬ modelled s ty → ¬ modelled (load_atom_model e s).1.2 ty.
Proof.
  intros Hno. unfold load_atom_model.
  pose proof (load_mate_points_invariant
                (λ st, ¬ modelled st.1 ty) (Sdf.mate_point e)
                (s, AtomModel.mk (Sdf.am_type e) [] [])) as Hinv.
  simpl in Hinv.
  destruct (load_mate_points _ _) as [[f [s1 am1]] ev]. simpl in Hinv.
  assert (¬ modelled s1 ty) as Hno1.
  { apply Hinv; [|done]. intros p [s2 am2] _.
    apply load_mate_point_unmodelled. }
  by destruct f.
Qed.

Lemma load_atom_models_crash es e p s :
  e ∈ es → p ∈ Sdf.mate_point e →
  iequals (Sdf.mp_gender p) "female" = true →
  ¬ modelled s (Sdf.mp_type p) →
  (load_atom_models es s).1.1 = Crash.
Proof.
  intros Hin Hp Hf. revert s. induction es as [|e0 es IH]; intros s Hno.
  { by apply elem_of_nil in Hin. }
  simpl.
  pose proof (load_atom_model_unmodelled e0 s _ Hno) as Hno'.
  destruct (load_atom_model e0 s) as [[f1 s1] ev1] eqn:He0.
  simpl in Hno'.
  assert (f1 ≠ Return) as Hflow.
  { pose proof (load_atom_models_flow [e0] s) as Hfl. simpl in Hfl.
    rewrite He0 in Hfl. by destruct f1. }
  destruct f1; try done.
  apply elem_of_cons in Hin as [->|Hin].
  - exfalso. revert He0. unfold load_atom_model.
    pose proof (load_mate_points_crash (Sdf.mate_point e0) p s
                  (AtomModel.mk (Sdf.am_type e0) [] []) Hp Hf Hno) as Hc.
    destruct (load_mate_points _ _) as [[f [s2 am2]] ev]. simpl in Hc.
    by subst f.
  - specialize (IH Hin s1 Hno').
    by destruct (load_atom_models es s1) as [[f2 s2] ev2].
Qed.

(** Unless [Load] runs to its end, it registers no atom and does not
    connect to the update event. *)
Lemma Load_stopped links sdf s :
  (Load links sdf s).1.1 ≠ Go →
  updateConnection_ (Load links sdf s).1.2 = updateConnection_ s
  ∧ atoms_ (Load links sdf s).1.2 = atoms_ s.
Proof.
  unfold Load.
  destruct (load_config_frame sdf s) as (Hc & Ha & _).
  pose proof (load_mate_models_invariant
                (λ s', updateConnection_ s' = updateConnection_ s
                       ∧ atoms_ s' = atoms_ s)
                (Sdf.mate_model sdf) (load_config sdf s)) as H1.
  destruct (load_mate_models _ _) as [[f1 s1] ev1]. simpl in H1.
  assert (updateConnection_ s1 = updateConnection_ s ∧ atoms_ s1 = atoms_ s)
    as Hs1.
  { apply H1; [|done]. intros e s2 _ Hs2.
    destruct (load_mate_model_shape e s2)
      as [->|(ty & mm & _ & _ & _ & ->)]; done. }
  destruct f1; try done.
  pose proof (load_atom_models_invariant sdf
                (λ s', updateConnection_ s' = updateConnection_ s
                       ∧ atoms_ s' = atoms_ s)
                (λ st, updateConnection_ st.1 = updateConnection_ s
                       ∧ atoms_ st.1 = atoms_ s)) as H2.
  specialize (H2 (λ _ _ _ H, H)).
  assert (updateConnection_ (load_atom_models (Sdf.atom_model sdf) s1).1.2
          = updateConnection_ s
          ∧ atoms_ (load_atom_models (Sdf.atom_model sdf) s1).1.2 = atoms_ s)
    as Hs2.
  { apply H2; try done.
    intros e p [s3 am3] _ _ Hs3.
    by destruct (load_mate_point_shape p s3 am3) as [n ->]. }
  destruct (load_atom_models _ _) as [[f2 s2] ev2].
  by destruct f2.
Qed.

Lemma load_mate_models_origin es s k mm :
  StdMap.find k (mate_models_ (load_mate_models es s).1.2) = Some (Some mm) →
  StdMap.find k (mate_models_ s) = Some (Some mm)
  ∨ k ∈ omap Sdf.attr_type es.
Proof.
  apply (load_mate_models_invariant
           (λ s', StdMap.find k (mate_models_ s') = Some (Some mm) →
                  StdMap.find k (mate_models_ s) = Some (Some mm)
                  ∨ k ∈ omap Sdf.attr_type es) es s); [|by left].
  intros e s1 He Hs1.
  destruct (load_mate_model_shape e s1)
    as [->|(ty & mm' & Hty & Hfind & _ & ->)]; [done|].
  simpl. destruct (decide (k = ty)) as [->|Hne].
  - intros _. right. apply list_elem_of_omap. by exists e.
  - by rewrite find_assign_ne.
Qed.





End LoadOutcome.

Section DiscoverySteps.
Context `{MateModelOps World}.

Lemma unlocked_discovery ev :
  Forall unlocked_event ev → Forall discovery_event ev.
Proof. intros Hev. eapply Forall_impl; [exact Hev|]. by intros []. Qed.

Lemma locked_discovery ev :
  Forall locked_event ev → Forall discovery_event ev.
Proof. intros Hev. eapply Forall_impl; [exact Hev|]. by intros []. Qed.

(** What a step of the discovery thread adds to the trace. *)
Lemma discovery_step_events l σ σ' :
  step l σ = Some σ' → (∀ w, l ≠ LTick w) →
  running_ (soup σ') = running_ (soup σ)
  ∧ publish_active_mates_ (soup σ') = publish_active_mates_ (soup σ)
  ∧ (pc σ ≠ Idle ∨ running_ (soup σ) = true)
  ∧ ∃ ev, trace σ' = trace σ ++ ev ∧ Forall discovery_event ev.
Proof.
  intros Hstep Hl. apply step_cases in Hstep.
  destruct Hstep
    as [w | Hidle Hrun | msg fa fmp ma mmp s' found ev Hscan Hcand Hfind
        | msg a Hwait Hfree | w msg a s' msg' ev Hlocked Hbody
        | iter msg fa Hscan Hfa Htf | msg Hscan]; simpl.
  - by destruct (Hl w).
  - repeat split; [by right|]. exists []. by rewrite app_nil_r.
  - apply visit_find_frame in Hfind as (_ & Hp & _ & _ & Hr & _ & Hev).
    repeat split; [done..|left; congruence|].
    exists ev. split; [done|]. by apply unlocked_discovery.
  - repeat split; [left; congruence|]. exists [EvLock].
    split; [done|]. by repeat constructor.
  - apply visit_locked_frame in Hbody
      as (_ & Hp & _ & _ & Hr & _ & r & mid & -> & Hmid).
    repeat split; [done..|left; congruence|].
    eexists. split; [done|]. constructor; [done|].
    apply Forall_app. split; [by apply locked_discovery|].
    by repeat constructor.
  - repeat split; [left; congruence|]. eexists. split; [done|].
    apply unlocked_discovery, link_introspection_unlocked.
  - repeat split; [left; congruence|]. eexists. split; [done|].
    destruct (publish_active_mates_ (soup σ)); by repeat constructor.
Qed.

Lemma discovery_no_start ev :
  Forall discovery_event ev → count_events is_start ev = 0.
Proof. induction 1 as [|e ev He _ IH]; [done|]. by destruct e. Qed.

Lemma discovery_not_applied ev : Forall discovery_event ev → applied ev = [].
Proof. induction 1 as [|e ev He _ IH]; [done|]. by destruct e. Qed.

Lemma tick_start_count w s :
  count_events is_start (OnUpdate w s).2 = if running_ s then 0 else 1.
Proof.
  rewrite OnUpdate_events, !count_events_app.
  assert (∀ l, count_events is_start (EvUpdateState <$> l) = 0) as Hz1
    by (intros l; induction l; [done | assumption]).
  assert (∀ l, count_events is_start (EvUpdate <$> l) = 0) as Hz2
    by (intros l; induction l; [done | assumption]).
  destruct (running_ s), (update_mutex_ s); simpl; by rewrite ?Hz1, ?Hz2.
Qed.


End DiscoverySteps.

Section Applications.
Context `{MateModelOps World}.

Lemma well_applied_app S t1 t2 :
  well_applied S (t1 ++ t2)
  ↔ well_applied S t1 ∧ well_applied (staged_after S t1) t2.
Proof.
  revert S. induction t1 as [|e t1 IH]; intros S; simpl.
  - split; [by intros ? | by intros [_ ?]].
  - rewrite IH. unfold staged_after. simpl. split.
    + by intros (? & ? & ?).
    + by intros ((? & ?) & ?).
Qed.

Lemma well_applied_none S tr : applied tr = [] → well_applied S tr.
Proof.
  revert S. induction tr as [|e tr IH]; intros S; [done|].
  destruct e; simpl; intros Htr; (split; [done | by apply IH]).
Qed.

(** The calls of a tick: one for each staged mate. *)
Lemma well_applied_elements (S : gset nat) l :
  NoDup l → (∀ a, a ∈ l → a ∈ S) → well_applied S (EvUpdateState <$> l).
Proof.
  intros Hnd. revert S. induction Hnd as [|a l Ha Hnd IH]; intros S Hl.
  - done.
  - simpl. split; [apply Hl; by left|]. apply IH.
    intros b Hb. apply elem_of_difference. split; [apply Hl; by right|].
    intros ->%elem_of_singleton. done.
Qed.

Lemma tick_well_applied w s :
  well_applied (mates_to_update_ s) (OnUpdate w s).2.
Proof.
  rewrite OnUpdate_events.
  assert (∀ S l, well_applied S (EvUpdate <$> l)) as Hupd.
  { intros S l. apply well_applied_none. induction l; [done | assumption]. }
  assert (∀ S (b : bool), well_applied S (if b then [] else [EvUnlock]))
    as Hunl by (intros S []; simpl; done).
  destruct (running_ s); simpl.
  - split; [done|]. destruct (update_mutex_ s); simpl.
    + apply well_applied_app. split; [apply Hupd | done].
    + apply well_applied_app. split.
      * apply well_applied_elements; [apply NoDup_elements|].
        intros a. by rewrite elem_of_elements.
      * apply well_applied_app. split; [apply Hupd | done].
  - split; [done|]. split; [done|]. destruct (update_mutex_ s); simpl.
    + apply well_applied_app. split; [apply Hupd | done].
    + apply well_applied_app. split.
      * apply well_applied_elements; [apply NoDup_elements|].
        intros a. by rewrite elem_of_elements.
      * apply well_applied_app. split; [apply Hupd | done].
Qed.

End Applications.

Section CycleWrites.
Context `{MateModelOps World}.

Lemma set_pending_state_twice r r' m :
  Mate.set_pending_state r (Mate.set_pending_state r' m)
  = Mate.set_pending_state r m.
Proof. done. Qed.


Lemma applied_app t1 t2 : applied (t1 ++ t2) = applied t1 ++ applied t2.
Proof. apply omap_app. Qed.


End CycleWrites.

Section Broadcasts.
Context `{MateModelOps World}.

Lemma for_each_indexed {A St : Type} (Q : nat → St → Prop) (l : list A)
    (body : A → St → option St) (st st' : St) :
  (∀ i x st st', l !! i = Some x → Q i st → body x st = Some st' →
                 Q (S i) st') →
  Q 0 st → for_each l body st = Some st' → Q (length l) st'.
Proof.
  assert (∀ k st,
            (∀ i x st st', l !! i = Some x → Q (k + i) st →
                           body x st = Some st' → Q (k + S i) st') →
            Q k st → for_each l body st = Some st' → Q (k + length l) st')
    as Hgen.
  { induction l as [|x l IH]; intros k st1 Hbody HQ; simpl.
    - intros [= <-]. by rewrite Nat.add_0_r.
    - destruct (body x st1) as [st2|] eqn:Hx; [|done]. simpl. intros Hrest.
      replace (k + S (length l)) with (S k + length l) by lia.
      apply (IH (S k) st2); [| |done].
      + intros i y st3 st4 Hy HQ3 Hy'.
        replace (S k + S i) with (k + S (S i)) by lia.
        apply (Hbody (S i) y st3 st4); [done| |done].
        by replace (k + S i) with (S k + i) by lia.
      + replace (S k) with (k + 1) by lia.
        apply (Hbody 0 x st1 st2); [done| |done].
        by rewrite Nat.add_0_r. }
  intros Hbody. by apply (Hgen 0).
Qed.

Lemma scan_female_points_invariant (P : Scan → Prop) w atoms fa st st' :
  (∀ fmp ma mmp st st', P st → visit w fa fmp ma mmp st = Some st' → P st') →
  P st → scan_female_points w atoms fa st = Some st' → P st'.
Proof.
  intros Hvisit. unfold scan_female_points. apply for_each_invariant.
  intros fmp st1 st2 _ HP1. unfold scan_male_atoms.
  apply for_each_invariant; [|done].
  intros ma st3 st4 _ HP3. case_bool_decide; [by intros [= <-]|].
  unfold scan_male_points. apply for_each_invariant; [|done].
  intros mmp st5 st6 _ HP5.
  destruct (negb _); [by intros [= <-]|]. by apply Hvisit.
Qed.

Lemma markers_app t1 t2 : markers (t1 ++ t2) = markers t1 ++ markers t2.
Proof. apply omap_app. Qed.

Lemma transforms_app t1 t2 :
  transforms (t1 ++ t2) = transforms t1 ++ transforms t2.
Proof. apply omap_app. Qed.

Lemma markers_transforms {A} (f : A → string) frame (l : list A) :
  markers ((λ p, EvSendTransform frame (f p)) <$> l) = [].
Proof. induction l; [done | assumption]. Qed.

Lemma link_introspection_markers s iter fa :
  markers (link_introspection s iter fa) = atom_markers iter fa.
Proof.
  unfold link_introspection. by rewrite !markers_app, !markers_transforms.
Qed.

(** The visit of a pair publishes no markers, and sends no transform
    unless TF broadcasting is on. *)
Lemma visit_broadcasts w fa fmp ma mmp s msg tr s' msg' tr' :
  visit w fa fmp ma mmp (s, msg, tr) = Some (s', msg', tr') →
  broadcast_tf_ s' = broadcast_tf_ s
  ∧ markers tr' = markers tr
  ∧ (broadcast_tf_ s = false → transforms tr' = transforms tr).
Proof.
  intros (s1 & found & ev & Hfind & Hrest)%visit_spec.
  pose proof (visit_find_frame _ _ _ _ _ _ _ _ Hfind)
    as (_ & _ & Htf1 & _).
  apply visit_find_spec in Hfind as (a & mate1 & Hfm & Hmate1 & ->).
  assert (markers ev = [] ∧ transforms ev = []) as [Hm1 Ht1].
  { by apply find_mate_spec in Hfm
      as [(_ & _ & ->)|(_ & _ & mate & T & _ & _ & _ & ->)]. }
  destruct (decide (Mate.pending_state mate1 ≠ NONE)) as [Hp|Hp].
  - destruct Hrest as (-> & -> & ->).
    rewrite markers_app, transforms_app, Hm1, Ht1, !app_nil_r. done.
  - destruct Hrest as (ev2 & _ & Hlocked & ->).
    pose proof (visit_locked_frame _ _ _ _ _ _ _ Hlocked)
      as (_ & _ & Htf2 & _).
    rewrite Htf2. simpl. split; [done|].
    rewrite !markers_app, !transforms_app, Hm1, Ht1. simpl.
    assert (∃ r stage tf,
              ev2 = EvGetStateUpdate a r :: stage ++ tf ++ [EvUnlock]
              ∧ markers stage = [] ∧ transforms stage = []
              ∧ markers tf = []
              ∧ (broadcast_tf_ s1 = false → tf = []))
      as (r & stage & tf & -> & Hm2 & Ht2 & Hm3 & Ht3).
    { revert Hlocked. unfold visit_locked.
      destruct (heap_ _ !! a) as [mate|]; [|done]. simpl.
      set (tf := λ s0 : AssemblySoup,
                   if broadcast_tf_ s0
                      && bool_decide
                           (is_Some (Joint.parent (Mate.joint mate)))
                      && bool_decide
                           (is_Some (Joint.child (Mate.joint mate)))
                   then [EvSendTransform (tf_world_frame_ s0)
                           (Joint.name (Mate.joint mate))]
                   else []).
      assert (∀ s0, broadcast_tf_ s0 = broadcast_tf_ s1 →
                    markers (tf s0) = []
                    ∧ (broadcast_tf_ s1 = false → tf s0 = [])) as Htf.
      { intros s0 Hs0. unfold tf. rewrite Hs0.
        destruct (broadcast_tf_ s1); [|done].
        by destruct (_ && _). }
      destruct (decide (getStateUpdate w mate ≠ NONE)); simpl.
      - destruct (publish_active_mates_ s1 && _); simpl.
        + destruct (Joint.parent _); [|done].
          destruct (Joint.child _); [|done]. simpl.
          intros [= _ _ <-]. eexists _, [EvStage a], _.
          split; [done|]. do 2 (split; [done|]). by apply Htf.
        + intros [= _ _ <-]. eexists _, [EvStage a], _.
          split; [done|]. do 2 (split; [done|]). by apply Htf.
      - intros [= _ _ <-]. eexists _, [], _.
        split; [done|]. do 2 (split; [done|]). by apply Htf. }
    change (EvGetStateUpdate a r :: stage ++ tf ++ [EvUnlock])
      with ([EvGetStateUpdate a r] ++ stage ++ tf ++ [EvUnlock]).
    rewrite !markers_app, !transforms_app, Hm2, Ht2, Hm3. simpl.
    split; [by rewrite app_nil_r|].
    intros Hoff. rewrite Ht3 by by rewrite Htf1. simpl. by rewrite app_nil_r.
Qed.

End Broadcasts.

Section Loop.
Context `{MateModelOps World}.

Lemma stateUpdateLoop_paced period start obs s s' t evs :
  stateUpdateLoop period start obs s = Some (s', t, evs) →
  paced period start (cycle_times evs)
  ∧ Forall (λ d, 0 < d)%Z (sleeps evs)
  ∧ t = default start (snd <$> last (cycle_times evs))
  ∧ length evs = length obs
  ∧ cycle_times evs ⊆ (λ o, (Observation.now o, Observation.later o)) <$> obs.
Proof.
  revert start s s' t evs.
  induction obs as [|o obs IH]; intros last0 s s' t evs; simpl.
  - by intros [= <- <- <-].
  - destruct (Observation.now o <? last0 + period)%Z eqn:Hnow.
    + destruct (stateUpdateLoop period last0 obs s) as [[[s1 t1] evs1]|]
        eqn:Hrest; [|done].
      simpl. intros [= <- <- <-].
      destruct (IH _ _ _ _ _ Hrest) as (Hp & Hs & -> & Hlen & Hsub).
      simpl. split; [done|]. split; [|split; [done|split]].
      * constructor; [|done]. apply Z.ltb_lt in Hnow. lia.
      * by rewrite Hlen.
      * intros c Hc. right. by apply Hsub.
    + destruct (getStateUpdates (Observation.world o) s) as [[s1 tr]|]; [|done]. simpl.
      destruct (stateUpdateLoop period (Observation.later o) obs s1)
        as [[[s2 t2] evs2]|] eqn:Hrest; [|done].
      simpl. intros [= <- <- <-].
      destruct (IH _ _ _ _ _ Hrest) as (Hp & Hs & -> & Hlen & Hsub).
      simpl. split; [|split; [done|split; [|split]]].
      * split; [|done]. apply Z.ltb_ge in Hnow. lia.
      * destruct (cycle_times evs2) as [|c cs]; [done|].
        rewrite last_cons_cons.
        by destruct (proj2 (last_is_Some (c :: cs))) as [y ->].
      * by rewrite Hlen.
      * intros c [->|Hc]%elem_of_cons; [by left|]. right. by apply Hsub.
Qed.

(** With a clock that does not run backwards between the two readings of a
    cycle, the cycles fall behind the periods. *)
Lemma paced_lower_bound period start cycles k now later :
  (0 ≤ period)%Z →
  Forall (λ c, c.1 ≤ c.2)%Z cycles →
  paced period start cycles →
  cycles !! k = Some (now, later) →
  (start + (Z.of_nat k + 1) * period ≤ now)%Z.
Proof.
  intros Hperiod Hmono. revert start k.
  induction Hmono as [|[n l] cycles Hc Hmono IH]; intros last0 k Hp Hk.
  { done. }
  destruct Hp as [Hn Hp]. destruct k as [|k]; simpl in *.
  - injection Hk as -> ->. lia.
  - specialize (IH _ _ Hp Hk). nia.
Qed.




End Loop.

(* ------------------------------------------------------------------------- *)
(** * Further properties of the code *)

(** X1.  [Load] reads the configuration before anything else and no later
    statement touches it: whatever [Load] does afterwards, and however it
    ends, the TF frame, the two switches and the update rate are those of the
    scene description, and those the plugin had for the elements that the
    description leaves out. *)
Theorem Load_configuration :
  ∀ (links : list Link.t) (sdf : Sdf.Plugin) (s : AssemblySoup),
    let s' := (Load links sdf s).1.2 in
    tf_world_frame_ s' = default (tf_world_frame_ s) (Sdf.tf_world_frame sdf)
    ∧ broadcast_tf_ s'
      = match Sdf.tf_world_frame sdf with
        | Some _ => true
        | None => broadcast_tf_ s
        end
    ∧ publish_active_mates_ s'
      = default (publish_active_mates_ s) (Sdf.publish_active_mates sdf)
    ∧ updates_per_second_ s'
      = default (updates_per_second_ s) (Sdf.updates_per_second sdf).
Proof.
  intros links sdf s s'. subst s'.
  destruct (Load_same_config links sdf s) as (-> & -> & -> & ->).
  unfold load_config.
  by destruct (Sdf.tf_world_frame sdf), (Sdf.publish_active_mates sdf),
    (Sdf.updates_per_second sdf).
Qed.

(** X2.  [Load] never replaces an entry of [mate_models_]: an entry that is
    there when [Load] is called is there, unchanged, when it returns or
    stops.  And the mate models it adds are those of the [mate_model]
    elements: a mate model in the map afterwards was there before, or its
    type is declared by such an element. *)
Theorem mate_models_are_never_replaced :
  ∀ (links : list Link.t) (sdf : Sdf.Plugin) (s : AssemblySoup) (k : string),
    (∀ v, StdMap.find k (mate_models_ s) = Some v →
          StdMap.find k (mate_models_ (Load links sdf s).1.2) = Some v)
    ∧ (∀ mm, StdMap.find k (mate_models_ (Load links sdf s).1.2)
             = Some (Some mm) →
             StdMap.find k (mate_models_ s) = Some (Some mm)
             ∨ k ∈ declared_types sdf).
Proof.
  intros links sdf s k. split.
  - intros v. apply Load_keeps.
  - intros mm. apply Load_origin.
Qed.

(** The scene loaded once more with its mate type declared as another
    model: the model of the first declaration stays. *)
Lemma mate_models_are_never_replaced_witness :
  StdMap.find "peg"
    (mate_models_ (Load [] Bench.redeclared Scenario.loaded).1.2)
  = Some (Some (MateModel.mk 0 ProximityMateModel "peg" Scenario.hinge
                  [KDL.FrameIdentity] (Sdf.parameters Scenario.peg))).
Proof.
  refine (proj1 (mate_models_are_never_replaced [] Bench.redeclared
                   Scenario.loaded "peg") _ _).
  vm_compute. reflexivity.
Defined.

(** X3.  Where the first declaration of a mate model type wins, the last
    declaration of an atom model type does: when the loop over the
    [atom_model] elements has run to its end, the atom model stored for a
    type is the one built from the last element of that type, whatever the
    elements before it declared. *)
Theorem last_atom_model_wins :
  ∀ (pre post : list Sdf.AtomModelElem) (e : Sdf.AtomModelElem)
    (s s' : AssemblySoup) (ev : list Event),
    load_atom_models (pre ++ e :: post) s = (Go, s', ev) →
    Forall (λ e', Sdf.am_type e' ≠ Sdf.am_type e) post →
    ∃ s0 ev0 s1 am ev1,
      load_atom_models pre s = (Go, s0, ev0)
      ∧ load_mate_points (Sdf.mate_point e)
          (s0, AtomModel.mk (Sdf.am_type e) [] [])
        = (Go, (s1, am), ev1)
      ∧ StdMap.find (Sdf.am_type e) (atom_models_ s') = Some am.
Proof.
  intros pre post e s s' ev Hload Hpost.
  rewrite load_atom_models_app in Hload.
  destruct (load_atom_models pre s) as [[f0 s0] ev0]; destruct f0; try done.
  exists s0, ev0. revert Hload. simpl. unfold load_atom_model.
  pose proof (load_mate_points_type (Sdf.mate_point e) s0
                (AtomModel.mk (Sdf.am_type e) [] [])) as Hty.
  destruct (load_mate_points _ _) as [[f1 [s1 am]] ev1]; simpl in Hty.
  destruct f1; try done. exists s1, am, ev1. split; [done|]. split; [done|].
  pose proof (load_atom_models_other (Sdf.am_type e) am post
                (with_atom_models_
                   (StdMap.assign (AtomModel.type am) am (atom_models_ s1))
                   s1) Hpost) as Hkeep.
  destruct (load_atom_models post _) as [[f2 s2] ev2]. simpl in Hkeep.
  injection Hload as -> <- _. apply Hkeep. simpl.
  by rewrite Hty, find_assign_eq.
Qed.

(** The socket declared with a female point and then again without mate
    points: the stored socket has none. *)
Lemma last_atom_model_wins_witness :
  ∃ s0 ev0 s1 am ev1,
    load_atom_models [Scenario.socket; Scenario.plug] Scenario.loaded
    = (Go, s0, ev0)
    ∧ load_mate_points (Sdf.mate_point Bench.bare_socket)
        (s0, AtomModel.mk "socket" [] [])
      = (Go, (s1, am), ev1)
    ∧ StdMap.find "socket"
        (atom_models_
           (load_atom_models
              [Scenario.socket; Scenario.plug; Bench.bare_socket]
              Scenario.loaded).1.2)
      = Some am.
Proof.
  refine (last_atom_model_wins [Scenario.socket; Scenario.plug] []
            Bench.bare_socket Scenario.loaded
            (load_atom_models
               [Scenario.socket; Scenario.plug; Bench.bare_socket]
               Scenario.loaded).1.2
            (load_atom_models
               [Scenario.socket; Scenario.plug; Bench.bare_socket]
               Scenario.loaded).2 _ _).
  - vm_compute. reflexivity.
  - constructor.
Defined.

(** X4.  The ids of the mate points of an atom model count its points from
    0, in the order of their creation, the instances of a female point
    included: in every atom model that [Load] stores, and in the model of
    every atom it makes, each id from 0 to the number of points occurs
    once. *)
Theorem mate_point_ids_count_from_zero :
  ∀ (links : list Link.t) (sdf : Sdf.Plugin) (s : AssemblySoup),
    (∀ k am, (k, am) ∈ atom_models_ s → well_numbered am) →
    (∀ a, a ∈ atoms_ s → well_numbered (Atom.model a)) →
    (∀ k am, (k, am) ∈ atom_models_ (Load links sdf s).1.2 →
             well_numbered am ∧ NoDup (mate_point_ids am))
    ∧ (∀ a, a ∈ atoms_ (Load links sdf s).1.2 →
            well_numbered (Atom.model a)
            ∧ NoDup (mate_point_ids (Atom.model a))).
Proof.
  intros links sdf s Hmodels Hatoms.
  assert (∀ am, well_numbered am → NoDup (mate_point_ids am)) as Hnodup.
  { intros am Ham. unfold well_numbered in Ham. rewrite Ham.
    apply NoDup_seq. }
  destruct (Load_numbered links sdf s Hmodels Hatoms) as [H1 H2]. split.
  - intros k am Hin. split; [by eapply H1 | by eapply Hnodup, H1].
  - intros a Hin. split; [by apply H2 | by apply Hnodup, H2].
Qed.

(** An atom model with two female points of the four-fold model and a male
    point in between: nine mate points, with the ids 0 to 8. *)
Lemma mate_point_ids_count_from_zero_witness :
  (∀ k am,
     (k, am) ∈ atom_models_
                 (Load [] Bench.crown_scene AssemblySoup_ctor).1.2 →
     well_numbered am ∧ NoDup (mate_point_ids am))
  ∧ mate_point_ids
      <$> (atom_models_ (Load [] Bench.crown_scene AssemblySoup_ctor).1.2).*2
    = [[0; 1; 2; 3; 5; 6; 7; 8; 4]].
Proof.
  split; [|by vm_compute].
  refine (proj1 (mate_point_ids_count_from_zero [] Bench.crown_scene
                   AssemblySoup_ctor _ _)).
  - intros k am Hin. by apply elem_of_nil in Hin.
  - intros a Hin. by apply elem_of_nil in Hin.
Defined.

(** X5.  When [Load] has run to its end, it has appended to [atoms_] one
    atom for each link whose name starts with the type of a stored atom
    model, in the order of the links, with the first such model in the order
    of the map; the other links are left out.  A link is left out exactly
    when no stored type is a prefix of its name. *)
Theorem links_become_atoms :
  ∀ (links : list Link.t) (sdf : Sdf.Plugin) (s s' : AssemblySoup)
    (ev : list Event),
    Load links sdf s = (Go, s', ev) →
    atom_view <$> atoms_ s'
    = (atom_view <$> atoms_ s) ++ omap (atom_of_link (atom_models_ s')) links
    ∧ (∀ l am, atom_of_link (atom_models_ s') l = Some (l, am) →
               (∃ k, (k, am) ∈ atom_models_ s')
               ∧ String.prefix (AtomModel.type am) (Link.GetName l) = true)
    ∧ (∀ l, atom_of_link (atom_models_ s') l = None
            ↔ ∀ k am, (k, am) ∈ atom_models_ s' →
                      String.prefix (AtomModel.type am) (Link.GetName l)
                      = false).
Proof.
  intros links sdf s s' ev. unfold Load.
  pose proof (load_mate_models_atoms (Sdf.mate_model sdf) (load_config sdf s))
    as H1.
  destruct (load_config_frame sdf s) as (_ & Ha & _).
  destruct (load_mate_models _ _) as [[f1 s1] ev1]; destruct f1; try done.
  destruct (H1 _ _ _ eq_refl) as [_ Ha1].
  pose proof (load_atom_models_atoms (Sdf.atom_model sdf) s1) as Ha2.
  destruct (load_atom_models _ _) as [[f2 s2] ev2]; destruct f2; try done.
  simpl in Ha2. intros [= <- _]. simpl.
  destruct (load_links_atoms links s2) as [-> ->].
  rewrite Ha2, Ha1, Ha. split; [done|]. split.
  - intros l am. unfold atom_of_link.
    destruct (atom_model_of _ _) as [am'|] eqn:Hfound; [|done].
    intros [= <-]. split.
    + by eapply atom_model_of_elem.
    + by eapply atom_model_of_prefix.
  - intros l. unfold atom_of_link. rewrite <- atom_model_of_None.
    by destruct (atom_model_of _ _).
Qed.

(** Three links for the scene with the plugs: the link "base" is left out,
    the other two become atoms. *)
Lemma links_become_atoms_witness :
  Link.GetName ∘ Atom.link
    <$> atoms_ (Load Bench.long_links Bench.long_scene AssemblySoup_ctor).1.2
  = ["plug_long_1"; "plug_2"].
Proof.
  destruct (links_become_atoms Bench.long_links Bench.long_scene
              AssemblySoup_ctor
              (Load Bench.long_links Bench.long_scene AssemblySoup_ctor).1.2
              (Load Bench.long_links Bench.long_scene AssemblySoup_ctor).2)
    as (Hatoms & _).
  - vm_compute. reflexivity.
  - apply (f_equal (fmap (Link.GetName ∘ fst))) in Hatoms.
    rewrite <- list_fmap_compose in Hatoms.
    etransitivity; [exact Hatoms|]. vm_compute. reflexivity.
Defined.

(** X6.  An atom model whose type extends the type of another stored atom
    model is never used: the types are tried in the order of the map, where
    the shorter type comes first and is a prefix of every name that the
    longer one is a prefix of.  So no atom that [Load] makes has the model of
    the longer type. *)
Theorem extended_type_is_shadowed :
  ∀ (links : list Link.t) (sdf : Sdf.Plugin) (s' : AssemblySoup)
    (ev : list Event) (t1 t2 : string) (am1 : AtomModel.t),
    Load links sdf AssemblySoup_ctor = (Go, s', ev) →
    (t1, am1) ∈ atom_models_ s' →
    String.prefix t1 t2 = true →
    t1 ≠ t2 →
    ∀ a, a ∈ atoms_ s' → AtomModel.type (Atom.model a) ≠ t2.
Proof.
  intros links sdf s' ev t1 t2 am1 Hload Hin Hp Hne a Ha Hty.
  assert (key_sorted (atom_models_ s') ∧ keyed_by_type (atom_models_ s'))
    as [Hs Hk].
  { replace s' with (Load links sdf AssemblySoup_ctor).1.2
      by by rewrite Hload.
    apply (Load_invariant sdf
             (λ s, key_sorted (atom_models_ s)
                   ∧ keyed_by_type (atom_models_ s))
             (λ st, key_sorted (atom_models_ st.1)
                    ∧ keyed_by_type (atom_models_ st.1))); try done.
    - intros e s1 _ Hs1.
      destruct (load_mate_model_shape e s1)
        as [->|(ty & mm & _ & _ & _ & ->)]; done.
    - intros e p [s1 am] _ _ Hs1.
      by destruct (load_mate_point_shape p s1 am) as [n ->].
    - intros s1 am [Hs1 Hk1]. simpl. split; [by apply assign_sorted|].
      apply Forall_forall. intros [k v] [[-> ->]|Hkv]%assign_elem; [done|].
      unfold keyed_by_type in Hk1. rewrite Forall_forall in Hk1.
      by apply (Hk1 (k, v)).
    - intros s1 l Hs1. unfold load_link. by destruct (atom_model_of _ _).
    - destruct (load_config_frame sdf AssemblySoup_ctor) as (_ & _ & -> & _).
      by split; [|constructor]. }
  destruct (links_become_atoms links sdf _ _ _ Hload) as (Hatoms & _).
  simpl in Hatoms.
  assert (atom_view a ∈ atom_view <$> atoms_ s') as Hview
    by by apply list_elem_of_fmap_2.
  rewrite Hatoms in Hview.
  apply list_elem_of_omap in Hview as (l & _ & Hl).
  unfold atom_of_link, atom_view in Hl.
  destruct (atom_model_of _ _) as [am|] eqn:Hfound; [|done].
  injection Hl as _ ->.
  by apply (atom_model_of_shadowed (Link.GetName l) (atom_models_ s') t1 am1
              (Atom.model a)); subst.
Qed.

(** The scene with the atom models "plug" and "plug_long": the link
    "plug_long_1" is an atom of type "plug". *)
Lemma extended_type_is_shadowed_witness :
  Forall (λ a, AtomModel.type (Atom.model a) ≠ "plug_long")
    (atoms_ (Load Bench.long_links Bench.long_scene AssemblySoup_ctor).1.2).
Proof.
  apply Forall_forall.
  refine (extended_type_is_shadowed Bench.long_links Bench.long_scene
            (Load Bench.long_links Bench.long_scene AssemblySoup_ctor).1.2
            (Load Bench.long_links Bench.long_scene AssemblySoup_ctor).2
            "plug" "plug_long"
            (AtomModel.mk "plug" []
               [MatePoint.mk 2 (Some (MateModel.mk 0 ProximityMateModel "peg"
                                        Scenario.hinge [KDL.FrameIdentity]
                                        (Sdf.parameters Scenario.peg)))
                  (KDL.FrameGiven 1) 0])
            _ _ _ _).
  - vm_compute. reflexivity.
  - vm_compute. left.
  - reflexivity.
  - discriminate.
Defined.

(** X7.  A scene with a female mate point whose type has no mate model does
    not load.  If no [mate_model] element declares the type and the plugin
    has no model for it, [Load] does not run to its end: when the mate
    models have been read, the loop over the symmetries dereferences the null
    entry that the lookup of the type has just inserted.  No atom is
    registered and the update event is not connected. *)
Theorem undeclared_female_type_stops_Load :
  ∀ (links : list Link.t) (sdf : Sdf.Plugin) (s : AssemblySoup)
    (e : Sdf.AtomModelElem) (p : Sdf.MatePointElem),
    e ∈ Sdf.atom_model sdf →
    p ∈ Sdf.mate_point e →
    iequals (Sdf.mp_gender p) "female" = true →
    Sdf.mp_type p ∉ declared_types sdf →
    ¬ modelled s (Sdf.mp_type p) →
    (Load links sdf s).1.1 ≠ Go
    ∧ ((load_mate_models (Sdf.mate_model sdf) (load_config sdf s)).1.1 = Go →
       (Load links sdf s).1.1 = Crash)
    ∧ updateConnection_ (Load links sdf s).1.2 = updateConnection_ s
    ∧ atoms_ (Load links sdf s).1.2 = atoms_ s.
Proof.
  intros links sdf s e p He Hp Hf Hundeclared Hno.
  assert ((Load links sdf s).1.1 ≠ Go
          ∧ ((load_mate_models (Sdf.mate_model sdf)
                (load_config sdf s)).1.1 = Go →
             (Load links sdf s).1.1 = Crash)) as [Hstop Hcrash].
  { unfold Load.
    pose proof (load_mate_models_origin (Sdf.mate_model sdf)
                  (load_config sdf s) (Sdf.mp_type p)) as Horigin.
    destruct (load_mate_models _ _) as [[f1 s1] ev1]. simpl in Horigin.
    destruct f1; try done.
    assert (¬ modelled s1 (Sdf.mp_type p)) as Hno1.
    { intros [mm Hmm]. destruct (Horigin mm Hmm) as [Hold|Hdecl]; [|done].
      apply Hno. exists mm.
      by destruct (load_config_frame sdf s) as (_ & _ & _ & <-). }
    pose proof (load_atom_models_crash (Sdf.atom_model sdf) e p s1 He Hp Hf
                  Hno1) as Hc.
    destruct (load_atom_models _ _) as [[f2 s2] ev2]. simpl in Hc.
    by subst f2. }
  split; [done|]. split; [done|]. by apply Load_stopped.
Qed.

(** The scene with an atom model that has a female point of type "hook":
    [Load] stops at that point, after the socket and before the plug. *)
Lemma undeclared_female_type_stops_Load_witness :
  (Load Scenario.links Bench.stray_scene AssemblySoup_ctor).1.1 = Crash
  ∧ atoms_ (Load Scenario.links Bench.stray_scene AssemblySoup_ctor).1.2 = [].
Proof.
  destruct (undeclared_female_type_stops_Load Scenario.links
              Bench.stray_scene AssemblySoup_ctor Bench.stray
              (Sdf.mkMatePointElem "hook" "female" KDL.FrameIdentity))
    as (_ & Hcrash & _ & Hatoms).
  - right. left.
  - left.
  - reflexivity.
  - intros [[=]|Hin%elem_of_nil]%elem_of_cons. done.
  - by intros [mm [=]].
  - split; [by apply Hcrash | exact Hatoms].
Defined.



(** X9.  The discovery thread is started once, by the first tick: in every
    state that the system can reach the trace holds one start of the thread
    if [running_] is set and none otherwise, every tick leaves [running_]
    set, and as long as it is not set nothing has happened at all. *)
Theorem discovery_thread_started_once :
  ∀ `{MateModelOps World} (s0 : AssemblySoup) (σ : Sys),
    reachable s0 σ →
    count_events is_start (trace σ) = (if running_ (soup σ) then 1 else 0)
    ∧ (running_ (soup σ) = false → trace σ = [] ∧ pc σ = Idle)
    ∧ ∀ w, running_ (OnUpdate w (soup σ)).1 = true.
Proof.
  intros World Hops s0 σ [Hfresh [ls Hrun]].
  assert (count_events is_start (trace σ)
          = (if running_ (soup σ) then 1 else 0)
          ∧ (running_ (soup σ) = false → trace σ = [] ∧ pc σ = Idle))
    as [Hcount Hidle].
  { refine (exec_invariant
              (λ σ, count_events is_start (trace σ)
                    = (if running_ (soup σ) then 1 else 0)
                    ∧ (running_ (soup σ) = false →
                       trace σ = [] ∧ pc σ = Idle))
              _ ls (boot s0) σ _ Hrun).
    - intros l σ1 σ2 [Hcount Hidle] Hstep.
      destruct l as [w| | | | | |].
      2-7: apply discovery_step_events in Hstep
             as (Hr & _ & Hpc & ev & -> & Hev); [|done];
           rewrite Hr, count_events_app, Hcount, (discovery_no_start _ Hev);
           destruct (running_ (soup σ1)) eqn:Hrunning;
           [split; [done|]; by intros ? |];
           destruct (Hidle eq_refl) as [_ Hi]; by destruct Hpc.
      apply step_cases in Hstep. inversion Hstep; subst. simpl.
      destruct (OnUpdate_frame w (soup σ1)) as (_ & _ & _ & -> & _).
      rewrite count_events_app, Hcount, tick_start_count.
      split; [|done]. by destruct (running_ (soup σ1)).
    - destruct Hfresh as (_ & _ & _ & _ & _ & Hr). simpl. by rewrite Hr. }
  split; [done|]. split; [done|]. intros w.
  by destruct (OnUpdate_frame w (soup σ)) as (_ & _ & _ & -> & _).
Qed.

(** The scene after the pair was mated: the thread was started by the first
    of the two ticks. *)
Lemma discovery_thread_started_once_witness :
  count_events is_start (trace (Scenario.after Scenario.run_to_mated)) = 1.
Proof.
  destruct (discovery_thread_started_once (H := Scenario.proximity)
              Scenario.loaded (Scenario.after Scenario.run_to_mated))
    as (Hcount & _).
  - split; [by vm_compute|]. exists Scenario.run_to_mated. by vm_compute.
  - etransitivity; [exact Hcount|]. by vm_compute.
Defined.

(** X10.  [updateState] is called only on a mate that has a staged
    transition which has not been applied yet: in every run, each call is
    preceded by a staging of that mate with no other call for it in between.
    No transition is applied that the discovery thread did not stage, and
    none is applied twice. *)
Theorem transitions_applied_once :
  ∀ `{MateModelOps World} (s0 : AssemblySoup) (σ : Sys),
    reachable s0 σ → well_applied ∅ (trace σ).
Proof.
  intros World Hops s0 σ [Hfresh [ls Hrun]].
  assert (consistent σ ∧ well_applied ∅ (trace σ)) as [_ Hw]; [|done].
  refine (exec_invariant (λ σ, consistent σ ∧ well_applied ∅ (trace σ))
            _ ls (boot s0) σ _ Hrun).
  2: { split; [by apply consistent_boot | done]. }
  intros l σ1 σ2 [Hc Hw] Hstep. split; [by eapply consistent_step|].
  destruct l as [w| | | | | |];
    try (apply discovery_step_events in Hstep
           as (_ & _ & _ & ev & -> & Hev); [|done];
         apply well_applied_app; split; [done|];
         by apply well_applied_none, discovery_not_applied).
  apply step_cases in Hstep. inversion Hstep; subst. simpl.
  apply well_applied_app. split; [done|].
  destruct Hc as (_ & -> & _). apply tick_well_applied.
Qed.

(** The run of the scene in which the pair is staged and the next tick
    applies the transition. *)
Lemma transitions_applied_once_witness :
  well_applied ∅ (trace (Scenario.after Scenario.run_to_mated))
  ∧ applied (trace (Scenario.after Scenario.run_to_mated)) = [0].
Proof.
  split; [|by vm_compute].
  apply (transitions_applied_once (H := Scenario.proximity) Scenario.loaded).
  split; [by vm_compute|]. exists Scenario.run_to_mated. by vm_compute.
Defined.





(** X13.  With TF broadcasting on, a discovery cycle publishes for every
    atom, in the order of [atoms_], one array of markers for its male mate
    points and one for its female mate points, the marker of a point having
    the id [(iter * 100) + id] for the position [iter] of the atom; with
    broadcasting off it publishes no markers and sends no transform. *)
Theorem markers_of_a_cycle :
  ∀ `{MateModelOps World} (w : World) (s s' : AssemblySoup)
    (tr : list Event),
    getStateUpdates w s = Some (s', tr) →
    if broadcast_tf_ s
    then markers tr = concat (imap atom_markers (atoms_ s))
    else markers tr = [] ∧ transforms tr = [].
Proof.
  intros World Hops w s s' tr. unfold getStateUpdates.
  destruct (for_each _ _ _) as [[[s1 msg1] tr1]|] eqn:Hscan; [|done].
  simpl. intros [= <- <-].
  set (Q := λ (k : nat) (st : Scan),
              broadcast_tf_ st.1.1 = broadcast_tf_ s
              ∧ markers st.2
                = (if broadcast_tf_ s
                   then concat (take k (imap atom_markers (atoms_ s)))
                   else [])
              ∧ (broadcast_tf_ s = false → transforms st.2 = [])).
  assert (Q (length (imap pair (atoms_ s))) (s1, msg1, tr1))
    as (_ & Hm & Ht).
  { revert Hscan. apply (for_each_indexed Q); unfold Q.
    - intros i [iter fa] [[s2 msg2] tr2] st3 Hi (Htf & Hm & Ht).
      rewrite list_lookup_imap in Hi.
      destruct (atoms_ s !! i) as [fa'|] eqn:Hfa; [|done].
      injection Hi as <- <-. unfold scan_atom.
      destruct (scan_female_points _ _ _ _) as [[[s4 msg4] tr4]|] eqn:Hf;
        [|done].
      simpl in *. intros [= <-].
      assert (broadcast_tf_ s4 = broadcast_tf_ s
              ∧ markers tr4 = markers tr2
              ∧ (broadcast_tf_ s = false → transforms tr4 = []))
        as (Htf4 & Hm4 & Ht4).
      { revert Hf.
        apply (scan_female_points_invariant
                 (λ st, broadcast_tf_ st.1.1 = broadcast_tf_ s
                        ∧ markers st.2 = markers tr2
                        ∧ (broadcast_tf_ s = false → transforms st.2 = [])));
          [|done].
        intros fmp ma mmp [[s5 msg5] tr5] [[s6 msg6] tr6] (H5 & Hm5 & Ht5).
        intros (H6 & Hm6 & Ht6)%visit_broadcasts. simpl in *.
        split; [congruence|]. split; [congruence|].
        intros Hoff. rewrite Ht6 by congruence. by apply Ht5. }
      simpl. rewrite Htf4. split; [done|].
      rewrite markers_app, transforms_app, Hm4, Hm.
      destruct (broadcast_tf_ s) eqn:Hb.
      + rewrite link_introspection_markers. split; [|done].
        assert (imap atom_markers (atoms_ s) !! i = Some (atom_markers i fa'))
          as Hi by by rewrite list_lookup_imap, Hfa.
        by rewrite (take_S_r _ _ _ Hi), concat_app.
      + split; [done|]. intros _. rewrite Ht4 by done. done.
    - split; [done|]. split; [by destruct (broadcast_tf_ s) | done]. }
  simpl in Hm, Ht.
  rewrite length_imap, firstn_all2 in Hm by by rewrite length_imap.
  rewrite markers_app, transforms_app, Hm.
  assert (markers (if publish_active_mates_ s1
                   then [EvPublishActiveMates msg1] else []) = []
          ∧ transforms (if publish_active_mates_ s1
                        then [EvPublishActiveMates msg1] else []) = [])
    as [-> ->] by by destruct (publish_active_mates_ s1).
  destruct (broadcast_tf_ s); [by rewrite app_nil_r|].
  split; [done|]. by rewrite Ht.
Qed.

(** The scene with TF broadcasting: the socket is atom 0 with the female
    point 0, the plug is atom 1 with the male point 0. *)
Lemma markers_of_a_cycle_witness :
  markers (default (Bench.framed, [])
             (getStateUpdates (H := Scenario.proximity) Scenario.Near
                Bench.framed)).2
  = [(true, []); (false, [0]); (true, [100]); (false, [])].
Proof.
  pose proof (markers_of_a_cycle (H := Scenario.proximity) Scenario.Near
                Bench.framed
                (default (Bench.framed, [])
                   (getStateUpdates (H := Scenario.proximity) Scenario.Near
                      Bench.framed)).1
                (default (Bench.framed, [])
                   (getStateUpdates (H := Scenario.proximity) Scenario.Near
                      Bench.framed)).2) as Hm.
  assert (broadcast_tf_ Bench.framed = true) as Hon by by vm_compute.
  rewrite Hon in Hm. etransitivity; [apply Hm; by vm_compute|].
  by vm_compute.
Defined.

(** X14.  The marker ids tell the mate points of a loaded plugin apart as
    long as no atom has more than 100 of them: the id of a marker is
    [(iter * 100) + id], the ids of the points of an atom count from 0, so
    two markers with the same id belong to the same atom and to points with
    the same id. *)
Theorem marker_ids_are_unique :
  ∀ (links : list Link.t) (sdf : Sdf.Plugin) (f : Flow) (s : AssemblySoup)
    (ev : list Event),
    Load links sdf AssemblySoup_ctor = (f, s, ev) →
    (∀ a, a ∈ atoms_ s →
          (length (mate_point_ids (Atom.model a)) ≤ 100)%nat) →
    ∀ (i j : nat) (a b : Atom.t) (x y : nat),
      atoms_ s !! i = Some a → atoms_ s !! j = Some b →
      x ∈ mate_point_ids (Atom.model a) →
      y ∈ mate_point_ids (Atom.model b) →
      i * 100 + x = j * 100 + y →
      i = j ∧ a = b ∧ x = y.
Proof.
  intros links sdf f s ev Hload Hsmall i j a b x y Ha Hb Hx Hy Heq.
  destruct (Load_numbered links sdf AssemblySoup_ctor) as [_ Hnum].
  { intros k am Hin. by apply elem_of_nil in Hin. }
  { intros a' Hin. by apply elem_of_nil in Hin. }
  rewrite Hload in Hnum. simpl in Hnum.
  pose proof (list_elem_of_lookup_2 _ _ _ Ha) as Ha'.
  pose proof (list_elem_of_lookup_2 _ _ _ Hb) as Hb'.
  pose proof (well_numbered_bound _ _ (Hnum a Ha') Hx) as Hxlt.
  pose proof (well_numbered_bound _ _ (Hnum b Hb') Hy) as Hylt.
  pose proof (Hsmall a Ha'). pose proof (Hsmall b Hb').
  assert (i = j) as -> by lia. split; [done|]. split; [congruence | lia].
Qed.

(** The socket of the scene, atom 0 with the point 0: marker 0. *)
Lemma marker_ids_are_unique_witness :
  0 = 0 ∧ Scenario.socket_1 = Scenario.socket_1 ∧ 0 = 0.
Proof.
  refine (marker_ids_are_unique Scenario.links Scenario.scene Go
            Scenario.loaded [] _ _ 0 0 Scenario.socket_1 Scenario.socket_1
            0 0 _ _ _ _ _).
  - by vm_compute.
  - intros a Ha.
    assert (atoms_ Scenario.loaded = [Scenario.socket_1; Scenario.plug_1])
      as Hatoms by by vm_compute.
    rewrite Hatoms in Ha.
    apply elem_of_cons in Ha as [->|Ha];
      [|apply list_elem_of_singleton in Ha as ->]; vm_compute; lia.
  - by vm_compute.
  - by vm_compute.
  - vm_compute. left.
  - vm_compute. left.
  - reflexivity.
Defined.

(** X15.  The discovery thread runs a cycle only when the simulation time
    it reads is at least one update period past the time it took as
    [last_update_time], and it sleeps, for a positive time, in every other
    iteration.  If the period is not negative and the clock does not run
    backwards between the two readings of a cycle, the cycle number k
    (from 0) begins no earlier than k + 1 periods after the start of the
    thread: the plugin runs at most one cycle per period of simulated
    time. *)
Theorem discovery_cycles_are_paced :
  ∀ `{MateModelOps World} (update_period start : Time)
    (obs : list (Observation.t World)) (s s' : AssemblySoup) (t : Time)
    (evs : list LoopEvent),
    stateUpdateLoop update_period start obs s = Some (s', t, evs) →
    paced update_period start (cycle_times evs)
    ∧ Forall (λ d, 0 < d)%Z (sleeps evs)
    ∧ length evs = length obs
    ∧ ((0 ≤ update_period)%Z →
       Forall (λ o, Observation.now o ≤ Observation.later o)%Z obs →
       ∀ k now later,
         cycle_times evs !! k = Some (now, later) →
         (start + (Z.of_nat k + 1) * update_period ≤ now)%Z).
Proof.
  intros World Hops period start obs s s' t evs Hloop.
  destruct (stateUpdateLoop_paced _ _ _ _ _ _ _ Hloop)
    as (Hpaced & Hsleeps & _ & Hlen & Hsub).
  do 3 (split; [done|]). intros Hperiod Hmono k n l Hk.
  eapply paced_lower_bound; [done| |done..].
  apply Forall_forall. intros c Hc. apply Hsub in Hc.
  apply list_elem_of_fmap in Hc as (o & -> & Ho).
  rewrite Forall_forall in Hmono. by apply Hmono.
Qed.

(** Four iterations with a period of 100: a sleep of 60, a cycle at 120, a
    sleep of 25, a cycle at 230. *)
Lemma discovery_cycles_are_paced_witness :
  ∃ s' t evs,
    Clock.run = Some (s', t, evs)
    ∧ cycle_times evs = [(120, 125); (230, 231)]%Z
    ∧ sleeps evs = [60; 25]%Z
    ∧ paced 100 0 (cycle_times evs).
Proof.
  destruct Clock.run as [[[s' t] evs]|] eqn:Hrun; [|by vm_compute in Hrun].
  exists s', t, evs. split; [done|].
  destruct (discovery_cycles_are_paced (H := Scenario.proximity) _ _ _ _ _ _
              _ Hrun) as (Hpaced & _).
  vm_compute in Hrun. injection Hrun as _ _ <-.
  split; [done|]. split; [done|]. exact Hpaced.
Defined.


